(** * FastAPI-Template: request pipeline and token core

    A shallow embedding of the middlewares of [app/api/middlewares], the
    token service of [app/services/auth.py], the dependency
    [app/api/deps.py] and the endpoints of [app/api/endpoints/user.py],
    followed by the properties the specification states about them.

    Conventions.
    - Python [int] is [Z]; [str] is [string]; a [dict] used as a map is a
      [gmap]; a [list] is a [list].
    - Clocks are read in whole seconds and every function that reads the
      clock takes the reading as an argument ([current_time] for
      [int(time.time())], [utcnow] for [datetime.utcnow()]).
    - A function that can raise returns a [Result]; a function that also
      changes shared state is a state transformer over [World]. *)

From Stdlib Require Import ZArith String Ascii List Bool Lia.
From stdpp Require Import base option list gmap strings pretty sorting.

Open Scope Z_scope.

(** ** Python values and exceptions *)

(** The scalar values that occur in token payloads and primary keys. *)
Inductive pyval :=
| PInt (z : Z)
| PStr (s : string).

Global Instance pyval_eq_dec : EqDecision pyval.
Proof. solve_decision. Defined.

(** [str(v)]: decimal digits with a leading minus sign for an [int], the
    string itself for a [str]. *)
Definition str (v : pyval) : string :=
  match v with
  | PInt z => pretty z
  | PStr s => s
  end.

(** The [details] slot of an error ([Optional[Any]] in the source): the
    shapes the handlers store in it, which are text and lists and dicts
    of text, and [DetailOther] for any other value, given by what
    [json.dumps] makes of it: [inl] of the encoding, or [inr] of the class
    name and the text of the error it raises ([TypeError] for a value
    without an encoding). *)
Inductive Details :=
| DetailText (s : string)
| DetailErrors (errors : list (string * string))
| DetailDebug (error : string) (traceback : list string)
| DetailOther (dumps : string + (string * string)).

(** Exception classes the repository raises or catches.  [AppException]
    stands for the class and its subclasses of [app/exceptions/base.py];
    [HTTPException] for the framework exception that is not one of them,
    [OtherException] for any further subclass of [Exception].  What
    derives from [BaseException] only ([KeyboardInterrupt], [SystemExit],
    [asyncio.CancelledError]) is outside the type: no [except] clause of
    the repository catches it, and every stage lets it pass. *)
Inductive PyException :=
| AppException (error_code : Z) (detail : string) (status_code : Z)
    (details : option Details)
| HTTPException (status_code : Z) (detail : string)
    (headers : list (string * string))
| PydanticValidationError (errors : list (string * string))
| SQLAlchemyError (message : string)
| JWTError (message : string)
| KeyError (key : string)
| ValueError (message : string)
| AttributeError (message : string)
| OtherException (type_name : string) (message : string).

Inductive Result (A : Type) :=
| Ok (a : A)
| Raise (e : PyException).
Arguments Ok {A} a.
Arguments Raise {A} e.

Global Instance Result_ret : MRet Result := λ A a, Ok a.
Global Instance Result_bind : MBind Result := λ A B f r,
  match r with
  | Ok a => f a
  | Raise e => Raise e
  end.

(** ** Shared state *)

Inductive LogLevel := DEBUG_ | INFO | WARNING | ERROR | CRITICAL.

(** A log record: level, message and the [extra] fields, their values as
    strings ([str] of a number); fields that hold structured values are
    left out. *)
Record LogRecord := {
  levelname : LogLevel;
  message : string;
  extra : list (string * string)
}.

(** One key of the Redis server: a sorted set (member to score) and the
    time at which the key expires, when an [EXPIRE] is pending. *)
Record RedisKey := {
  members : gmap string Z;
  expire_at : option Z
}.

(** Everything a request can change: the in-memory table
    [RateLimitingMiddleware._requests] (absent until the first in-memory
    check creates it), the keyspace of the Redis server, and the log. *)
Record World := {
  _requests : option (gmap string (list Z));
  redis_keys : gmap string RedisKey;
  log : list LogRecord
}.

Definition initial_world : World :=
  {| _requests := None; redis_keys := ∅; log := [] |}.

Definition M (A : Type) : Type := World → Result A * World.

Global Instance M_ret : MRet M := λ A a w, (Ok a, w).
Global Instance M_bind : MBind M := λ A B f m w,
  match m w with
  | (Ok a, w') => f a w'
  | (Raise e, w') => (Raise e, w')
  end.

Definition raise {A} (e : PyException) : M A := λ w, (Raise e, w).

(** [logger.<level>(msg, extra=...)] for a message without braces, as
    the constant messages of the repository all are: loguru formats the
    message with the keyword arguments of the call, which leaves such a
    message as it is.  [logger_format] below is the call for a message
    built from the text of a request or of an error. *)
Definition logger (lvl : LogLevel) (msg : string)
    (ex : list (string * string)) : M unit := λ w,
  (Ok (),
   {| _requests := _requests w;
      redis_keys := redis_keys w;
      log := log w ++ [{| levelname := lvl; message := msg; extra := ex |}] |}).


(** ** core/config.py and the libraries behind the repository

    [Settings] holds the fields of the settings object that the modelled
    code reads; the values come from the environment. *)
Class Settings := {
  SECRET_KEY : string;
  ACCESS_TOKEN_EXPIRE_MINUTES : Z;
  REFRESH_TOKEN_EXPIRE_MINUTES : Z;
  DEBUG : bool
}.

(** The defaults of the source, for a given secret. *)
Definition default_settings (secret : string) : Settings :=
  {| SECRET_KEY := secret;
     ACCESS_TOKEN_EXPIRE_MINUTES := 60 * 24 * 8;
     REFRESH_TOKEN_EXPIRE_MINUTES := 60 * 24 * 30;
     DEBUG := true |}.

(** A JSON Web Token as python-jose reads it.  The compact string is kept
    in parsed form: the [alg] of its header, its payload and its
    signature; [Malformed] is any string that is not three base64url
    segments with a JSON header.  A payload is a JSON object of claims or
    [NotObject], bytes that are none. *)
Inductive Payload :=
| Object (claims : gmap string pyval)
| NotObject (raw : string).

Inductive JWT :=
| Compact (alg : string) (payload : Payload) (signature : string)
| Malformed (raw : string).

(** Library functions whose results the repository only passes on.  They
    are parameters of the development: every theorem holds for any choice.
    - [hmac_sha256 key alg payload]: the HS256 signature python-jose
      computes over the encoded header and payload;
    - [py_int s]: [int(s)] on a string, [None] for [ValueError];
    - [parse_datetime s]: pydantic's reading of a string as a datetime;
    - [pwd_verify plain hashed]: passlib's [pwd_context.verify];
    - [exc_str e] and [format_exception e]: [str(e)] and
      [traceback.format_exception] of a raised exception. *)
Class Libraries := {
  hmac_sha256 : string → string → Payload → string;
  py_int : string → option Z;
  parse_datetime : string → option Z;
  pwd_verify : string → string → bool;
  exc_str : PyException → string;
  format_exception : PyException → list string
}.

(** ** loguru: the message of a log call

    [logger.<level>(message, extra=...)], a call with keyword arguments,
    computes the text of the record as [message.format] of the keyword
    arguments before any sink
    sees it (loguru's default sink is installed: nothing in the repository
    calls [setup_logging]).  Every log call of the repository passes
    [extra=...], some also [exc_info=...], so every message goes through
    [str.format]: braces in it are markup.  Text is a string of bytes:
    of the decimal digits only the ASCII ones count as digits here. *)

(** A keyword argument of a log call: the [extra] dict, of which the
    model keeps the entries of a record, or a flag. *)
Inductive Kwarg :=
| KwDict (entries : list (string * string))
| KwBool (b : bool).

(** [format_value v rest conversion spec]: the text [str.format] puts for
    a replacement field that names a keyword argument of value [v],
    followed by the accessors [rest] ([.attr] and [[key]]), the
    [!conversion] and the [:spec] of the field; it raises what the lookup
    or the formatting raises.  A parameter: the dict holds values the
    model leaves out. *)
Class Formatting := {
  format_value : Kwarg → string → option ascii → string → Result string
}.

(** An instance for the examples.  None of them has a field that names
    a keyword argument, so none depends on the choice: a flag prints as
    [True] or [False], anything else is refused. *)
Definition plain_formatting : Formatting :=
  {| format_value := λ v rest conversion spec,
       match v, rest, conversion, spec with
       | KwBool true, "", None, "" => Ok "True"
       | KwBool false, "", None, "" => Ok "False"
       | _, _, _, _ => Raise (OtherException "TypeError" "unsupported format string")
       end |}.

(** [str.format] on keyword arguments only, after
    [Objects/stringlib/unicode_format.h] of CPython. *)
Module fmt.

(** Where the scan of the format string stands. *)
Inductive state :=
| Literal
| Open
| Close
| Name (name : string) (bracket : bool)
| Bang (name : string)
| Conv (name : string) (conversion : ascii)
| Spec (name : string) (conversion : option ascii) (spec : string)
    (depth : nat).

Definition snoc (s : string) (c : ascii) : string :=
  s +:+ String c EmptyString.

(** The part of a field name before the first [.] or [[]. *)
Fixpoint first_name (name : string) : string :=
  match name with
  | EmptyString => EmptyString
  | String c rest =>
      if bool_decide (c = "."%char ∨ c = "["%char) then EmptyString
      else String c (first_name rest)
  end.

(** What follows it. *)
Fixpoint accessors (name : string) : string :=
  match name with
  | EmptyString => EmptyString
  | String c rest =>
      if bool_decide (c = "."%char ∨ c = "["%char) then name
      else accessors rest
  end.

(** [get_integer]: a name of decimal digits is an index into the
    positional arguments; [PY_SSIZE_T_MAX] is that of a 64-bit build. *)
Inductive integer := NotInteger | Index (n : Z) | TooManyDigits.

Definition PY_SSIZE_T_MAX : Z := 2 ^ 63 - 1.

Definition digit (c : ascii) : option Z :=
  let n := Z.of_nat (nat_of_ascii c) in
  if bool_decide (48 ≤ n ≤ 57) then Some (n - 48) else None.

Fixpoint get_integer_from (accumulator : Z) (s : string) : integer :=
  match s with
  | EmptyString => Index accumulator
  | String c rest =>
      match digit c with
      | None => NotInteger
      | Some digitval =>
          if bool_decide (accumulator > (PY_SSIZE_T_MAX - digitval) / 10)
          then TooManyDigits
          else get_integer_from (accumulator * 10 + digitval) rest
      end
  end.

Definition get_integer (s : string) : integer :=
  match s with
  | EmptyString => NotInteger
  | _ => get_integer_from 0 s
  end.

Definition IndexError (index : Z) : PyException :=
  OtherException "IndexError"
    ("Replacement index " +:+ pretty index
     +:+ " out of range for positional args tuple").

Fixpoint lookup_kwarg (kwargs : list (string * Kwarg)) (name : string)
    : option Kwarg :=
  match kwargs with
  | [] => None
  | (k, v) :: rest =>
      if bool_decide (k = name) then Some v else lookup_kwarg rest name
  end.

Section format.
Context `{Formatting}.
Variable kwargs : list (string * Kwarg).

(** [get_field_object] and [render_field]: a field without a name or
    with a number asks for a positional argument, and there is none; a
    name is looked up among the keyword arguments. *)
Definition field (name : string) (conversion : option ascii)
    (spec : string) : Result string :=
  let first := first_name name in
  match get_integer first with
  | TooManyDigits =>
      Raise (ValueError "Too many decimal digits in format string")
  | Index n => Raise (IndexError n)
  | NotInteger =>
      if bool_decide (first = EmptyString) then Raise (IndexError 0)
      else
        match lookup_kwarg kwargs first with
        | None => Raise (KeyError first)
        | Some v => format_value v (accessors name) conversion spec
        end
  end.

(** The output and the scan after a field. *)
Definition after_field (out : string) (r : Result string)
    : Result (state * string) :=
  match r with
  | Ok text => Ok (Literal, out +:+ text)
  | Raise e => Raise e
  end.

(** One character of the format string ([MarkupIterator_next] and
    [parse_field]). *)
Definition step_name (name : string) (bracket : bool) (out : string)
    (c : ascii) : Result (state * string) :=
  if bracket then
    Ok (Name (snoc name c) (negb (bool_decide (c = "]"%char))), out)
  else if bool_decide (c = "{"%char) then
    Raise (ValueError "unexpected '{' in field name")
  else if bool_decide (c = "["%char) then Ok (Name (snoc name c) true, out)
  else if bool_decide (c = "}"%char) then
    after_field out (field name None EmptyString)
  else if bool_decide (c = ":"%char) then Ok (Spec name None EmptyString 0, out)
  else if bool_decide (c = "!"%char) then Ok (Bang name, out)
  else Ok (Name (snoc name c) false, out).

Definition step (st : state) (out : string) (c : ascii)
    : Result (state * string) :=
  match st with
  | Literal =>
      if bool_decide (c = "{"%char) then Ok (Open, out)
      else if bool_decide (c = "}"%char) then Ok (Close, out)
      else Ok (Literal, snoc out c)
  | Open =>
      if bool_decide (c = "{"%char) then Ok (Literal, snoc out c)
      else step_name EmptyString false out c
  | Close =>
      if bool_decide (c = "}"%char) then Ok (Literal, snoc out c)
      else Raise (ValueError "Single '}' encountered in format string")
  | Name name bracket => step_name name bracket out c
  | Bang name => Ok (Conv name c, out)
  | Conv name conversion =>
      if bool_decide (c = "}"%char) then
        after_field out (field name (Some conversion) EmptyString)
      else if bool_decide (c = ":"%char) then
        Ok (Spec name (Some conversion) EmptyString 0, out)
      else Raise (ValueError "expected ':' after conversion specifier")
  | Spec name conversion spec depth =>
      if bool_decide (c = "{"%char) then
        Ok (Spec name conversion (snoc spec c) (S depth), out)
      else if bool_decide (c = "}"%char) then
        match depth with
        | O => after_field out (field name conversion spec)
        | S depth' => Ok (Spec name conversion (snoc spec c) depth', out)
        end
      else Ok (Spec name conversion (snoc spec c) depth, out)
  end.

(** The end of the format string. *)
Definition finish (st : state) (out : string) : Result string :=
  match st with
  | Literal => Ok out
  | Open => Raise (ValueError "Single '{' encountered in format string")
  | Close => Raise (ValueError "Single '}' encountered in format string")
  | Name _ _ => Raise (ValueError "expected '}' before end of string")
  | Bang _ =>
      Raise (ValueError "end of string while looking for conversion specifier")
  | Conv _ _ | Spec _ _ _ _ =>
      Raise (ValueError "unmatched '{' in format spec")
  end.

Fixpoint run (st : state) (out : string) (s : string) : Result string :=
  match s with
  | EmptyString => finish st out
  | String c rest =>
      match step st out c with
      | Ok (st', out') => run st' out' rest
      | Raise e => Raise e
      end
  end.

(** [message.format] of the keyword arguments *)
Definition format (message : string) : Result string :=
  run Literal EmptyString message.

End format.

End fmt.

(** [logger.<level>(msg, extra=ex, ...)] with the further keyword
    arguments [more]: the message is formatted
    with the keyword arguments, which raises or gives the text of the
    record. *)
Definition logger_format `{Formatting} (lvl : LogLevel) (msg : string)
    (ex : list (string * string)) (more : list (string * Kwarg)) : M unit :=
  λ w,
  match fmt.format (("extra", KwDict ex) :: more) msg with
  | Ok text => logger lvl text ex w
  | Raise e => (Raise e, w)
  end.
(** ** Requests and responses (the parts of Starlette the middlewares use) *)

Definition ascii_lower (a : ascii) : ascii :=
  let n := nat_of_ascii a in
  if decide (65 ≤ n ≤ 90)%nat then ascii_of_nat (n + 32) else a.

(** [s.lower()] on ASCII text. *)
Fixpoint lower (s : string) : string :=
  match s with
  | EmptyString => EmptyString
  | String a s' => String (ascii_lower a) (lower s')
  end.

Definition hex_digit (n : nat) : ascii :=
  if decide (n < 10)%nat then ascii_of_nat (48 + n) else ascii_of_nat (55 + n).

Definition unreserved (a : ascii) : bool :=
  let n := nat_of_ascii a in
  bool_decide ((48 ≤ n ≤ 57) ∨ (65 ≤ n ≤ 90) ∨ (97 ≤ n ≤ 122)
               ∨ n = 45 ∨ n = 46 ∨ n = 95 ∨ n = 126)%nat.

(** [urllib.parse.quote_plus] on the bytes of a string: letters, digits
    and [_.-~] are kept, a space becomes [+], any other byte becomes a
    percent sign and two upper-case hexadecimal digits. *)
Fixpoint quote_plus (s : string) : string :=
  match s with
  | EmptyString => EmptyString
  | String a s' =>
      (if unreserved a then String a EmptyString
       else if decide (a = " "%char) then "+"
       else String "%" (String (hex_digit (nat_of_ascii a / 16))
                          (String (hex_digit (nat_of_ascii a mod 16)) EmptyString)))
      +:+ quote_plus s'
  end.

(** [urllib.parse.urlencode] of a list of pairs. *)
Fixpoint urlencode (query : list (string * string)) : string :=
  match query with
  | [] => ""
  | [(k, v)] => quote_plus k +:+ "=" +:+ quote_plus v
  | (k, v) :: rest => quote_plus k +:+ "=" +:+ quote_plus v +:+ "&" +:+ urlencode rest
  end.

Module Request.

(** The attributes of a request that the middlewares read.
    [str(request.query_params)] is [urlencode] of the parsed pairs;
    [path_params] holds [str(request.path_params)] and [json] holds
    [str(await request.json())], absent when the body does not parse. *)
Record t := {
  method : string;
  url_path : string;
  client : option (string * Z);
  query_params : list (string * string);
  path_params : string;
  json : option string;
  state_request_id : option string
}.

End Request.

Module ErrorResponse.

(** schemas/error.py *)
Record t := {
  error_code : Z;
  message : string;
  details : option Details;
  trace_id : option string
}.

End ErrorResponse.

(** [json.dumps] on the error list of a pydantic [ValidationError].  The
    model keeps the location and the type of each error; the list that
    [exc.errors()] returns also holds the rejected input and the context
    of each error, values of any kind.  [dumps_errors errors] is the
    class name and the text of the error [json.dumps] raises on that
    list, if it raises one.  A parameter of the development. *)
Class Json := {
  dumps_errors : list (string * string) → option (string * string)
}.

(** An instance for examples: every error list has an encoding. *)
Definition plain_json : Json := {| dumps_errors := λ _, None |}.

Module Response.

Inductive Body :=
| Text (content : string)
| JSON (content : ErrorResponse.t).

(** [raw_headers] is the list behind [response.headers], keys in lower
    case.  The content-length and content-type entries that the
    framework derives from the rendered body are left out. *)
Record t := {
  status_code : Z;
  body : Body;
  raw_headers : list (string * string)
}.

Definition init_headers (headers : list (string * string)) : list (string * string) :=
  (λ kv : string * string, (lower kv.1, kv.2)) <$> headers.

(** [Response(content=..., status_code=..., headers=...)] *)
Definition __init__ (content : string) (status_code : Z)
    (headers : list (string * string)) : t :=
  {| status_code := status_code;
     body := Text content;
     raw_headers := init_headers headers |}.

(** The response [JSONResponse(status_code=..., content=...)] builds. *)
Definition JSONResponse (status_code : Z) (content : ErrorResponse.t) : t :=
  {| status_code := status_code; body := JSON content; raw_headers := [] |}.

(** [JSONResponse(status_code=..., content=...)]: the constructor renders
    the body with [json.dumps], which raises on [details] that it does
    not encode. *)
Definition render_json `{Json} (status_code : Z) (content : ErrorResponse.t)
    : Result t :=
  match ErrorResponse.details content with
  | Some (DetailOther (inr (name, text))) => Raise (OtherException name text)
  | Some (DetailErrors errors) =>
      match dumps_errors errors with
      | Some (name, text) => Raise (OtherException name text)
      | None => Ok (JSONResponse status_code content)
      end
  | _ => Ok (JSONResponse status_code content)
  end.

(** [MutableHeaders.__setitem__] on the raw list: the first entry with the
    key is replaced and later ones are deleted; without one the pair is
    appended. *)
Fixpoint setitem_raw (set_key set_value : string)
    (l : list (string * string)) : list (string * string) :=
  match l with
  | [] => [(set_key, set_value)]
  | (k, v) :: l' =>
      if decide (k = set_key)
      then (set_key, set_value) :: filter (λ kv : string * string, kv.1 ≠ set_key) l'
      else (k, v) :: setitem_raw set_key set_value l'
  end.

(** [response.headers[key] = value] *)
Definition headers_setitem (key value : string) (r : t) : t :=
  {| status_code := status_code r;
     body := body r;
     raw_headers := setitem_raw (lower key) value (raw_headers r) |}.

(** [response.headers.get(key)] *)
Definition headers_get (key : string) (r : t) : option string :=
  match list_find (λ kv : string * string, kv.1 = lower key) (raw_headers r) with
  | Some (_, kv) => Some kv.2
  | None => None
  end.

End Response.

(** A middleware's [call_next]: the rest of the pipeline, which may change
    the world, answer or raise. *)
Definition CallNext := Request.t → M Response.t.

(** ** The Redis commands of the rate limiter

    Scores are the integer timestamps the middleware stores.  A command
    runs at server time [now]; a key whose expiry time has been reached
    reads as absent, and a sorted set that becomes empty is deleted. *)
Module Redis.

Inductive client := Client.

Abbreviation keyspace := (gmap string RedisKey).

Definition live (now : Z) (db : keyspace) (key : string) : option RedisKey :=
  match db !! key with
  | Some k =>
      match expire_at k with
      | Some d => if decide (d ≤ now) then None else Some k
      | None => Some k
      end
  | None => None
  end.

(** [ZREMRANGEBYSCORE key lo hi]: removes the members whose score lies in
    the closed interval; answers how many were removed. *)
Definition zremrangebyscore (key : string) (lo hi : Z) (now : Z)
    (db : keyspace) : Z * keyspace :=
  match live now db key with
  | None => (0, delete key db)
  | Some k =>
      let kept := filter (λ ms : string * Z, ¬ (lo ≤ ms.2 ≤ hi)) (members k) in
      (Z.of_nat (size (members k)) - Z.of_nat (size kept),
       if decide (kept = ∅) then delete key db
       else <[key := {| members := kept; expire_at := expire_at k |}]> db)
  end.

(** [ZADD key score member]: adds the member or, when it is one already,
    updates its score; answers how many members are new. *)
Definition zadd (key : string) (member : string) (score : Z) (now : Z)
    (db : keyspace) : Z * keyspace :=
  match live now db key with
  | None =>
      (1, <[key := {| members := {[member := score]}; expire_at := None |}]> db)
  | Some k =>
      (if decide (is_Some (members k !! member)) then 0 else 1,
       <[key := {| members := <[member := score]> (members k);
                   expire_at := expire_at k |}]> db)
  end.

(** [ZCARD key] *)
Definition zcard (key : string) (now : Z) (db : keyspace) : Z * keyspace :=
  match live now db key with
  | None => (0, db)
  | Some k => (Z.of_nat (size (members k)), db)
  end.

(** [EXPIRE key seconds]: a timeout that is not positive deletes the key. *)
Definition expire (key : string) (seconds : Z) (now : Z)
    (db : keyspace) : Z * keyspace :=
  match live now db key with
  | None => (0, delete key db)
  | Some k =>
      (1,
       if decide (seconds ≤ 0) then delete key db
       else <[key := {| members := members k;
                        expire_at := Some (now + seconds) |}]> db)
  end.

End Redis.

(** ** middlewares/security.py: RateLimitingMiddleware *)
Module RateLimitingMiddleware.

Record t := {
  redis : option Redis.client;
  rate_limit : Z;
  rate_limit_by_path : gmap string Z;
  window_size : Z;
  exclude_paths : gset string
}.

(** [__init__]: an absent or empty [rate_limit_by_path] becomes the empty
    dict, an absent or empty [exclude_paths] the two default paths. *)
Definition __init__ (redis_client : option Redis.client) (rate_limit : Z)
    (rate_limit_by_path : option (gmap string Z)) (window_size : Z)
    (exclude_paths : option (gset string)) : t :=
  {| redis := redis_client;
     rate_limit := rate_limit;
     rate_limit_by_path := default ∅ rate_limit_by_path;
     window_size := window_size;
     exclude_paths :=
       match exclude_paths with
       | Some s => if decide (s = ∅) then {["/health"; "/metrics"]} else s
       | None => {["/health"; "/metrics"]}
       end |}.

Definition _get_rate_limit (self : t) (path : string) : Z :=
  default (rate_limit self) (rate_limit_by_path self !! path).

(** The four commands of the pipeline, executed as one transaction at
    [current_time]; the answer is the list of the four results. *)
Definition pipeline_execute (key : string) (window_start current_time : Z)
    (window_size : Z) (db : Redis.keyspace) : (Z * Z * Z * Z) * Redis.keyspace :=
  let '(r1, db1) := Redis.zremrangebyscore key 0 window_start current_time db in
  let '(r2, db2) :=
    Redis.zadd key (str (PInt current_time)) current_time current_time db1 in
  let '(r3, db3) := Redis.zcard key current_time db2 in
  let '(r4, db4) := Redis.expire key window_size current_time db3 in
  ((r1, r2, r3, r4), db4).

Definition _check_rate_limit (self : t) (key : string) (limit : Z)
    (current_time : Z) : M (bool * Z) := λ w,
  let window_start := current_time - window_size self in
  match redis self with
  | Some _ =>
      let '((_, _, count, _), db) :=
        pipeline_execute key window_start current_time (window_size self)
          (redis_keys w) in
      (Ok (bool_decide (count ≤ limit), count),
       {| _requests := _requests w; redis_keys := db; log := log w |})
  | None =>
      let requests := default ∅ (_requests w) in
      let requests :=
        match requests !! key with
        | Some _ => requests
        | None => <[key := []]> requests
        end in
      let kept :=
        filter (λ ts, window_start < ts) (default [] (requests !! key)) in
      let entries := kept ++ [current_time] in
      let count := Z.of_nat (length entries) in
      (Ok (bool_decide (count ≤ limit), count),
       {| _requests := Some (<[key := entries]> requests);
          redis_keys := redis_keys w;
          log := log w |})
  end.

Definition dispatch (self : t) (request : Request.t) (current_time : Z)
    (call_next : CallNext) : M Response.t :=
  if decide (Request.url_path request ∈ exclude_paths self)
  then call_next request
  else
    let client_ip :=
      match Request.client request with
      | Some (host, _) => host
      | None => "unknown"
      end in
    let rate_limit := _get_rate_limit self (Request.url_path request) in
    let rate_limit_key :=
      "rate_limit:" +:+ client_ip +:+ ":" +:+ Request.url_path request in
    '(is_allowed, current_count) ←
      _check_rate_limit self rate_limit_key rate_limit current_time;
    if negb is_allowed then
      _ ← logger WARNING "Rate limit exceeded"
            [("client_ip", client_ip);
             ("path", Request.url_path request);
             ("count", str (PInt current_count));
             ("limit", str (PInt rate_limit))];
      mret (Response.__init__ "Too Many Requests" 429
              [("Retry-After", str (PInt (window_size self)))])
    else call_next request.

End RateLimitingMiddleware.

(** ** middlewares/security.py: SecurityHeadersMiddleware *)
Module SecurityHeadersMiddleware.

Definition dispatch (request : Request.t) (call_next : CallNext)
    : M Response.t :=
  response ← call_next request;
  let response :=
    Response.headers_setitem "X-Content-Type-Options" "nosniff" response in
  let response := Response.headers_setitem "X-Frame-Options" "DENY" response in
  let response :=
    Response.headers_setitem "X-XSS-Protection" "1; mode=block" response in
  let response :=
    Response.headers_setitem "Strict-Transport-Security"
      "max-age=31536000; includeSubDomains" response in
  let response :=
    Response.headers_setitem "Content-Security-Policy" "default-src 'self'"
      response in
  let response :=
    Response.headers_setitem "Referrer-Policy" "strict-origin-when-cross-origin"
      response in
  let response :=
    Response.headers_setitem "Permissions-Policy" "geolocation=(), microphone=()"
      response in
  mret response.

End SecurityHeadersMiddleware.


(** ** Regular expressions (the fragment of [re] the screen's patterns use)

    Text is ASCII.  Repetition only ever applies to a character class in
    the seven patterns, so the syntax has no general star; [search] asks
    whether some match exists, for which a lazy and a greedy repetition
    agree.  The matcher carries the character before the current position
    to decide a word boundary. *)
Module re.

Inductive cls :=
| Dot      (* any character but a newline *)
| Space    (* \s *)
| Word.    (* \w *)

Inductive regex :=
| Lit (s : string)
| Alt (r1 r2 : regex)
| Seq (r1 r2 : regex)
| Star (c : cls)
| Plus (c : cls)
| Boundary.

Record Pattern := {
  ignorecase : bool;
  body : regex
}.

Definition is_word (a : ascii) : bool :=
  let n := nat_of_ascii a in
  bool_decide ((48 ≤ n ≤ 57) ∨ (65 ≤ n ≤ 90) ∨ (97 ≤ n ≤ 122) ∨ n = 95)%nat.

Definition is_space (a : ascii) : bool :=
  let n := nat_of_ascii a in
  bool_decide ((9 ≤ n ≤ 13) ∨ (28 ≤ n ≤ 32))%nat.

Definition in_cls (c : cls) (a : ascii) : bool :=
  match c with
  | Dot => negb (bool_decide (nat_of_ascii a = 10%nat))
  | Space => is_space a
  | Word => is_word a
  end.

Definition same_char (ic : bool) (a b : ascii) : bool :=
  if ic then bool_decide (ascii_lower a = ascii_lower b) else bool_decide (a = b).

Definition word_before (prev : option ascii) : bool :=
  match prev with Some a => is_word a | None => false end.

Definition word_after (s : string) : bool :=
  match s with String a _ => is_word a | EmptyString => false end.

(** The literal [lit] read off the front of [s]; [k] continues with the
    last character read and the rest. *)
Fixpoint match_lit (ic : bool) (lit : string) (prev : option ascii) (s : string)
    (k : option ascii → string → bool) : bool :=
  match lit with
  | EmptyString => k prev s
  | String c lit' =>
      match s with
      | String a s' => same_char ic c a && match_lit ic lit' (Some a) s' k
      | EmptyString => false
      end
  end.

(** Zero or more characters of the class. *)
Fixpoint match_star (c : cls) (k : option ascii → string → bool)
    (prev : option ascii) (s : string) : bool :=
  k prev s ||
  match s with
  | String a s' => in_cls c a && match_star c k (Some a) s'
  | EmptyString => false
  end.

Fixpoint matches (ic : bool) (r : regex) (prev : option ascii) (s : string)
    (k : option ascii → string → bool) : bool :=
  match r with
  | Lit lit => match_lit ic lit prev s k
  | Alt r1 r2 => matches ic r1 prev s k || matches ic r2 prev s k
  | Seq r1 r2 => matches ic r1 prev s (λ p s', matches ic r2 p s' k)
  | Star c => match_star c k prev s
  | Plus c =>
      match s with
      | String a s' => in_cls c a && match_star c k (Some a) s'
      | EmptyString => false
      end
  | Boundary => negb (eqb (word_before prev) (word_after s)) && k prev s
  end.

(** A match starting at the current position or at a later one. *)
Fixpoint search_from (p : Pattern) (prev : option ascii) (s : string) : bool :=
  matches (ignorecase p) (body p) prev s (λ _ _, true) ||
  match s with
  | String a s' => search_from p (Some a) s'
  | EmptyString => false
  end.

(** [pattern.search(text)] as a truth value. *)
Definition search (p : Pattern) (text : string) : bool :=
  search_from p None text.

Definition alts (l : list string) : regex :=
  match l with
  | [] => Lit ""
  | x :: xs => fold_left (λ r y, Alt r (Lit y)) xs (Lit x)
  end.

Fixpoint seq (l : list regex) : regex :=
  match l with
  | [] => Lit ""
  | [r] => r
  | r :: rs => Seq r (seq rs)
  end.

End re.

(** ** middlewares/security.py: SQLInjectionMiddleware *)
Module SQLInjectionMiddleware.

Import re.

(** [self.patterns]: the seven entries of [sql_patterns], compiled, in
    the order of the source. *)
Definition patterns : list Pattern :=
  [ {| ignorecase := true;
       body := seq [alts ["SELECT"; "INSERT"; "UPDATE"; "DELETE"; "DROP"; "UNION"; "ALTER"];
                    Star Dot; Lit ";"] |};
    {| ignorecase := true;
       body := seq [Boundary; alts ["AND"; "OR"]; Boundary; Plus Space; Plus Word;
                    Star Space; Lit "="; Star Space; Plus Word] |};
    {| ignorecase := true;
       body := alts ["--"; "#"; "/*"; "*/"] |};
    {| ignorecase := true;
       body := Alt (seq [Boundary; Lit "EXEC"; Boundary])
                   (seq [Boundary; Lit "LIKE"; Boundary]) |};
    {| ignorecase := true;
       body := Alt (Alt (seq [Boundary; Lit "SYSTEM"; Boundary])
                        (seq [Boundary; Lit "USER"; Boundary]))
                   (seq [Boundary; Lit "DATABASE"; Boundary]) |};
    {| ignorecase := false;
       body := seq [Lit "'"; Star Dot; Lit "';"; Star Space; Lit "--"] |};
    {| ignorecase := false;
       body := seq [Boundary; alts ["CONCAT"; "CHAR"; "ASCII"]; Boundary;
                    Star Dot; Lit "("] |} ].

Record t := {
  block_suspicious : bool
}.

Definition _check_sql_injection (self : t) (text : string) : bool :=
  existsb (λ pattern, search pattern text) patterns.

(** The dict of request texts, in insertion order; the body is read for
    the three mutating methods, and skipped when it does not parse. *)
Definition _get_request_data (self : t) (request : Request.t)
    : list (string * string) :=
  [("query_params", urlencode (Request.query_params request));
   ("path_params", Request.path_params request)]
  ++ (if bool_decide (Request.method request ∈ ["POST"; "PUT"; "PATCH"])
      then match Request.json request with
           | Some body => [("body", body)]
           | None => []
           end
      else []).

(** The loop over the request texts.  The log record reads
    [request.client.host], which raises when the request has no client;
    its [suspicious_data], a dict of one item, is written [key: value]. *)
Fixpoint scan (self : t) (request : Request.t) (data : list (string * string))
    (call_next : CallNext) : M Response.t :=
  match data with
  | [] => call_next request
  | (key, value) :: rest =>
      if _check_sql_injection self value then
        match Request.client request with
        | None =>
            raise (AttributeError "'NoneType' object has no attribute 'host'")
        | Some (host, _) =>
            _ ← logger WARNING "Potential SQL injection detected"
                  [("client_ip", host);
                   ("path", Request.url_path request);
                   ("method", Request.method request);
                   ("suspicious_data", key +:+ ": " +:+ value)];
            if block_suspicious self
            then mret (Response.__init__ "Invalid request" 400 [])
            else scan self request rest call_next
        end
      else scan self request rest call_next
  end.

Definition dispatch (self : t) (request : Request.t) (call_next : CallNext)
    : M Response.t :=
  scan self request (_get_request_data self request) call_next.

End SQLInjectionMiddleware.

(** ** middlewares/exception.py: ExceptionHandlerMiddleware *)
Module ExceptionHandlerMiddleware.

Section handlers.
Context `{Settings} `{Libraries} `{Formatting} `{Json}.

(** [JSONResponse(status_code=..., content=error_response.model_dump())] *)
Definition json_response (status_code : Z) (content : ErrorResponse.t)
    : M Response.t := λ w,
  (Response.render_json status_code content, w).

(** [type(exc).__name__] *)
Definition type_name (exc : PyException) : string :=
  match exc with
  | AppException _ _ _ _ => "AppException"
  | HTTPException _ _ _ => "HTTPException"
  | PydanticValidationError _ => "ValidationError"
  | SQLAlchemyError _ => "SQLAlchemyError"
  | JWTError _ => "JWTError"
  | KeyError _ => "KeyError"
  | ValueError _ => "ValueError"
  | AttributeError _ => "AttributeError"
  | OtherException name _ => name
  end.

Definition _handle_app_exception (error_code : Z) (detail : string)
    (status_code : Z) (details : option Details) (request : Request.t)
    : M Response.t :=
  let error_response :=
    {| ErrorResponse.error_code := error_code;
       ErrorResponse.message := detail;
       ErrorResponse.details := details;
       ErrorResponse.trace_id := Request.state_request_id request |} in
  _ ← logger_format ERROR ("Application error: " +:+ detail)
        [("error_code", str (PInt error_code));
         ("path", Request.url_path request);
         ("method", Request.method request)] [];
  json_response status_code error_response.

Definition _handle_validation_error (errors : list (string * string))
    (request : Request.t) : M Response.t :=
  let error_response :=
    {| ErrorResponse.error_code := 4000;
       ErrorResponse.message := "Validation error";
       ErrorResponse.details := Some (DetailErrors errors);
       ErrorResponse.trace_id := Request.state_request_id request |} in
  _ ← logger WARNING "Validation error"
        [("path", Request.url_path request);
         ("method", Request.method request)];
  json_response 400 error_response.

Definition _handle_database_error (exc : PyException) (request : Request.t)
    : M Response.t :=
  let error_response :=
    {| ErrorResponse.error_code := 5000;
       ErrorResponse.message := "Database error occurred";
       ErrorResponse.details :=
         if DEBUG then Some (DetailText (exc_str exc)) else None;
       ErrorResponse.trace_id := Request.state_request_id request |} in
  _ ← logger_format ERROR ("Database error: " +:+ exc_str exc)
        [("path", Request.url_path request);
         ("method", Request.method request);
         ("error", exc_str exc)]
        [("exc_info", KwBool true)];
  json_response 500 error_response.

Definition _handle_unknown_error (exc : PyException) (request : Request.t)
    : M Response.t :=
  let error_response :=
    {| ErrorResponse.error_code := 5001;
       ErrorResponse.message := "Internal server error";
       ErrorResponse.details := None;
       ErrorResponse.trace_id := Request.state_request_id request |} in
  let error_response :=
    if DEBUG then
      {| ErrorResponse.error_code := ErrorResponse.error_code error_response;
         ErrorResponse.message := ErrorResponse.message error_response;
         ErrorResponse.details :=
           Some (DetailDebug (exc_str exc) (format_exception exc));
         ErrorResponse.trace_id := ErrorResponse.trace_id error_response |}
    else error_response in
  _ ← logger_format ERROR ("Unhandled error: " +:+ exc_str exc)
        [("path", Request.url_path request);
         ("method", Request.method request);
         ("error_type", type_name exc)]
        [("exc_info", KwBool true)];
  json_response 500 error_response.

(** [try: return await call_next(request)] with the four [except]
    clauses in the order of the source.  What a handler raises, in its
    log call or while the response is rendered, leaves [dispatch]: the
    [except] clauses guard the [try] body only. *)
Definition dispatch (request : Request.t) (call_next : CallNext)
    : M Response.t := λ w,
  match call_next request w with
  | (Ok response, w') => (Ok response, w')
  | (Raise e, w') =>
      match e with
      | AppException error_code detail status_code details =>
          _handle_app_exception error_code detail status_code details request w'
      | PydanticValidationError errors =>
          _handle_validation_error errors request w'
      | SQLAlchemyError _ => _handle_database_error e request w'
      | _ => _handle_unknown_error e request w'
      end
  end.

End handlers.

End ExceptionHandlerMiddleware.

(** ** python-jose: [jwt.encode] and [jwt.decode]

    The two calls as the repository makes them: HS256, default options, no
    audience, issuer, subject or access token passed to [decode].  Claim
    values are the scalars of [pyval]. *)
Module jwt.

Section jose.
Context `{Libraries}.

(** [jwt.encode(claims, key, algorithm=...)].  A datetime under [exp] is
    stored as its count of seconds, which is the integer the model holds
    already. *)
Definition encode (claims : gmap string pyval) (key : string)
    (algorithm : string) : JWT :=
  Compact algorithm (Object claims) (hmac_sha256 key algorithm (Object claims)).

(** [int(v)] of a claim value. *)
Definition to_int (v : pyval) : option Z :=
  match v with
  | PInt z => Some z
  | PStr s => py_int s
  end.

Definition _validate_iat (claims : gmap string pyval) : Result unit :=
  match claims !! "iat" with
  | None => Ok ()
  | Some v =>
      match to_int v with
      | Some _ => Ok ()
      | None => Raise (JWTError "Issued At claim (iat) must be an integer.")
      end
  end.

Definition _validate_nbf (claims : gmap string pyval) (now : Z) : Result unit :=
  match claims !! "nbf" with
  | None => Ok ()
  | Some v =>
      match to_int v with
      | Some nbf =>
          if decide (nbf > now)
          then Raise (JWTError "The token is not yet valid (nbf)")
          else Ok ()
      | None => Raise (JWTError "Not Before claim (nbf) must be an integer.")
      end
  end.

(** The token is refused when [exp] lies before the current second. *)
Definition _validate_exp (claims : gmap string pyval) (now : Z) : Result unit :=
  match claims !! "exp" with
  | None => Ok ()
  | Some v =>
      match to_int v with
      | Some exp =>
          if decide (exp < now)
          then Raise (JWTError "Signature has expired.")
          else Ok ()
      | None => Raise (JWTError "Expiration Time claim (exp) must be an integer.")
      end
  end.

(** No audience is passed, so a token that names one is refused. *)
Definition _validate_aud (claims : gmap string pyval) : Result unit :=
  match claims !! "aud" with
  | None => Ok ()
  | Some (PStr _) => Raise (JWTError "Invalid audience")
  | Some (PInt _) => Raise (JWTError "Invalid claim format in token")
  end.

Definition _validate_sub (claims : gmap string pyval) : Result unit :=
  match claims !! "sub" with
  | None => Ok ()
  | Some (PStr _) => Ok ()
  | Some (PInt _) => Raise (JWTError "Subject must be a string.")
  end.

Definition _validate_jti (claims : gmap string pyval) : Result unit :=
  match claims !! "jti" with
  | None => Ok ()
  | Some (PStr _) => Ok ()
  | Some (PInt _) => Raise (JWTError "JWT ID must be a string.")
  end.

(** No access token is passed, so an [at_hash] claim cannot be checked. *)
Definition _validate_at_hash (claims : gmap string pyval) : Result unit :=
  match claims !! "at_hash" with
  | None => Ok ()
  | Some _ =>
      Raise (JWTError "No access_token provided to compare against at_hash claim.")
  end.

Definition _validate_claims (claims : gmap string pyval) (now : Z) : Result unit :=
  _ ← _validate_iat claims;
  _ ← _validate_nbf claims now;
  _ ← _validate_exp claims now;
  _ ← _validate_aud claims;
  _ ← _validate_sub claims;
  _ ← _validate_jti claims;
  _validate_at_hash claims.

(** [jwt.decode(token, key, algorithms=[...])] at clock reading [now]:
    the header's algorithm must be an allowed one, the signature must be
    the one [key] gives, the payload must be a JSON object, and the
    registered claims must pass.  Every failure is a [JWTError]. *)
Definition decode (token : JWT) (key : string) (algorithms : list string)
    (now : Z) : Result (gmap string pyval) :=
  match token with
  | Malformed _ => Raise (JWTError "Error decoding token headers.")
  | Compact alg payload signature =>
      if negb (bool_decide (alg ∈ algorithms))
      then Raise (JWTError "The specified alg value is not allowed")
      else if negb (bool_decide (signature = hmac_sha256 key alg payload))
      then Raise (JWTError "Signature verification failed.")
      else
        match payload with
        | NotObject _ => Raise (JWTError "Invalid payload string")
        | Object claims =>
            _ ← _validate_claims claims now;
            Ok claims
        end
  end.

End jose.

End jwt.

(** ** schemas/token.py *)
Module Token.

Record t := {
  access_token : JWT;
  refresh_token : JWT;
  token_type : string;
  expires_in : Z
}.

(** The error entry pydantic records for a required field left out. *)
Definition missing {A} (field : string) (v : option A) : list (string * string) :=
  match v with
  | Some _ => []
  | None => [(field, "missing")]
  end.

(** [Token(...)] with the keyword arguments the caller passes ([None] for
    one it leaves out).  [access_token], [refresh_token] and [expires_in]
    are required; [token_type] defaults to [bearer]. *)
Definition __init__ (access_token refresh_token : option JWT)
    (token_type : option string) (expires_in : option Z) : Result t :=
  match access_token, refresh_token, expires_in with
  | Some a, Some r, Some e =>
      Ok {| access_token := a;
            refresh_token := r;
            token_type := default "bearer" token_type;
            expires_in := e |}
  | _, _, _ =>
      Raise (PydanticValidationError
               (missing "access_token" access_token
                ++ missing "refresh_token" refresh_token
                ++ missing "expires_in" expires_in))
  end.

End Token.

Module TokenPayload.

Section pydantic.
Context `{Libraries}.

Record t := {
  sub : pyval;
  exp : Z;
  iat : option Z;
  type : string;
  jti : option string
}.

(** A value read as a datetime: a number is a count of seconds, a string
    goes through pydantic's parser. *)
Definition to_datetime (v : pyval) : option Z :=
  match v with
  | PInt z => Some z
  | PStr s => parse_datetime s
  end.

Definition to_str (v : pyval) : option string :=
  match v with
  | PStr s => Some s
  | PInt _ => None
  end.

(** One field: the validated value, or the entry for the error list. *)
Definition required {A} (field : string) (conv : pyval → option A)
    (err : string) (v : option pyval) : A + list (string * string) :=
  match v with
  | None => inr [(field, "missing")]
  | Some x =>
      match conv x with
      | Some a => inl a
      | None => inr [(field, err)]
      end
  end.

Definition optional {A} (field : string) (conv : pyval → option A)
    (err : string) (dflt : A) (v : option pyval) : A + list (string * string) :=
  match v with
  | None => inl dflt
  | Some x =>
      match conv x with
      | Some a => inl a
      | None => inr [(field, err)]
      end
  end.

Definition errors_of {A} (r : A + list (string * string)) : list (string * string) :=
  match r with
  | inl _ => []
  | inr e => e
  end.

(** [TokenPayload] built from the payload's items as keyword
    arguments: [sub] and [exp] are required, [iat] and
    [jti] default to [None] and [type] to [access]; keys that are no
    field are ignored; the errors of all fields are reported together. *)
Definition __init__ (payload : gmap string pyval) : Result t :=
  let sub := required "sub" Some "union" (payload !! "sub") in
  let exp := required "exp" to_datetime "datetime_parsing" (payload !! "exp") in
  let iat :=
    optional "iat" (λ v, Some <$> to_datetime v) "datetime_parsing" None
      (payload !! "iat") in
  let type := optional "type" to_str "string_type" "access" (payload !! "type") in
  let jti :=
    optional "jti" (λ v, Some <$> to_str v) "string_type" None
      (payload !! "jti") in
  match sub, exp, iat, type, jti with
  | inl s, inl e, inl i, inl t, inl j =>
      Ok {| sub := s; exp := e; iat := i; type := t; jti := j |}
  | _, _, _, _, _ =>
      Raise (PydanticValidationError
               (errors_of sub ++ errors_of exp ++ errors_of iat
                ++ errors_of type ++ errors_of jti))
  end.

End pydantic.

End TokenPayload.

(** ** models/user.py and the database session *)
Module User.

Record t := {
  id : Z;
  email : string;
  username : string;
  hashed_password : string;
  is_active : bool;
  is_superuser : bool
}.

End User.

Module AsyncSession.

(** The two queries the modelled code sends: [db.get(User, pk)] and the
    select by e-mail address followed by [scalar_one_or_none()]. *)
Record t := {
  get : pyval → option User.t;
  scalar_by_email : string → option User.t
}.

End AsyncSession.

(** ** services/auth.py *)
Module AuthService.

Section service.
Context `{Settings} `{Libraries}.

Definition authenticate (email password : string) (db : AsyncSession.t)
    : option User.t :=
  match AsyncSession.scalar_by_email db email with
  | None => None
  | Some user =>
      if negb (pwd_verify password (User.hashed_password user)) then None
      else Some user
  end.

(** [timedelta(minutes=m)], in seconds. *)
Definition timedelta_minutes (m : Z) : Z := m * 60.

(** A timedelta is true unless it is zero. *)
Definition truthy (expires_delta : option Z) : bool :=
  match expires_delta with
  | Some d => negb (bool_decide (d = 0))
  | None => false
  end.

Definition create_access_token (subject : pyval) (expires_delta : option Z)
    (utcnow : Z) : JWT :=
  let expire :=
    if truthy expires_delta then utcnow + default 0 expires_delta
    else utcnow + timedelta_minutes ACCESS_TOKEN_EXPIRE_MINUTES in
  let to_encode : gmap string pyval :=
    <["sub" := PStr (str subject)]> (<["exp" := PInt expire]> ∅) in
  jwt.encode to_encode SECRET_KEY "HS256".

Definition create_refresh_token (subject : pyval) (expires_delta : option Z)
    (utcnow : Z) : JWT :=
  let expire :=
    if truthy expires_delta then utcnow + default 0 expires_delta
    else utcnow + timedelta_minutes REFRESH_TOKEN_EXPIRE_MINUTES in
  let to_encode : gmap string pyval :=
    <["sub" := PStr (str subject)]> (<["exp" := PInt expire]> ∅) in
  jwt.encode to_encode SECRET_KEY "HS256".

End service.

End AuthService.

(** ** api/deps.py *)
Module deps.

Section deps.
Context `{Settings} `{Libraries}.

Definition credentials_exception : PyException :=
  HTTPException 401 "Could not validate credentials"
    [("WWW-Authenticate", "Bearer")].

(** The body of the [try] block of [get_current_user]: the token is
    decoded and its payload validated against [TokenPayload]. *)
Definition token_data (token : JWT) (utcnow : Z) : Result TokenPayload.t :=
  payload ← jwt.decode token SECRET_KEY ["HS256"] utcnow;
  TokenPayload.__init__ payload.

(** Only a [JWTError] is caught and replaced; a validation error of
    [TokenPayload] passes through. *)
Definition get_current_user (token : JWT) (db : AsyncSession.t) (utcnow : Z)
    : Result User.t :=
  match token_data token utcnow with
  | Raise (JWTError _) => Raise credentials_exception
  | Raise e => Raise e
  | Ok data =>
      match AsyncSession.get db (TokenPayload.sub data) with
      | None => Raise credentials_exception
      | Some user => Ok user
      end
  end.

End deps.

End deps.

(** ** api/endpoints/user.py *)
Module endpoints.

Section endpoints.
Context `{Settings} `{Libraries}.

Record OAuth2PasswordRequestForm := {
  username : string;
  password : string
}.

Definition login (form_data : OAuth2PasswordRequestForm) (db : AsyncSession.t)
    (utcnow : Z) : Result Token.t :=
  match AuthService.authenticate (username form_data) (password form_data) db with
  | None =>
      Raise (HTTPException 401 "Incorrect email or password"
               [("WWW-Authenticate", "Bearer")])
  | Some user =>
      if negb (User.is_active user)
      then Raise (HTTPException 400 "Inactive user" [])
      else
        let access_token_expires :=
          AuthService.timedelta_minutes ACCESS_TOKEN_EXPIRE_MINUTES in
        let refresh_token_expires :=
          AuthService.timedelta_minutes REFRESH_TOKEN_EXPIRE_MINUTES in
        Token.__init__
          (Some (AuthService.create_access_token (PInt (User.id user))
                   (Some access_token_expires) utcnow))
          (Some (AuthService.create_refresh_token (PInt (User.id user))
                   (Some refresh_token_expires) utcnow))
          (Some "bearer")
          None
  end.

(** [payload["sub"]] followed by [int(...)]. *)
Definition user_id_of (payload : gmap string pyval) : Result Z :=
  match payload !! "sub" with
  | None => Raise (KeyError "sub")
  | Some v =>
      match jwt.to_int v with
      | Some n => Ok n
      | None => Raise (ValueError "invalid literal for int() with base 10")
      end
  end.

(** The body of the [try] block of [refresh_token]. *)
Definition refresh_token_body (refresh_token : JWT) (db : AsyncSession.t)
    (utcnow : Z) : Result Token.t :=
  payload ← jwt.decode refresh_token SECRET_KEY ["HS256"] utcnow;
  user_id ← user_id_of payload;
  match AsyncSession.get db (PInt user_id) with
  | None => Raise (HTTPException 401 "Invalid refresh token" [])
  | Some user =>
      if negb (User.is_active user)
      then Raise (HTTPException 401 "Invalid refresh token" [])
      else
        let access_token_expires :=
          AuthService.timedelta_minutes ACCESS_TOKEN_EXPIRE_MINUTES in
        let refresh_token_expires :=
          AuthService.timedelta_minutes REFRESH_TOKEN_EXPIRE_MINUTES in
        Token.__init__
          (Some (AuthService.create_access_token (PInt (User.id user))
                   (Some access_token_expires) utcnow))
          (Some (AuthService.create_refresh_token (PInt (User.id user))
                   (Some refresh_token_expires) utcnow))
          (Some "bearer")
          None
  end.

Definition refresh_token (refresh_token : JWT) (db : AsyncSession.t)
    (utcnow : Z) : Result Token.t :=
  match refresh_token_body refresh_token db utcnow with
  | Raise (JWTError _) => Raise (HTTPException 401 "Invalid refresh token" [])
  | r => r
  end.

End endpoints.

End endpoints.

(** ** exceptions/base.py: the subclasses of [AppException]

    Each constructor passes a fixed error code and status on to
    [AppException.__init__]; an argument left out is [None] and takes
    the default of the source. *)
Module exceptions.

Definition DatabaseError (message : option string) (details : option Details)
    : PyException :=
  AppException 5000 (default "数据库操作失败" message) 500 details.

Definition ValidationError (message : option string) (details : option Details)
    : PyException :=
  AppException 4000 (default "数据验证失败" message) 400 details.

Definition AuthenticationError (message : option string) (details : option Details)
    : PyException :=
  AppException 4001 (default "身份验证失败" message) 401 details.

Definition AuthorizationError (message : option string) (details : option Details)
    : PyException :=
  AppException 4003 (default "权限不足" message) 403 details.

Definition NotFoundError (message : option string) (details : option Details)
    : PyException :=
  AppException 4004 (default "未找到请求的资源" message) 404 details.

Definition BusinessError (message : string) (error_code : option Z)
    (details : option Details) : PyException :=
  AppException (default 4100 error_code) message 400 details.

End exceptions.

(** ** middlewares/exception.py: ErrorLoggingMiddleware

    The stage keeps two counters on itself; every method that changes
    them returns the stage as it is afterwards.  The [error_info] of an
    alert is a dict, which the log record of the model leaves out. *)
Module ErrorLoggingMiddleware.

Record t := {
  alert_threshold : Z;
  alert_interval : Z;
  error_count : Z;
  last_alert_time : Z
}.

Definition __init__ (alert_threshold alert_interval : Z) : t :=
  {| alert_threshold := alert_threshold;
     alert_interval := alert_interval;
     error_count := 0;
     last_alert_time := 0 |}.

Definition _should_send_alert (self : t) (current_time : Z) : bool * t :=
  if bool_decide (error_count self >= alert_threshold self)
     && bool_decide (current_time - last_alert_time self > alert_interval self)
  then (true,
        {| alert_threshold := alert_threshold self;
           alert_interval := alert_interval self;
           error_count := 0;
           last_alert_time := current_time |})
  else (false, self).

Definition _send_alert (self : t) : M unit :=
  logger CRITICAL "Error alert triggered"
    [("error_count", str (PInt (error_count self)));
     ("threshold", str (PInt (alert_threshold self)))].

(** [dispatch]: the outcome of [call_next] is handed on as it is, a
    response or the error raised again; an error is counted first. *)
Definition dispatch (self : t) (request : Request.t) (current_time : Z)
    (call_next : CallNext) (w : World) : Result Response.t * t * World :=
  match call_next request w with
  | (Ok response, w') => (Ok response, self, w')
  | (Raise e, w') =>
      let self :=
        {| alert_threshold := alert_threshold self;
           alert_interval := alert_interval self;
           error_count := error_count self + 1;
           last_alert_time := last_alert_time self |} in
      let '(send, self) := _should_send_alert self current_time in
      if send then (Raise e, self, (_send_alert self w').2)
      else (Raise e, self, w')
  end.

End ErrorLoggingMiddleware.

(** ** Floating-point clock readings

    [time.time()] is a float, and the stages that time a request only
    subtract two readings, compare the difference with a threshold and
    write it out.  The arithmetic and the formatting are those of the
    Python runtime; they are parameters of the development.
    - [float_sub a b]: [a - b];
    - [float_gt a b]: [a > b];
    - [float_str x]: [str(x)];
    - [float_format3 x]: the format [.3f] of [x]. *)
Class Floats := {
  float : Type;
  float_sub : float → float → float;
  float_gt : float → float → bool;
  float_str : float → string;
  float_format3 : float → string
}.

(** ** The headers of a request ([starlette.datastructures.Headers])

    The raw list of the connection scope, names as the server delivers
    them. *)
Module Headers.

Abbreviation t := (list (string * string)).

(** [headers.get(key)]: the value of the first entry whose name is the
    key in lower case. *)
Definition get (headers : t) (key : string) : option string :=
  match list_find (λ kv : string * string, kv.1 = lower key) headers with
  | Some (_, kv) => Some kv.2
  | None => None
  end.

End Headers.

(** [request.state.request_id = request_id] *)
Definition set_request_id (request : Request.t) (request_id : string)
    : Request.t :=
  {| Request.method := Request.method request;
     Request.url_path := Request.url_path request;
     Request.client := Request.client request;
     Request.query_params := Request.query_params request;
     Request.path_params := Request.path_params request;
     Request.json := Request.json request;
     Request.state_request_id := Some request_id |}.

(** ** middlewares/response.py: ResponseMiddleware *)
Module ResponseMiddleware.

Section stage.
Context `{Libraries} `{Floats} `{Formatting}.

Record t := {
  request_id_header : string;
  process_time_header : string
}.

(** [__init__]: a header name that is left out takes its default. *)
Definition __init__ (request_id_header process_time_header : option string) : t :=
  {| request_id_header := default "X-Request-ID" request_id_header;
     process_time_header := default "X-Process-Time" process_time_header |}.

(** [dispatch]: [request_id] is the [str(uuid.uuid4())] drawn for the
    request, [start_time] and [end_time] the readings of the clock before
    and after [call_next].  In the [except] clause the bare [raise]
    comes after the log call, so an error of the log call takes the
    place of the one caught. *)
Definition dispatch (self : t) (request : Request.t) (request_id : string)
    (start_time end_time : float) (call_next : CallNext) : M Response.t := λ w,
  let request := set_request_id request request_id in
  match call_next request w with
  | (Ok response, w') =>
      let response :=
        Response.headers_setitem (request_id_header self) request_id response in
      let process_time := float_sub end_time start_time in
      let response :=
        Response.headers_setitem (process_time_header self)
          (float_str process_time) response in
      (_ ← logger INFO "Request processed"
             [("request_id", request_id);
              ("method", Request.method request);
              ("path", Request.url_path request);
              ("process_time", float_str process_time);
              ("status_code", str (PInt (Response.status_code response)))];
       mret response) w'
  | (Raise e, w') =>
      (_ ← logger_format ERROR ("Request failed: " +:+ exc_str e)
             [("request_id", request_id);
              ("method", Request.method request);
              ("path", Request.url_path request);
              ("error", exc_str e)] [];
       raise e) w'
  end.

End stage.

End ResponseMiddleware.

(** ** middlewares/response.py: RequestValidationMiddleware *)
Module RequestValidationMiddleware.

Section stage.
Context `{Libraries}.

Record t := {
  max_content_length : Z;
  allowed_content_types : gset string
}.

(** [__init__]: an absent or empty set of content types becomes the
    three default ones. *)
Definition __init__ (max_content_length : Z)
    (allowed_content_types : option (gset string)) : t :=
  {| max_content_length := max_content_length;
     allowed_content_types :=
       match allowed_content_types with
       | Some s =>
           if decide (s = ∅)
           then {["application/json"; "application/x-www-form-urlencoded";
                  "multipart/form-data"]}
           else s
       | None =>
           {["application/json"; "application/x-www-form-urlencoded";
             "multipart/form-data"]}
       end |}.

(** [s.split(";")[0]]: the text before the first semicolon, all of it
    when there is none. *)
Fixpoint before_semicolon (s : string) : string :=
  match s with
  | EmptyString => EmptyString
  | String a s' =>
      if decide (a = ";"%char) then EmptyString
      else String a (before_semicolon s')
  end.

(** [dispatch]; [headers] is [request.headers].  A length that is no
    number makes [int] raise. *)
Definition dispatch (self : t) (request : Request.t) (headers : Headers.t)
    (call_next : CallNext) : M Response.t :=
  let content_type :=
    before_semicolon (default "" (Headers.get headers "content-type")) in
  if negb (bool_decide (content_type = ""))
     && negb (bool_decide (content_type ∈ allowed_content_types self))
  then mret (Response.__init__ "Unsupported Media Type" 415 [])
  else
    match Headers.get headers "content-length" with
    | None => call_next request
    | Some content_length =>
        if bool_decide (content_length = "") then call_next request
        else
          match py_int content_length with
          | None =>
              raise (ValueError "invalid literal for int() with base 10")
          | Some n =>
              if bool_decide (n > max_content_length self)
              then mret (Response.__init__ "Request Entity Too Large" 413 [])
              else call_next request
          end
    end.

End stage.

End RequestValidationMiddleware.

(** ** middlewares/logging.py: RequestLoggingMiddleware

    Of the [extra] of a record the model keeps the fields with a string
    or a number; [None] is written as [str] writes it.  The headers and
    the body of a request, which are dicts, are not in the record. *)
Module RequestLoggingMiddleware.

Section stage.
Context `{Settings} `{Libraries} `{Floats} `{Formatting}.

Record t := {
  exclude_paths : gset string;
  sensitive_headers : gset string;
  log_request_body : bool
}.

(** [__init__]: an absent or empty set becomes the default one. *)
Definition __init__ (exclude_paths sensitive_headers : option (gset string))
    (log_request_body : bool) : t :=
  {| exclude_paths :=
       match exclude_paths with
       | Some s => if decide (s = ∅) then {["/health"; "/metrics"]} else s
       | None => {["/health"; "/metrics"]}
       end;
     sensitive_headers :=
       match sensitive_headers with
       | Some s => if decide (s = ∅) then {["authorization"; "cookie"]} else s
       | None => {["authorization"; "cookie"]}
       end;
     log_request_body := log_request_body |}.

(** The dict comprehension over [headers.items()]. *)
Definition _mask_sensitive_headers (self : t) (headers : gmap string string)
    : gmap string string :=
  map_imap
    (λ k v, Some (if decide (lower k ∈ sensitive_headers self) then "***" else v))
    headers.

Definition log_request (self : t) (request : Request.t) (request_id : string)
    : M unit :=
  logger_format INFO
    ("Request received: " +:+ Request.method request +:+ " "
     +:+ Request.url_path request)
    [("request_id", request_id);
     ("method", Request.method request);
     ("path", Request.url_path request);
     ("query_params", urlencode (Request.query_params request));
     ("client_host",
      match Request.client request with
      | Some (host, _) => host
      | None => "None"
      end)] [].

Definition log_response (self : t) (response : Response.t)
    (request_id : string) (duration : float) : M unit :=
  logger INFO "Request completed"
    [("request_id", request_id);
     ("status_code", str (PInt (Response.status_code response)));
     ("duration", float_format3 duration +:+ "s")].

(** [dispatch]; [start_time] and [end_time] are the readings of the
    clock before and after [call_next].  A request id that is missing or
    the empty string skips the logging.  [log_request] runs outside the
    [try], so what it raises leaves [dispatch] before [call_next] is
    reached; in the [except] clause an error of the log call takes the
    place of the one caught. *)
Definition dispatch (self : t) (request : Request.t)
    (start_time end_time : float) (call_next : CallNext) : M Response.t :=
  if decide (Request.url_path request ∈ exclude_paths self)
  then call_next request
  else
    match Request.state_request_id request with
    | None => call_next request
    | Some request_id =>
        if bool_decide (request_id = "") then call_next request
        else
          _ ← log_request self request request_id;
          (λ w,
            match call_next request w with
            | (Ok response, w') =>
                let duration := float_sub end_time start_time in
                (_ ← log_response self response request_id duration;
                 mret (Response.headers_setitem "X-Process-Time"
                         (float_format3 duration +:+ "s") response)) w'
            | (Raise e, w') =>
                let duration := float_sub end_time start_time in
                (_ ← logger_format ERROR ("Request failed: " +:+ exc_str e)
                       [("request_id", request_id);
                        ("error", exc_str e);
                        ("duration", float_format3 duration +:+ "s")]
                       [("exc_info", KwBool DEBUG)];
                 raise e) w'
            end) : M Response.t
    end.

End stage.

End RequestLoggingMiddleware.

(** ** middlewares/logging.py: PerformanceLoggingMiddleware *)
Module PerformanceLoggingMiddleware.

Section stage.
Context `{Settings} `{Floats}.

Record t := {
  slow_request_threshold : float;
  exclude_paths : gset string
}.

Definition __init__ (slow_request_threshold : float)
    (exclude_paths : option (gset string)) : t :=
  {| slow_request_threshold := slow_request_threshold;
     exclude_paths :=
       match exclude_paths with
       | Some s => if decide (s = ∅) then {["/health"; "/metrics"]} else s
       | None => {["/health"; "/metrics"]}
       end |}.

(** [dispatch]: an error of [call_next] passes through before anything
    is measured. *)
Definition dispatch (self : t) (request : Request.t)
    (start_time end_time : float) (call_next : CallNext) : M Response.t :=
  if decide (Request.url_path request ∈ exclude_paths self)
  then call_next request
  else
    response ← call_next request;
    let duration := float_sub end_time start_time in
    _ ← (if float_gt duration (slow_request_threshold self)
         then logger WARNING "Slow request detected"
                [("method", Request.method request);
                 ("path", Request.url_path request);
                 ("duration", float_format3 duration +:+ "s");
                 ("threshold",
                  float_format3 (slow_request_threshold self) +:+ "s")]
         else mret ());
    _ ← (if DEBUG
         then logger DEBUG_ "Request performance metrics"
                [("method", Request.method request);
                 ("path", Request.url_path request);
                 ("duration", float_format3 duration +:+ "s");
                 ("status_code", str (PInt (Response.status_code response)))]
         else mret ());
    mret response.

End stage.

End PerformanceLoggingMiddleware.

(** ** utils/security.py *)
Module security.

Section utils.
Context `{Libraries}.

Definition verify_password (plain_password hashed_password : string) : bool :=
  pwd_verify plain_password hashed_password.

(** [create_token]: a subject that is no string is replaced by its
    [str]; the lifetime is added to the clock as it is; [algorithm] is
    [None] when the caller leaves it out.  ([jwt.encode] is modelled for
    the HMAC algorithms.) *)
Definition create_token (subject : pyval) (expires_delta : Z)
    (secret_key : string) (algorithm : option string) (utcnow : Z) : JWT :=
  let subject :=
    match subject with
    | PStr s => s
    | PInt _ => str subject
    end in
  let expire := utcnow + expires_delta in
  let to_encode : gmap string pyval :=
    <["sub" := PStr subject]> (<["exp" := PInt expire]> ∅) in
  jwt.encode to_encode secret_key (default "HS256" algorithm).

End utils.

End security.

(** ** core/config.py: the validator of [BACKEND_CORS_ORIGINS] *)
Module config.

(** [s.split(",")]: the pieces between the commas; a text without a
    comma is one piece, the empty text included. *)
Fixpoint split_comma (s : string) : list string :=
  match s with
  | EmptyString => [EmptyString]
  | String a s' =>
      if decide (a = ","%char) then EmptyString :: split_comma s'
      else
        match split_comma s' with
        | piece :: pieces => String a piece :: pieces
        | [] => [String a EmptyString]
        end
  end.

(** [s.lstrip()], [s.rstrip()] and [s.strip()]: white space as
    [str.isspace] has it on ASCII text. *)
Fixpoint lstrip (s : string) : string :=
  match s with
  | EmptyString => EmptyString
  | String a s' => if re.is_space a then lstrip s' else s
  end.

Fixpoint rstrip (s : string) : string :=
  match s with
  | EmptyString => EmptyString
  | String a s' =>
      match rstrip s' with
      | EmptyString => if re.is_space a then EmptyString else String a EmptyString
      | rest => String a rest
      end
  end.

Definition strip (s : string) : string := rstrip (lstrip s).

Definition startswith_bracket (s : string) : bool :=
  match s with
  | String a _ => bool_decide (a = "["%char)
  | EmptyString => false
  end.

(** The value the validator is given, from the environment or from a
    caller: a string, a list of strings, or something else. *)
Inductive cors_value :=
| CorsStr (s : string)
| CorsList (l : list string)
| CorsOther.

(** [Settings.assemble_cors_origins] *)
Definition assemble_cors_origins (v : cors_value) : Result cors_value :=
  match v with
  | CorsStr s =>
      if negb (startswith_bracket s)
      then Ok (CorsList (strip <$> split_comma s))
      else Ok v
  | CorsList _ => Ok v
  | CorsOther => Raise (ValueError "BACKEND_CORS_ORIGINS")
  end.

End config.

(** * Vocabulary of the properties *)

(** ** Security headers *)

(** Setting a list of headers one after the other. *)
Definition set_all (kvs : list (string * string))
    (l : list (string * string)) : list (string * string) :=
  foldl (λ acc kv, Response.setitem_raw kv.1 kv.2 acc) l kvs.

(** The seven assignments of the stage, keys as [__setitem__] stores them. *)
Definition security_headers : list (string * string) :=
  [ (lower "X-Content-Type-Options", "nosniff");
    (lower "X-Frame-Options", "DENY");
    (lower "X-XSS-Protection", "1; mode=block");
    (lower "Strict-Transport-Security", "max-age=31536000; includeSubDomains");
    (lower "Content-Security-Policy", "default-src 'self'");
    (lower "Referrer-Policy", "strict-origin-when-cross-origin");
    (lower "Permissions-Policy", "geolocation=(), microphone=()") ].

(** What the stage does to the response it gets from [call_next]. *)
Definition stamp (r : Response.t) : Response.t :=
  {| Response.status_code := Response.status_code r;
     Response.body := Response.body r;
     Response.raw_headers := set_all security_headers (Response.raw_headers r) |}.

(** ** Rate limiter *)

(** Successive checks of one key, one at each of the clock readings. *)
Fixpoint check_all (self : RateLimitingMiddleware.t) (key : string) (limit : Z)
    (times : list Z) : M (list (bool * Z)) :=
  match times with
  | [] => mret []
  | t :: times' =>
      r ← RateLimitingMiddleware._check_rate_limit self key limit t;
      rs ← check_all self key limit times';
      mret (r :: rs)
  end.

(** How many of the calls at [times] were permitted and fall in the
    trailing slice of [window] seconds that ends at [t], the seconds
    [t - window + 1] to [t]. *)
Definition permitted_in_slice (window t : Z) (times : list Z)
    (results : list (bool * Z)) : nat :=
  length
    (filter (λ c : Z * (bool * Z), c.2.1 = true ∧ t - window < c.1 ≤ t)
       (zip times results)).

(** The count each call of [times] sees when the calls at [prev] went
    before: itself and the earlier calls less than a window old. *)
Fixpoint counts_from (window : Z) (prev times : list Z) : list Z :=
  match times with
  | [] => []
  | t :: times' =>
      (Z.of_nat (length (filter (λ x, t - window < x) prev)) + 1)
      :: counts_from window (prev ++ [t]) times'
  end.

Definition verdicts (limit : Z) (counts : list Z) : list (bool * Z) :=
  (λ c, (bool_decide (c ≤ limit), c)) <$> counts.

(** [E] and [prev] have the same entries above every bound from [lo] on:
    the store [E] has forgotten of the calls [prev] only what no later
    check can count. *)
Definition tracks (prev E : list Z) (lo : Z) : Prop :=
  ∀ ws, lo ≤ ws → filter (λ x, ws < x) E = filter (λ x, ws < x) prev.

(** Each reading stands in the relation [ok] to the one before it, the
    first to [tl]. *)
Fixpoint chain (ok : Z → Z → Prop) (tl : Z) (times : list Z) : Prop :=
  match times with
  | [] => True
  | t :: times' => ok tl t ∧ chain ok t times'
  end.

(** The sorted-set entry the middleware writes for a timestamp. *)
Definition zentry (t : Z) : string * Z := (str (PInt t), t).

(** The list the in-memory table holds for [key]. *)
Definition mem_entries (key : string) (w : World) : list Z :=
  default [] (default ∅ (_requests w) !! key).

(** The members a command at [now] finds under [key]. *)
Definition live_members (now : Z) (db : Redis.keyspace) (key : string)
    : gmap string Z :=
  match Redis.live now db key with
  | Some k => members k
  | None => ∅
  end.

(** The key has not reached its expiry time. *)
Definition alive (now : Z) (k : RedisKey) : Prop :=
  match expire_at k with
  | Some d => ¬ d ≤ now
  | None => True
  end.

(** The Redis store after the calls [prev], the last at [tl]: the key is
    absent, or holds the sorted set of a list [E] that tracks [prev], with
    the time to live the last call set. *)
Definition redis_tracks (self : RateLimitingMiddleware.t) (key : string)
    (prev : list Z) (w : World) (tl : Z) : Prop :=
  Forall (λ x, x ≤ tl) prev
  ∧ ∃ E,
      tracks prev E (tl - RateLimitingMiddleware.window_size self)
      ∧ NoDup E
      ∧ Forall (λ x, 0 ≤ x ≤ tl) E
      ∧ (redis_keys w !! key = None ∧ E = []
         ∨ redis_keys w !! key
           = Some {| members := list_to_map (zentry <$> E);
                     expire_at :=
                       Some (tl + RateLimitingMiddleware.window_size self) |}).



(** The key [RateLimitingMiddleware.dispatch] checks for a request. *)
Definition rate_limit_key (request : Request.t) : string :=
  "rate_limit:"
  +:+ match Request.client request with
      | Some (host, _) => host
      | None => "unknown"
      end
  +:+ ":" +:+ Request.url_path request.

(** ** Injection screen *)

(** [needle] occurs in [text]. *)
Definition contains (needle text : string) : Prop :=
  ∃ pre post, text = pre +:+ needle +:+ post.

(** The tautology probe of the scenario, as it stands in a parameter
    value. *)
Definition probe : string := "' OR 1=1 --".

(** ** Error translation *)

(** An error that none of the first three [except] clauses of
    [ExceptionHandlerMiddleware.dispatch] takes. *)
Definition unhandled (e : PyException) : Prop :=
  match e with
  | AppException _ _ _ _ | PydanticValidationError _ | SQLAlchemyError _ => False
  | _ => True
  end.

(** ** Tokens *)
Section token_vocabulary.
Context `{Settings} `{Libraries}.

(** The token is a compact JWS for HS256 whose signature is the one the
    configured secret gives. *)
Definition signature_valid (token : JWT) : bool :=
  match token with
  | Compact alg payload signature =>
      bool_decide (alg = "HS256")
      && bool_decide (signature = hmac_sha256 SECRET_KEY alg payload)
  | Malformed _ => false
  end.

Definition is_string (v : pyval) : bool :=
  match v with
  | PStr _ => true
  | PInt _ => false
  end.

(** A value that reads both as an integer and as a datetime. *)
Definition is_timestamp (v : pyval) : bool :=
  match jwt.to_int v, TokenPayload.to_datetime v with
  | Some _, Some _ => true
  | _, _ => false
  end.

Definition absent_or (P : pyval → bool) (o : option pyval) : bool :=
  match o with
  | None => true
  | Some v => P v
  end.

(** The claims have the shape of [TokenPayload]: a string subject, an
    expiry timestamp, and, where present, an issue timestamp, a string
    type and a string token id. *)
Definition claims_wellformed (claims : gmap string pyval) : bool :=
  from_option is_string false (claims !! "sub")
  && from_option is_timestamp false (claims !! "exp")
  && absent_or is_timestamp (claims !! "iat")
  && absent_or is_string (claims !! "type")
  && absent_or is_string (claims !! "jti").

Definition payload_wellformed (token : JWT) : bool :=
  match token with
  | Compact _ (Object claims) _ => claims_wellformed claims
  | _ => false
  end.

(** The [exp] claim of a token, as an integer. *)
Definition expires_at (token : JWT) : option Z :=
  match token with
  | Compact _ (Object claims) _ => claims !! "exp" ≫= jwt.to_int
  | _ => None
  end.

(** The current second lies after the token's [exp]. *)
Definition expired (now : Z) (token : JWT) : bool :=
  match expires_at token with
  | Some e => bool_decide (e < now)
  | None => false
  end.

(** The claims [create_access_token] and [create_refresh_token] encode. *)
Definition issued_claims (subject : pyval) (expire : Z) : gmap string pyval :=
  <["sub" := PStr (str subject)]> (<["exp" := PInt expire]> ∅).

(** The token carries no claim besides the fields of [TokenPayload]. *)
Definition schema_claims (token : JWT) : Prop :=
  match token with
  | Compact _ (Object claims) _ =>
      dom claims ⊆ {["sub"; "exp"; "iat"; "type"; "jti"]}
  | _ => True
  end.

End token_vocabulary.

(** ** A concrete configuration, for the examples

    Any choice of the library functions will do; these are small enough
    to evaluate. *)
Definition demo_settings : Settings := default_settings "s3cret".

Definition demo_libraries : Libraries :=
  {| hmac_sha256 := λ key alg _, key +:+ "/" +:+ alg;
     py_int := λ s, if decide (s = "7") then Some 7 else None;
     parse_datetime := λ _, None;
     pwd_verify := λ plain hashed, bool_decide (hashed = "hash:" +:+ plain);
     exc_str := λ _, "error";
     format_exception := λ _, [] |}.

Definition demo_user : User.t :=
  {| User.id := 7;
     User.email := "ann@example.com";
     User.username := "ann";
     User.hashed_password := "hash:pw";
     User.is_active := true;
     User.is_superuser := false |}.

Definition demo_db : AsyncSession.t :=
  {| AsyncSession.get := λ pk,
       if decide (pk = PInt 7 ∨ pk = PStr "7") then Some demo_user else None;
     AsyncSession.scalar_by_email := λ email,
       if decide (email = "ann@example.com") then Some demo_user else None |}.

Definition demo_request (client : option (string * Z)) : Request.t :=
  {| Request.method := "GET";
     Request.url_path := "/api/users/me";
     Request.client := client;
     Request.query_params := [("q", probe)];
     Request.path_params := "{}";
     Request.json := None;
     Request.state_request_id := Some "req-1" |}.

(** A handler that answers 200. *)
Definition ok_handler : CallNext := λ _, mret (Response.__init__ "ok" 200 []).

(** A limiter of one request per minute. *)
Definition demo_limiter (redis : option Redis.client) : RateLimitingMiddleware.t :=
  RateLimitingMiddleware.__init__ redis 1 None 60 None.

(** The answer to the second of two requests that one client sends to
    one path within the second 100. *)
Definition second_response (redis : option Redis.client) : Result Response.t :=
  let request := demo_request (Some ("203.0.113.9", 40000)) in
  let limiter := demo_limiter redis in
  (RateLimitingMiddleware.dispatch limiter request 100 ok_handler
     (RateLimitingMiddleware.dispatch limiter request 100 ok_handler
        initial_world).2).1.

(** ** Further vocabulary *)

(** The value of the first entry of a raw header list with the name [k]. *)
Definition raw_get (k : string) (l : list (string * string)) : option string :=
  match list_find (λ kv : string * string, kv.1 = k) l with
  | Some (_, kv) => Some kv.2
  | None => None
  end.

(** How many entries of a raw header list carry the name [k]. *)
Definition header_count (k : string) (l : list (string * string)) : nat :=
  length (filter (λ kv : string * string, kv.1 = k) l).

(** The entries of a raw header list whose name is none of [names]. *)
Definition other_headers (names : list string) (l : list (string * string))
    : list (string * string) :=
  filter (λ kv : string * string, kv.1 ∉ names) l.

(** ** Injection screen: texts over an alphabet *)

(** Every character of [s] satisfies [P]. *)
Fixpoint all_chars (P : ascii → bool) (s : string) : bool :=
  match s with
  | EmptyString => true
  | String a s' => P a && all_chars P s'
  end.

(** The characters [urlencode] writes: the unreserved ones (which include
    the hexadecimal digits), the plus sign for a space, the percent sign
    of an escape, and the two separators. *)
Definition query_char (a : ascii) : bool :=
  unreserved a
  || bool_decide (a = "+"%char ∨ a = "%"%char ∨ a = "="%char ∨ a = "&"%char).

(** Some character of the alphabet [ok] can stand for the pattern
    character [c]. *)
Definition char_possible (ok : ascii → bool) (ic : bool) (c : ascii) : bool :=
  existsb (λ n, ok (ascii_of_nat n) && re.same_char ic c (ascii_of_nat n))
    (List.seq 0 256).

Fixpoint lit_possible (ok : ascii → bool) (ic : bool) (lit : string) : bool :=
  match lit with
  | EmptyString => true
  | String c lit' => char_possible ok ic c && lit_possible ok ic lit'
  end.

Definition cls_possible (ok : ascii → bool) (c : re.cls) : bool :=
  existsb (λ n, ok (ascii_of_nat n) && re.in_cls c (ascii_of_nat n))
    (List.seq 0 256).

(** A necessary condition for the expression to match a text over the
    alphabet [ok]: every literal and every non-empty repetition on some
    path through it can be read with characters of the alphabet. *)
Fixpoint possible (ok : ascii → bool) (ic : bool) (r : re.regex) : bool :=
  match r with
  | re.Lit lit => lit_possible ok ic lit
  | re.Alt r1 r2 => possible ok ic r1 || possible ok ic r2
  | re.Seq r1 r2 => possible ok ic r1 && possible ok ic r2
  | re.Star _ => true
  | re.Plus c => cls_possible ok c
  | re.Boundary => true
  end.

(** The words the two keyword patterns look for, as a query string
    carries them in lower case. *)
Definition sql_words : list string :=
  ["exec"; "like"; "system"; "user"; "database"].

(** The texts of a request that the screen flags. *)
Definition flagged_fields (self : SQLInjectionMiddleware.t)
    (request : Request.t) : list (string * string) :=
  filter (λ kv : string * string,
            SQLInjectionMiddleware._check_sql_injection self kv.2 = true)
    (SQLInjectionMiddleware._get_request_data self request).

(** ** Rate limiter: several keys *)

(** Checks for several keys one after the other, one for each pair of a
    key and a clock reading, all with the same limit. *)
Fixpoint check_events (self : RateLimitingMiddleware.t) (limit : Z)
    (events : list (string * Z)) : M (list (bool * Z)) :=
  match events with
  | [] => mret []
  | (key, t) :: events' =>
      r ← RateLimitingMiddleware._check_rate_limit self key limit t;
      rs ← check_events self limit events';
      mret (r :: rs)
  end.

(** The clock readings of the events for [key], in order. *)
Definition times_of (key : string) (events : list (string * Z)) : list Z :=
  (filter (λ e : string * Z, e.1 = key) events).*2.

(** The results that belong to the events for [key], in order. *)
Definition results_of {A} (key : string) (events : list (string * Z))
    (results : list A) : list A :=
  (filter (λ er : (string * Z) * A, er.1.1 = key) (zip events results)).*2.

(** Two worlds hold the same record for [key], in either store. *)
Definition agree (key : string) (w1 w2 : World) : Prop :=
  mem_entries key w1 = mem_entries key w2
  ∧ redis_keys w1 !! key = redis_keys w2 !! key.

(** ** Error translation *)

(** The world [w] with one more record at the end of the log. *)
Definition logged (w : World) (record : LogRecord) : World :=
  {| _requests := _requests w;
     redis_keys := redis_keys w;
     log := log w ++ [record] |}.

(** The status, error code and message of an application error. *)
Definition app_error (e : PyException) (status code : Z) (msg : string) : Prop :=
  ∃ details, e = AppException code msg status details.

(** ** Error alerts *)

(** What one failed request does to the counters of the stage at the
    clock reading [current_time]: the error is counted, then the alert is
    decided.  The flag tells whether an alert is sent. *)
Definition on_error (self : ErrorLoggingMiddleware.t) (current_time : Z)
    : bool * ErrorLoggingMiddleware.t :=
  ErrorLoggingMiddleware._should_send_alert
    {| ErrorLoggingMiddleware.alert_threshold :=
         ErrorLoggingMiddleware.alert_threshold self;
       ErrorLoggingMiddleware.alert_interval :=
         ErrorLoggingMiddleware.alert_interval self;
       ErrorLoggingMiddleware.error_count :=
         ErrorLoggingMiddleware.error_count self + 1;
       ErrorLoggingMiddleware.last_alert_time :=
         ErrorLoggingMiddleware.last_alert_time self |}
    current_time.

(** Failed requests one after the other, at the given clock readings. *)
Fixpoint on_errors (self : ErrorLoggingMiddleware.t) (times : list Z)
    : list bool * ErrorLoggingMiddleware.t :=
  match times with
  | [] => ([], self)
  | t :: times' =>
      let '(flag, self1) := on_error self t in
      let '(flags, self2) := on_errors self1 times' in
      (flag :: flags, self2)
  end.

(** The clock readings at which an alert was sent. *)
Definition alert_times (times : list Z) (flags : list bool) : list Z :=
  (filter (λ tf : Z * bool, tf.2 = true) (zip times flags)).*1.

(** ** Logging stages *)

(** The world [w] with the records [records] at the end of the log. *)
Definition logged_all (w : World) (records : list LogRecord) : World :=
  {| _requests := _requests w;
     redis_keys := redis_keys w;
     log := log w ++ records |}.

(** ** Settings *)

(** The items written one after the other with [sep] between them. *)
Fixpoint join (sep : string) (items : list string) : string :=
  match items with
  | [] => ""
  | [x] => x
  | x :: rest => x +:+ sep +:+ join sep rest
  end.

(** An origin as it stands in a list: no comma in it and no white space
    at either end. *)
Definition plain_item (x : string) : Prop :=
  ¬ contains "," x ∧ config.strip x = x.

(** ** Further concrete inputs, for the examples *)

(** Clock readings in whole milliseconds stand in for the floats. *)
Definition demo_floats : Floats :=
  {| float := Z;
     float_sub := Z.sub;
     float_gt := Z.gtb;
     float_str := pretty;
     float_format3 := pretty |}.

(** A harmless look-up that has a parameter called [user]. *)
Definition demo_lookup : Request.t :=
  {| Request.method := "GET";
     Request.url_path := "/api/items";
     Request.client := Some ("203.0.113.9", 40000);
     Request.query_params := [("page", "2"); ("user", "alice")];
     Request.path_params := "{}";
     Request.json := None;
     Request.state_request_id := None |}.

(** A handler that fails. *)
Definition failing_handler (e : PyException) : CallNext := λ _, raise e.

Definition demo_response_stage : ResponseMiddleware.t :=
  ResponseMiddleware.__init__ None None.

(** ** Rate limiter: the bucket of a request *)

(** The host the limiter files a request under. *)
Definition client_ip (request : Request.t) : string :=
  match Request.client request with
  | Some (host, _) => host
  | None => "unknown"
  end.

(** The first character of [s] is [c]. *)
Definition starts_with (c : ascii) (s : string) : Prop :=
  ∃ rest, s = String c rest.

(** ** Log messages *)

(** No brace in [s]: [str.format] takes all of it as literal text. *)
Definition brace_free (s : string) : bool :=
  all_chars (λ a, negb (bool_decide (a = "{"%char ∨ a = "}"%char))) s.

(** A letter, a digit or the underscore. *)
Definition name_char (a : ascii) : bool :=
  let n := Z.of_nat (nat_of_ascii a) in
  bool_decide (97 ≤ n ≤ 122 ∨ 65 ≤ n ≤ 90 ∨ n = 95 ∨ 48 ≤ n ≤ 57).

(** A name as a replacement field [{name}] carries it: letters, digits
    and underscores, the first no digit. *)
Definition identifier (s : string) : bool :=
  match s with
  | EmptyString => false
  | String a rest =>
      name_char a
      && negb (bool_decide (48 ≤ Z.of_nat (nat_of_ascii a) ≤ 57))
      && all_chars name_char rest
  end.

(** The text of an error that [ExceptionHandlerMiddleware] writes into
    the message of its log call: the [detail] of an application error and
    [str] of a database error or of an error of any other class.  The
    message for a validation error is a constant. *)
Definition logged_text `{Libraries} (e : PyException) : string :=
  match e with
  | AppException _ detail _ _ => detail
  | PydanticValidationError _ => ""
  | _ => exc_str e
  end.

(** The [details] an error brings into its envelope: those of an
    application error and the error list of a validation error. *)
Definition details_of (e : PyException) : option Details :=
  match e with
  | AppException _ _ _ details => details
  | PydanticValidationError errors => Some (DetailErrors errors)
  | _ => None
  end.

(** [json.dumps] has an encoding for the details. *)
Definition encodable `{Json} (details : option Details) : Prop :=
  match details with
  | Some (DetailOther (inr _)) => False
  | Some (DetailErrors errors) => dumps_errors errors = None
  | _ => True
  end.

(** The settings of a deployment: [DEBUG] is off. *)
Definition production_settings : Settings :=
  {| SECRET_KEY := "s3cret";
     ACCESS_TOKEN_EXPIRE_MINUTES := 60 * 24 * 8;
     REFRESH_TOKEN_EXPIRE_MINUTES := 60 * 24 * 30;
     DEBUG := false |}.

(** Libraries for which [str] of an error is the message it was built
    with. *)
Definition message_libraries : Libraries :=
  {| hmac_sha256 := λ key alg _, key +:+ "/" +:+ alg;
     py_int := λ s, if decide (s = "7") then Some 7 else None;
     parse_datetime := λ _, None;
     pwd_verify := λ plain hashed, bool_decide (hashed = "hash:" +:+ plain);
     exc_str := λ e,
       match e with
       | SQLAlchemyError text | JWTError text | ValueError text
       | AttributeError text | OtherException _ text => text
       | _ => "error"
       end;
     format_exception := λ _, [] |}.

(** A request for a path with a brace in it. *)
Definition brace_request : Request.t :=
  {| Request.method := "GET";
     Request.url_path := "/api/items/{id}";
     Request.client := Some ("203.0.113.9", 40000);
     Request.query_params := [];
     Request.path_params := "{}";
     Request.json := None;
     Request.state_request_id := Some "req-1" |}.

(** ** Rate limiter: a record with earlier entries *)



(** * Properties *)

(** ** Response headers *)
Section headers.

Implicit Types (l : list (string * string)) (k v : string).

Lemma filter_key_comm k k' l :
  filter (λ kv : string * string, kv.1 ≠ k)
    (filter (λ kv : string * string, kv.1 ≠ k') l)
  = filter (λ kv : string * string, kv.1 ≠ k')
      (filter (λ kv : string * string, kv.1 ≠ k) l).
Proof.
  rewrite !list_filter_filter. apply list_filter_iff. intros kv. tauto.
Qed.

Lemma filter_key_idemp k l :
  filter (λ kv : string * string, kv.1 ≠ k)
    (filter (λ kv : string * string, kv.1 ≠ k) l)
  = filter (λ kv : string * string, kv.1 ≠ k) l.
Proof.
  rewrite list_filter_filter. apply list_filter_iff. intros kv. tauto.
Qed.

(** Setting a key twice is setting it once. *)
Lemma setitem_raw_idemp k v l :
  Response.setitem_raw k v (Response.setitem_raw k v l)
  = Response.setitem_raw k v l.
Proof.
  induction l as [|[k0 v0] l IH]; simpl.
  - rewrite decide_True by done. by rewrite filter_nil.
  - destruct (decide (k0 = k)) as [->|Hne]; simpl.
    + rewrite decide_True by done. by rewrite filter_key_idemp.
    + rewrite decide_False by done. by rewrite IH.
Qed.

(** Deleting the entries of one key commutes with setting another. *)
Lemma filter_setitem_raw k k' v' l :
  k ≠ k' →
  filter (λ kv : string * string, kv.1 ≠ k) (Response.setitem_raw k' v' l)
  = Response.setitem_raw k' v' (filter (λ kv : string * string, kv.1 ≠ k) l).
Proof.
  intros Hne. induction l as [|[k0 v0] l IH]; simpl.
  - rewrite filter_cons_True by (simpl; congruence). by rewrite filter_nil.
  - destruct (decide (k0 = k')) as [->|Hne'].
    + rewrite !filter_cons_True by (simpl; congruence). simpl.
      rewrite decide_True by done. by rewrite filter_key_comm.
    + destruct (decide (k0 = k)) as [->|Hne''].
      * rewrite !filter_cons_False by (simpl; tauto). exact IH.
      * rewrite !filter_cons_True by (simpl; congruence). simpl.
        rewrite decide_False by done. by rewrite IH.
Qed.

(** A list on which a key is settled stays so when another key is set. *)
Lemma setitem_raw_settled k v k' v' l :
  k ≠ k' →
  Response.setitem_raw k v l = l →
  Response.setitem_raw k v (Response.setitem_raw k' v' l)
  = Response.setitem_raw k' v' l.
Proof.
  intros Hne. induction l as [|[k0 v0] l IH]; simpl; [done|].
  destruct (decide (k0 = k)) as [->|Hk].
  - intros [= -> Hl]. rewrite decide_False by done. simpl.
    rewrite decide_True by done. f_equal.
    rewrite filter_setitem_raw by done. by rewrite Hl.
  - intros [= Hl]. destruct (decide (k0 = k')) as [->|Hk']; simpl.
    + rewrite decide_False by done. f_equal.
      rewrite <- filter_setitem_raw by congruence. by rewrite Hl.
    + rewrite decide_False by done. f_equal. by apply IH.
Qed.

End headers.

Section security_headers.

Lemma set_all_snoc kvs k v l :
  set_all (kvs ++ [(k, v)]) l = Response.setitem_raw k v (set_all kvs l).
Proof. unfold set_all. by rewrite foldl_app. Qed.

Lemma set_all_settles kvs l :
  NoDup kvs.*1 →
  Forall (λ kv, Response.setitem_raw kv.1 kv.2 (set_all kvs l) = set_all kvs l) kvs.
Proof.
  induction kvs as [|[k v] kvs IH] using rev_ind; [constructor|].
  rewrite fmap_app, NoDup_app. simpl. intros (Hnd & Hfresh & _).
  rewrite set_all_snoc. apply Forall_app. split.
  - specialize (IH Hnd). rewrite Forall_forall in IH |- *.
    intros [k0 v0] Hin. simpl. apply setitem_raw_settled.
    + intros ->. apply (Hfresh k); [|set_solver].
      apply list_elem_of_fmap. by exists (k, v0).
    + exact (IH _ Hin).
  - constructor; [|constructor]. simpl. apply setitem_raw_idemp.
Qed.

Lemma set_all_fixed kvs m :
  Forall (λ kv, Response.setitem_raw kv.1 kv.2 m = m) kvs → set_all kvs m = m.
Proof.
  induction 1 as [|[k v] kvs Hkv _ IH]; [done|].
  unfold set_all in *. simpl in *. by rewrite Hkv.
Qed.

Lemma set_all_idemp kvs l :
  NoDup kvs.*1 → set_all kvs (set_all kvs l) = set_all kvs l.
Proof. intros Hnd. apply set_all_fixed. by apply set_all_settles. Qed.

Lemma security_headers_NoDup : NoDup security_headers.*1.
Proof. apply (bool_decide_unpack _). by vm_compute. Qed.

Lemma stamp_idemp r : stamp (stamp r) = stamp r.
Proof.
  unfold stamp. cbn [Response.raw_headers Response.status_code Response.body].
  by rewrite set_all_idemp by apply security_headers_NoDup.
Qed.

Lemma dispatch_stamp request call_next w :
  SecurityHeadersMiddleware.dispatch request call_next w
  = match call_next request w with
    | (Ok r, w') => (Ok (stamp r), w')
    | (Raise e, w') => (Raise e, w')
    end.
Proof.
  unfold SecurityHeadersMiddleware.dispatch, mbind, M_bind.
  destruct (call_next request w) as [[r|e] w']; reflexivity.
Qed.

(** C9. Idempotence of the security-headers stage: the stage applied to a
    response it has already stamped returns that response unchanged, and
    so the stage wrapped around itself behaves as the stage once; every
    header of the set is stored by assignment, which replaces the entry of
    the key. *)
Theorem security_headers_stage_idempotent :
  (∀ request (r : Response.t) w,
     ∃ r1,
       SecurityHeadersMiddleware.dispatch request (λ _, mret r) w = (Ok r1, w)
       ∧ SecurityHeadersMiddleware.dispatch request (λ _, mret r1) w = (Ok r1, w))
  ∧ (∀ request request' call_next w,
       SecurityHeadersMiddleware.dispatch request
         (λ _, SecurityHeadersMiddleware.dispatch request' call_next) w
       = SecurityHeadersMiddleware.dispatch request' call_next w).
Proof.
  split.
  - intros request r w. exists (stamp r). rewrite !dispatch_stamp.
    unfold mret, M_ret. by rewrite stamp_idemp.
  - intros request request' call_next w. rewrite !dispatch_stamp.
    destruct (call_next request' w) as [[r|e] w']; [|done].
    by rewrite stamp_idemp.
Qed.

End security_headers.

(** ** Injection screen *)
Section injection_screen.

Lemma str_app_assoc (a b c : string) : (a +:+ b) +:+ c = a +:+ (b +:+ c).
Proof.
  induction a as [|x a IH]; [done|].
  change (String x ((a +:+ b) +:+ c) = String x (a +:+ (b +:+ c))).
  by rewrite IH.
Qed.

Lemma contains_app_l (needle a b : string) :
  contains needle a → contains needle (a +:+ b).
Proof.
  intros (pre & post & ->). exists pre, (post +:+ b).
  by rewrite !str_app_assoc.
Qed.

Lemma contains_app_r (needle a b : string) :
  contains needle b → contains needle (a +:+ b).
Proof.
  intros (pre & post & ->). exists (a +:+ pre), post.
  by rewrite !str_app_assoc.
Qed.

(** A match at the start of [rest], whatever precedes it, is found by
    the search of any text that ends in [rest]. *)
Lemma search_from_app (p : re.Pattern) (pre rest : string) :
  (∀ prev, re.matches (re.ignorecase p) (re.body p) prev rest (λ _ _, true) = true) →
  ∀ prev, re.search_from p prev (pre +:+ rest) = true.
Proof.
  intros Hm. induction pre as [|x pre IH]; intros prev.
  - change ("" +:+ rest) with rest. destruct rest; simpl; by rewrite Hm.
  - change (String x pre +:+ rest) with (String x (pre +:+ rest)). simpl.
    rewrite IH. apply orb_true_r.
Qed.

(** The comment-marker pattern fires on every text with two dashes. *)
Lemma dashes_flagged (self : SQLInjectionMiddleware.t) (text : string) :
  contains "--" text → SQLInjectionMiddleware._check_sql_injection self text = true.
Proof.
  intros (pre & post & ->).
  unfold SQLInjectionMiddleware._check_sql_injection.
  apply existsb_exists.
  exists {| re.ignorecase := true; re.body := re.alts ["--"; "#"; "/*"; "*/"] |}.
  split.
  - unfold SQLInjectionMiddleware.patterns. do 2 right. by left.
  - unfold re.search. apply search_from_app. intros prev. reflexivity.
Qed.

Lemma quote_plus_app (a b : string) :
  quote_plus (a +:+ b) = quote_plus a +:+ quote_plus b.
Proof.
  induction a as [|x a IH]; [done|].
  change (String x a +:+ b) with (String x (a +:+ b)). simpl.
  by rewrite IH, str_app_assoc.
Qed.

(** Encoding the probe leaves its comment marker as it is. *)
Lemma quote_plus_probe : quote_plus probe = "%27+OR+1%3D1+--".
Proof. reflexivity. Qed.

Lemma quote_plus_contains_dashes (v : string) :
  contains probe v → contains "--" (quote_plus v).
Proof.
  intros (pre & post & ->).
  rewrite !quote_plus_app, quote_plus_probe.
  exists (quote_plus pre +:+ "%27+OR+1%3D1+"), (quote_plus post).
  by rewrite !str_app_assoc.
Qed.

Lemma urlencode_contains_dashes (query : list (string * string)) (k v : string) :
  (k, v) ∈ query → contains probe k ∨ contains probe v →
  contains "--" (urlencode query).
Proof.
  intros Hin Hprobe.
  induction query as [|[k0 v0] query IH]; [by apply elem_of_nil in Hin|].
  assert (contains "--" (quote_plus k) ∨ contains "--" (quote_plus v)) as Hq.
  { destruct Hprobe; [left|right]; by apply quote_plus_contains_dashes. }
  apply elem_of_cons in Hin as [[= <- <-]|Hin].
  - assert (contains "--" (quote_plus k +:+ "=" +:+ quote_plus v)) as Hkv.
    { destruct Hq; [by apply contains_app_l|].
      by apply contains_app_r, contains_app_r. }
    destruct query as [|[k1 v1] query']; [exact Hkv|].
    change (contains "--"
              (quote_plus k +:+ "=" +:+ quote_plus v +:+ "&"
               +:+ urlencode ((k1, v1) :: query'))).
    rewrite <- !str_app_assoc. apply contains_app_l, contains_app_l.
    by rewrite str_app_assoc.
  - specialize (IH Hin). destruct query as [|[k1 v1] query'];
      [by apply elem_of_nil in Hin|].
    change (contains "--"
              (quote_plus k0 +:+ "=" +:+ quote_plus v0 +:+ "&"
               +:+ urlencode ((k1, v1) :: query'))).
    by do 4 apply contains_app_r.
Qed.

(** The screen is the disjunction of its patterns. *)
Lemma screen_or_combined (self : SQLInjectionMiddleware.t) (text : string) :
  SQLInjectionMiddleware._check_sql_injection self text = true
  ↔ ∃ p, p ∈ SQLInjectionMiddleware.patterns ∧ re.search p text = true.
Proof.
  unfold SQLInjectionMiddleware._check_sql_injection.
  rewrite existsb_exists. by setoid_rewrite list_elem_of_In.
Qed.

Lemma probe_flagged (self : SQLInjectionMiddleware.t)
    (query : list (string * string)) (k v : string) :
  (k, v) ∈ query → contains probe k ∨ contains probe v →
  SQLInjectionMiddleware._check_sql_injection self (urlencode query) = true.
Proof. intros. by eapply dashes_flagged, urlencode_contains_dashes. Qed.

(** (X1) The injection screen on a request that carries its client address.  A
    query parameter whose name or value contains the probe is flagged,
    the screen being the disjunction of its patterns; with blocking on,
    the stage answers 400 after one warning and [call_next] has no part
    in the outcome. *)
Theorem injection_probe_blocked (self : SQLInjectionMiddleware.t)
    (request : Request.t) (w : World) (host : string) (port : Z) (k v : string) :
  (k, v) ∈ Request.query_params request →
  contains probe k ∨ contains probe v →
  SQLInjectionMiddleware.block_suspicious self = true →
  Request.client request = Some (host, port) →
  SQLInjectionMiddleware._check_sql_injection self
    (urlencode (Request.query_params request)) = true
  ∧ (∃ p, p ∈ SQLInjectionMiddleware.patterns
          ∧ re.search p (urlencode (Request.query_params request)) = true)
  ∧ ∃ record,
      ∀ call_next : CallNext,
        SQLInjectionMiddleware.dispatch self request call_next w
        = (Ok (Response.__init__ "Invalid request" 400 []),
           {| _requests := _requests w;
              redis_keys := redis_keys w;
              log := log w ++ [record] |}).
Proof.
  intros Hin Hprobe Hblock Hclient.
  pose proof (probe_flagged self _ _ _ Hin Hprobe) as Hflag.
  split; [exact Hflag|]. split; [by apply (screen_or_combined self)|].
  eexists. intros call_next.
  unfold SQLInjectionMiddleware.dispatch, SQLInjectionMiddleware._get_request_data.
  simpl. rewrite Hflag, Hclient.
  unfold mbind, M_bind, logger, mret, M_ret. rewrite Hblock. reflexivity.
Qed.

(** C7, the request without a client address.  The probe is flagged, but
    the warning reads [request.client.host] before the 400 response is
    built: with no client the stage raises [AttributeError], whatever
    [call_next] is. *)
Theorem injection_probe_without_client_raises :
  ∀ (call_next : CallNext) (w : World),
    SQLInjectionMiddleware._check_sql_injection
      {| SQLInjectionMiddleware.block_suspicious := true |}
      (urlencode (Request.query_params (demo_request None))) = true
    ∧ SQLInjectionMiddleware.dispatch
        {| SQLInjectionMiddleware.block_suspicious := true |}
        (demo_request None) call_next w
      = (Raise (AttributeError "'NoneType' object has no attribute 'host'"), w).
Proof. intros call_next w. split; reflexivity. Qed.

End injection_screen.

(** ** Log messages *)
Section log_messages.
Context `{Formatting}.

Lemma brace_free_app (a b : string) :
  brace_free (a +:+ b) = brace_free a && brace_free b.
Proof.
  induction a as [|x a IH]; [done|].
  change (brace_free (String x (a +:+ b))
          = brace_free (String x a) && brace_free b).
  unfold brace_free in *. cbn [all_chars]. rewrite IH. by rewrite andb_assoc.
Qed.

Lemma str_app_empty (s : string) : s +:+ EmptyString = s.
Proof.
  induction s as [|x s IH]; [done|].
  change (String x (s +:+ EmptyString) = String x s). by rewrite IH.
Qed.

(** Literal text is copied. *)
Lemma run_literal (kwargs : list (string * Kwarg)) (s rest out : string) :
  brace_free s = true →
  fmt.run kwargs fmt.Literal out (s +:+ rest)
  = fmt.run kwargs fmt.Literal (out +:+ s) rest.
Proof.
  revert out. induction s as [|c s IH]; intros out Hs.
  - by rewrite str_app_empty.
  - unfold brace_free in Hs. cbn [all_chars] in Hs.
    apply andb_true_iff in Hs as [Hc Hs].
    apply negb_true_iff, bool_decide_eq_false in Hc.
    change (String c s +:+ rest) with (String c (s +:+ rest)).
    cbn [fmt.run fmt.step].
    rewrite (bool_decide_eq_false_2 (c = "{"%char)) by (intros ->; apply Hc; by left).
    rewrite (bool_decide_eq_false_2 (c = "}"%char)) by (intros ->; apply Hc; by right).
    rewrite IH by exact Hs. unfold fmt.snoc.
    by rewrite str_app_assoc.
Qed.

(** A message without braces is its own text. *)
Lemma format_plain (kwargs : list (string * Kwarg)) (msg : string) :
  brace_free msg = true → fmt.format kwargs msg = Ok msg.
Proof.
  intros Hm. unfold fmt.format.
  rewrite <- (str_app_empty msg) at 1. by rewrite run_literal.
Qed.

Lemma name_char_plain (a : ascii) :
  name_char a = true →
  a ≠ "{"%char ∧ a ≠ "}"%char ∧ a ≠ "["%char ∧ a ≠ ":"%char
  ∧ a ≠ "!"%char ∧ a ≠ "."%char.
Proof.
  intros Ha.
  destruct a as [[] [] [] [] [] [] [] []]; try discriminate Ha;
    by repeat split.
Qed.

(** The characters of a name are gathered. *)
Lemma run_name (kwargs : list (string * Kwarg)) (name acc rest out : string) :
  all_chars name_char name = true →
  fmt.run kwargs (fmt.Name acc false) out (name +:+ rest)
  = fmt.run kwargs (fmt.Name (acc +:+ name) false) out rest.
Proof.
  revert acc. induction name as [|c name IH]; intros acc Hn.
  - by rewrite str_app_empty.
  - cbn [all_chars] in Hn. apply andb_true_iff in Hn as [Hc Hn].
    apply name_char_plain in Hc as (H1 & H2 & H3 & H4 & H5 & _).
    change (String c name +:+ rest) with (String c (name +:+ rest)).
    cbn [fmt.run fmt.step fmt.step_name].
    rewrite !bool_decide_eq_false_2 by done.
    rewrite IH by exact Hn. unfold fmt.snoc. by rewrite str_app_assoc.
Qed.

Lemma first_name_plain (name : string) :
  all_chars name_char name = true → fmt.first_name name = name.
Proof.
  induction name as [|c name IH]; [done|]. intros Hn.
  cbn [all_chars] in Hn. apply andb_true_iff in Hn as [Hc Hn].
  apply name_char_plain in Hc as (_ & _ & H3 & _ & _ & H6).
  cbn [fmt.first_name].
  rewrite bool_decide_eq_false_2 by (by intros [|]).
  by rewrite IH.
Qed.

(** A field [{name}] whose name is no keyword argument of the call, after
    literal text: [KeyError]. *)
Lemma format_unknown_field (kwargs : list (string * Kwarg))
    (pre name post : string) :
  brace_free pre = true →
  identifier name = true →
  fmt.lookup_kwarg kwargs name = None →
  fmt.format kwargs (pre +:+ "{" +:+ name +:+ "}" +:+ post)
  = Raise (KeyError name).
Proof.
  intros Hpre Hid Hkw. unfold fmt.format.
  rewrite run_literal by exact Hpre.
  destruct name as [|c name]; [done|].
  unfold identifier in Hid.
  apply andb_true_iff in Hid as [Hid Hrest].
  apply andb_true_iff in Hid as [Hc Hdigit].
  assert (all_chars name_char (String c name) = true) as Hall
    by (cbn [all_chars]; by rewrite Hc, Hrest).
  change ("{" +:+ String c name +:+ "}" +:+ post)
    with (String "{" (String c name +:+ String "}" post)).
  cbn [fmt.run fmt.step]. rewrite bool_decide_eq_true_2 by done.
  pose proof (name_char_plain c Hc) as (H1 & H2 & H3 & H4 & H5 & _).
  change (String c name +:+ String "}" post)
    with (String c (name +:+ String "}" post)).
  cbn [fmt.run fmt.step fmt.step_name].
  rewrite !bool_decide_eq_false_2 by done.
  rewrite run_name by exact Hrest.
  cbn [fmt.run fmt.step fmt.step_name].
  rewrite bool_decide_eq_false_2 by done.
  rewrite bool_decide_eq_false_2 by done.
  rewrite bool_decide_eq_true_2 by done.
  unfold fmt.field.
  change (fmt.snoc EmptyString c +:+ name) with (String c name).
  rewrite first_name_plain by exact Hall.
  unfold fmt.get_integer. cbn [fmt.get_integer_from].
  unfold fmt.digit. apply negb_true_iff in Hdigit. rewrite Hdigit.
  rewrite bool_decide_eq_false_2 by done. by rewrite Hkw.
Qed.

Lemma logger_format_plain (lvl : LogLevel) (msg : string)
    (ex : list (string * string)) (more : list (string * Kwarg)) (w : World) :
  brace_free msg = true →
  logger_format lvl msg ex more w
  = (Ok (), logged w {| levelname := lvl; message := msg; extra := ex |}).
Proof. intros Hm. unfold logger_format. by rewrite format_plain. Qed.

(** The two outcomes of a log call: one record, or the error of the
    formatting, which needs a brace in the message, and no record. *)
Lemma logger_format_cases (lvl : LogLevel) (msg : string)
    (ex : list (string * string)) (more : list (string * Kwarg)) (w : World) :
  (∃ text,
     logger_format lvl msg ex more w
     = (Ok (), logged w {| levelname := lvl; message := text; extra := ex |}))
  ∨ (∃ e, logger_format lvl msg ex more w = (Raise e, w)
          ∧ brace_free msg = false).
Proof.
  unfold logger_format.
  destruct (fmt.format _ msg) as [text|e] eqn:Hf.
  - left. by exists text.
  - right. exists e. split; [done|].
    destruct (brace_free msg) eqn:Hb; [|done].
    by rewrite format_plain in Hf.
Qed.

(** A log call whose message has a field [{name}] that names no keyword
    argument of the call, after a prefix and text without braces, raises
    [KeyError] and logs nothing. *)
Lemma logger_format_unknown_field (lvl : LogLevel)
    (prefix pre name post : string) (ex : list (string * string))
    (more : list (string * Kwarg)) (w : World) :
  brace_free prefix = true →
  brace_free pre = true →
  identifier name = true →
  fmt.lookup_kwarg (("extra", KwDict ex) :: more) name = None →
  logger_format lvl (prefix +:+ pre +:+ "{" +:+ name +:+ "}" +:+ post) ex more w
  = (Raise (KeyError name), w).
Proof.
  intros Hprefix Hpre Hid Hkw. unfold logger_format.
  rewrite <- str_app_assoc.
  rewrite format_unknown_field; [done| |done..].
  by rewrite brace_free_app, Hprefix, Hpre.
Qed.

(** With a message that has no brace, as the constant messages of the
    repository, the call is [logger]. *)
Lemma logger_format_logger (lvl : LogLevel) (msg : string)
    (ex : list (string * string)) (more : list (string * Kwarg)) (w : World) :
  brace_free msg = true →
  logger_format lvl msg ex more w = logger lvl msg ex w.
Proof. apply logger_format_plain. Qed.

Lemma constant_messages_plain :
  Forall (λ msg, brace_free msg = true)
    ["Rate limit exceeded"; "Potential SQL injection detected";
     "Validation error"; "Error alert triggered"; "Request processed";
     "Request completed"; "Slow request detected";
     "Request performance metrics"].
Proof. repeat constructor. Qed.

End log_messages.

(** ** Error translation *)
Section error_translation.
Context `{Settings} `{Libraries} `{Formatting} `{Json}.

(** The catch-all on an error: one log call, then the envelope. *)
Lemma handle_unknown_error_cases (e : PyException) (request : Request.t)
    (w1 : World) :
  (∃ text,
     ExceptionHandlerMiddleware._handle_unknown_error e request w1
     = (Ok (Response.JSONResponse 500
              {| ErrorResponse.error_code := 5001;
                 ErrorResponse.message := "Internal server error";
                 ErrorResponse.details :=
                   if DEBUG
                   then Some (DetailDebug (exc_str e) (format_exception e))
                   else None;
                 ErrorResponse.trace_id := Request.state_request_id request |}),
        logged w1
          {| levelname := ERROR;
             message := text;
             extra := [("path", Request.url_path request);
                       ("method", Request.method request);
                       ("error_type",
                        ExceptionHandlerMiddleware.type_name e)] |})
     ∧ (brace_free (exc_str e) = true →
        text = "Unhandled error: " +:+ exc_str e))
  ∨ (∃ e',
       ExceptionHandlerMiddleware._handle_unknown_error e request w1
       = (Raise e', w1)
       ∧ brace_free (exc_str e) = false).
Proof.
  unfold ExceptionHandlerMiddleware._handle_unknown_error, mbind, M_bind.
  destruct (brace_free (exc_str e)) eqn:Hb.
  - left. exists ("Unhandled error: " +:+ exc_str e).
    rewrite logger_format_plain by (by rewrite brace_free_app, Hb).
    split; [|done].
    unfold ExceptionHandlerMiddleware.json_response, Response.render_json.
    by destruct DEBUG.
  - match goal with
    | |- context [logger_format ?lvl ?msg ?ex ?more w1] =>
        destruct (logger_format_cases lvl msg ex more w1)
          as [(text & ->)|(e' & -> & _)]
    end.
    + left. exists text. split; [|done].
      unfold ExceptionHandlerMiddleware.json_response, Response.render_json.
      by destruct DEBUG.
    + right. by exists e'.
Qed.

Lemma unhandled_cases (e : PyException) : unhandled e ∨ ¬ unhandled e.
Proof. destruct e; simpl; tauto. Qed.

Lemma dispatch_unhandled (request : Request.t) (call_next : CallNext)
    (w w1 : World) (e : PyException) :
  call_next request w = (Raise e, w1) →
  unhandled e →
  ExceptionHandlerMiddleware.dispatch request call_next w
  = ExceptionHandlerMiddleware._handle_unknown_error e request w1.
Proof.
  intros Hcall Hun. unfold ExceptionHandlerMiddleware.dispatch. rewrite Hcall.
  by destruct e.
Qed.

(** C8. An error raised by the handler that is no application,
    validation or database error reaches the catch-all, which writes the
    text of the error into a log message that loguru formats.  For a
    text without braces the claim holds: one response of status 500 with
    the envelope of code 5001, whose trace id is the request id of the
    request state (null when there is none) and whose details are null
    unless [DEBUG] is set, and one error record in the log.  Otherwise
    the catch-all answers with that envelope or raises the error of the
    formatting, with no envelope and nothing logged; it raises
    [KeyError] for every text whose first brace opens a field [{name}],
    as [{oops}], the name being none of the two keyword arguments of the
    log call. *)
Theorem unknown_error_outcome (request : Request.t) (call_next : CallNext)
    (w w1 : World) (e : PyException) :
  call_next request w = (Raise e, w1) →
  unhandled e →
  (brace_free (exc_str e) = true →
   ∃ envelope record,
     ExceptionHandlerMiddleware.dispatch request call_next w
     = (Ok (Response.JSONResponse 500 envelope), logged w1 record)
     ∧ ErrorResponse.error_code envelope = 5001
     ∧ ErrorResponse.message envelope = "Internal server error"
     ∧ ErrorResponse.trace_id envelope = Request.state_request_id request
     ∧ (DEBUG = false → ErrorResponse.details envelope = None)
     ∧ (DEBUG = true →
        ErrorResponse.details envelope
        = Some (DetailDebug (exc_str e) (format_exception e)))
     ∧ levelname record = ERROR
     ∧ message record = "Unhandled error: " +:+ exc_str e)
  ∧ ((∃ envelope record,
        ExceptionHandlerMiddleware.dispatch request call_next w
        = (Ok (Response.JSONResponse 500 envelope), logged w1 record))
     ∨ (∃ e',
          ExceptionHandlerMiddleware.dispatch request call_next w
          = (Raise e', w1)
          ∧ brace_free (exc_str e) = false))
  ∧ (∀ pre name post,
       exc_str e = pre +:+ "{" +:+ name +:+ "}" +:+ post →
       brace_free pre = true →
       identifier name = true →
       name ≠ "extra" →
       name ≠ "exc_info" →
       ExceptionHandlerMiddleware.dispatch request call_next w
       = (Raise (KeyError name), w1)).
Proof.
  intros Hcall Hun. rewrite (dispatch_unhandled _ _ _ _ _ Hcall Hun).
  split; [|split].
  - intros Hb.
    destruct (handle_unknown_error_cases e request w1)
      as [(text & -> & Htext)|(e' & _ & Hb')]; [|congruence].
    eexists _, _. split; [reflexivity|].
    cbn [ErrorResponse.error_code ErrorResponse.message ErrorResponse.trace_id
         ErrorResponse.details levelname message].
    repeat split; try done.
    + by intros ->.
    + by intros ->.
    + by apply Htext.
  - destruct (handle_unknown_error_cases e request w1)
      as [(text & -> & _)|(e' & -> & Hb')].
    + left. by eexists _, _.
    + right. by exists e'.
  - intros pre name post Hstr Hpre Hid Hextra Hinfo.
    unfold ExceptionHandlerMiddleware._handle_unknown_error, mbind, M_bind.
    rewrite Hstr, logger_format_unknown_field; [done..|].
    cbn [fmt.lookup_kwarg]. by rewrite !bool_decide_eq_false_2.
Qed.

End error_translation.

(** ** Tokens *)
Section tokens.
Context `{Settings} `{Libraries}.

Lemma issued_claims_sub subject expire :
  issued_claims subject expire !! "sub" = Some (PStr (str subject)).
Proof. apply lookup_insert_eq. Qed.

Lemma issued_claims_exp subject expire :
  issued_claims subject expire !! "exp" = Some (PInt expire).
Proof.
  unfold issued_claims. rewrite lookup_insert_ne by done.
  apply lookup_insert_eq.
Qed.

Lemma issued_claims_other subject expire (k : string) :
  k ≠ "sub" → k ≠ "exp" → issued_claims subject expire !! k = None.
Proof.
  intros ??. unfold issued_claims.
  by rewrite !lookup_insert_ne, lookup_empty by done.
Qed.

Lemma issued_claims_dom subject expire :
  dom (issued_claims subject expire) = {["exp"; "sub"]}.
Proof. unfold issued_claims. rewrite !dom_insert_L, dom_empty_L. set_solver. Qed.

Lemma create_access_token_eq subject ttl utcnow :
  ttl ≠ 0 →
  AuthService.create_access_token subject (Some ttl) utcnow
  = jwt.encode (issued_claims subject (utcnow + ttl)) SECRET_KEY "HS256".
Proof.
  intros Hne. unfold AuthService.create_access_token, AuthService.truthy.
  rewrite bool_decide_eq_false_2 by done. reflexivity.
Qed.

Lemma create_refresh_token_eq subject ttl utcnow :
  ttl ≠ 0 →
  AuthService.create_refresh_token subject (Some ttl) utcnow
  = jwt.encode (issued_claims subject (utcnow + ttl)) SECRET_KEY "HS256".
Proof.
  intros Hne. unfold AuthService.create_refresh_token, AuthService.truthy.
  rewrite bool_decide_eq_false_2 by done. reflexivity.
Qed.

(** Issued claims pass python-jose's checks until the second after [exp]. *)
Lemma validate_issued_claims subject expire now :
  jwt._validate_claims (issued_claims subject expire) now
  = if decide (expire < now) then Raise (JWTError "Signature has expired.")
    else Ok ().
Proof.
  unfold jwt._validate_claims, jwt._validate_iat, jwt._validate_nbf,
    jwt._validate_exp, jwt._validate_aud, jwt._validate_sub,
    jwt._validate_jti, jwt._validate_at_hash.
  rewrite issued_claims_sub, issued_claims_exp.
  rewrite !issued_claims_other by done. simpl.
  destruct (decide (expire < now)); reflexivity.
Qed.

Lemma decode_issued subject expire now :
  jwt.decode (jwt.encode (issued_claims subject expire) SECRET_KEY "HS256")
    SECRET_KEY ["HS256"] now
  = if decide (expire < now) then Raise (JWTError "Signature has expired.")
    else Ok (issued_claims subject expire).
Proof.
  unfold jwt.decode, jwt.encode.
  rewrite bool_decide_eq_true_2 by set_solver.
  rewrite bool_decide_eq_true_2 by done. simpl.
  rewrite validate_issued_claims.
  destruct (decide (expire < now)); reflexivity.
Qed.

Lemma payload_of_issued subject expire :
  TokenPayload.__init__ (issued_claims subject expire)
  = Ok {| TokenPayload.sub := PStr (str subject);
          TokenPayload.exp := expire;
          TokenPayload.iat := None;
          TokenPayload.type := "access";
          TokenPayload.jti := None |}.
Proof.
  unfold TokenPayload.__init__.
  rewrite issued_claims_sub, issued_claims_exp.
  rewrite !issued_claims_other by done. reflexivity.
Qed.

Lemma token_data_issued subject expire now :
  deps.token_data
    (jwt.encode (issued_claims subject expire) SECRET_KEY "HS256") now
  = if decide (expire < now) then Raise (JWTError "Signature has expired.")
    else Ok {| TokenPayload.sub := PStr (str subject);
               TokenPayload.exp := expire;
               TokenPayload.iat := None;
               TokenPayload.type := "access";
               TokenPayload.jti := None |}.
Proof.
  unfold deps.token_data. rewrite decode_issued.
  destruct (decide (expire < now)); [reflexivity|].
  simpl. apply payload_of_issued.
Qed.


(** Verification of any token over the schema's claims, decided by the
    three conditions. *)
Lemma claims_verdict (claims : gmap string pyval) (now : Z) :
  dom claims ⊆ {["sub"; "exp"; "iat"; "type"; "jti"]} →
  (∃ e, (jwt._validate_claims claims now ≫= λ _, TokenPayload.__init__ claims)
        = Raise e)
  ↔ claims_wellformed claims = false
    ∨ (∃ exp, claims !! "exp" ≫= jwt.to_int = Some exp ∧ exp < now).
Proof.
  intros Hdom.
  assert (∀ k : string,
            k ∉ ({["sub"; "exp"; "iat"; "type"; "jti"]} : gset string) →
            claims !! k = None) as Hout.
  { intros k Hk. apply not_elem_of_dom. intros Hin. by apply Hk, Hdom. }
  assert (claims !! "nbf" = None) as Hnbf by (apply Hout; by vm_compute).
  assert (claims !! "aud" = None) as Haud by (apply Hout; by vm_compute).
  assert (claims !! "at_hash" = None) as Hat by (apply Hout; by vm_compute).
  clear Hout Hdom.
  unfold jwt._validate_claims, jwt._validate_iat, jwt._validate_nbf,
    jwt._validate_exp, jwt._validate_aud, jwt._validate_sub,
    jwt._validate_jti, jwt._validate_at_hash, TokenPayload.__init__,
    claims_wellformed, is_timestamp, absent_or, TokenPayload.required,
    TokenPayload.optional.
  rewrite Hnbf, Haud, Hat.
  destruct (claims !! "sub") as [[?|?]|]; simpl;
  (destruct (claims !! "exp") as [vexp|]; simpl;
   [destruct (jwt.to_int vexp) as [e|]; simpl;
    [destruct (decide (e < now)); simpl|];
    destruct (TokenPayload.to_datetime vexp); simpl|]);
  (destruct (claims !! "iat") as [viat|]; simpl;
   [destruct (jwt.to_int viat); simpl;
    destruct (TokenPayload.to_datetime viat); simpl|]);
  destruct (claims !! "type") as [[?|?]|]; simpl;
  destruct (claims !! "jti") as [[?|?]|]; simpl;
  (split;
   [ intros [e0 He0];
     first [ discriminate He0
           | left; reflexivity
           | right; eexists; split; [reflexivity|assumption] ]
   | intros [Hw|(e0 & He0 & Hlt)];
     first [ discriminate
           | eexists; reflexivity
           | simplify_eq; lia ] ]).
Qed.

Lemma token_data_object alg claims signature now :
  alg = "HS256" →
  signature = hmac_sha256 SECRET_KEY alg (Object claims) →
  deps.token_data (Compact alg (Object claims) signature) now
  = (jwt._validate_claims claims now ≫= λ _, TokenPayload.__init__ claims).
Proof.
  intros -> ->. unfold deps.token_data, jwt.decode.
  rewrite bool_decide_eq_true_2 by set_solver.
  rewrite bool_decide_eq_true_2 by done. simpl.
  by destruct (jwt._validate_claims claims now) as [[]|].
Qed.

Lemma token_data_verdict (token : JWT) (now : Z) :
  schema_claims token →
  (∃ e, deps.token_data token now = Raise e)
  ↔ signature_valid token = false
    ∨ payload_wellformed token = false
    ∨ expired now token = true.
Proof.
  intros Hschema. destruct token as [alg payload signature|raw].
  2:{ split; [by left|]. intros _. by eexists. }
  unfold signature_valid, payload_wellformed, expired, expires_at.
  destruct (decide (alg = "HS256")) as [->|Halg].
  2:{ rewrite (bool_decide_eq_false_2 (alg = "HS256")) by done.
      split; [by left|]. intros _. unfold deps.token_data, jwt.decode.
      rewrite bool_decide_eq_false_2
        by (intros Hin%list_elem_of_singleton; done).
      by eexists. }
  rewrite (bool_decide_eq_true_2 ("HS256" = "HS256")) by done.
  destruct (decide (signature = hmac_sha256 SECRET_KEY "HS256" payload))
    as [->|Hsig].
  2:{ rewrite bool_decide_eq_false_2 by done.
      split; [by left|]. intros _. unfold deps.token_data, jwt.decode.
      rewrite bool_decide_eq_true_2 by set_solver.
      rewrite bool_decide_eq_false_2 by done. by eexists. }
  rewrite bool_decide_eq_true_2 by done.
  destruct payload as [claims|raw].
  2:{ split; [by right; left|]. intros _. unfold deps.token_data, jwt.decode.
      rewrite bool_decide_eq_true_2 by set_solver.
      rewrite bool_decide_eq_true_2 by done. by eexists. }
  rewrite token_data_object by done.
  rewrite (claims_verdict claims now Hschema). simpl. split.
  - intros [Hw|(e & -> & Hlt)]; [by right; left|].
    right; right. by apply bool_decide_eq_true_2.
  - intros [?|[Hw|Hexp]]; [done|by left|]. right.
    destruct (claims !! "exp" ≫= jwt.to_int) as [e|]; [|done].
    exists e. split; [done|]. by apply bool_decide_eq_true_1 in Hexp.
Qed.

Lemma get_current_user_expired subject expire db now :
  expire < now →
  deps.get_current_user
    (jwt.encode (issued_claims subject expire) SECRET_KEY "HS256") db now
  = Raise deps.credentials_exception.
Proof.
  intros Hlt. unfold deps.get_current_user.
  by rewrite token_data_issued, decide_True by done.
Qed.

(** C4, as amended.  A token is still accepted in the second that equals
    its [exp], as it is one second before; from the next second on
    [get_current_user] answers with the 401 credentials error.  Over the
    claims of the token schema, verification fails exactly when the
    signature is not valid, the payload is not well formed, or the
    current second lies after [exp]. *)
Theorem token_expiry_boundary :
  (∀ subject ttl utcnow now db,
     ttl ≠ 0 →
     let token := AuthService.create_access_token subject (Some ttl) utcnow in
     expires_at token = Some (utcnow + ttl)
     ∧ (now ≤ utcnow + ttl → ∃ data, deps.token_data token now = Ok data)
     ∧ (utcnow + ttl < now →
        deps.get_current_user token db now = Raise deps.credentials_exception))
  ∧ (∀ token now,
       schema_claims token →
       (∃ e, deps.token_data token now = Raise e)
       ↔ signature_valid token = false
         ∨ payload_wellformed token = false
         ∨ expired now token = true).
Proof.
  split; [|apply token_data_verdict].
  intros subject ttl utcnow now db Httl. cbv zeta.
  rewrite create_access_token_eq by done. split; [|split].
  - change (issued_claims subject (utcnow + ttl) !! "exp" ≫= jwt.to_int
            = Some (utcnow + ttl)).
    by rewrite issued_claims_exp.
  - intros Hle. rewrite token_data_issued, decide_False by lia. by eexists.
  - apply get_current_user_expired.
Qed.

(** The access token [login] and [refresh_token] build: the lifetime is
    the configured one whether or not the timedelta is zero. *)
Lemma configured_access_token subject utcnow :
  AuthService.create_access_token subject
    (Some (AuthService.timedelta_minutes ACCESS_TOKEN_EXPIRE_MINUTES)) utcnow
  = jwt.encode
      (issued_claims subject
         (utcnow + AuthService.timedelta_minutes ACCESS_TOKEN_EXPIRE_MINUTES))
      SECRET_KEY "HS256".
Proof.
  unfold AuthService.create_access_token, AuthService.truthy.
  destruct (bool_decide _); reflexivity.
Qed.

Lemma Token_without_expires_in (a r : JWT) (ty : option string) :
  Token.__init__ (Some a) (Some r) ty None
  = Raise (PydanticValidationError [("expires_in", "missing")]).
Proof. reflexivity. Qed.

(** C5.  What [login] does.  With the right password for an active user
    it builds both tokens and then fails: [Token] is constructed without
    its required [expires_in], which raises the validation error, so no
    token pair is returned.  With a wrong password it raises the 401
    error.  The access token built on the way does verify, with the
    user's id as subject. *)
Theorem login_outcomes :
  (∀ form db utcnow user,
     AsyncSession.scalar_by_email db (endpoints.username form) = Some user →
     pwd_verify (endpoints.password form) (User.hashed_password user) = true →
     User.is_active user = true →
     endpoints.login form db utcnow
     = Raise (PydanticValidationError [("expires_in", "missing")]))
  ∧ (∀ form db utcnow user,
       AsyncSession.scalar_by_email db (endpoints.username form) = Some user →
       pwd_verify (endpoints.password form) (User.hashed_password user) = false →
       endpoints.login form db utcnow
       = Raise (HTTPException 401 "Incorrect email or password"
                  [("WWW-Authenticate", "Bearer")]))
  ∧ (∀ user utcnow now,
       now ≤ utcnow + AuthService.timedelta_minutes ACCESS_TOKEN_EXPIRE_MINUTES →
       ∃ data,
         deps.token_data
           (AuthService.create_access_token (PInt (User.id user))
              (Some (AuthService.timedelta_minutes ACCESS_TOKEN_EXPIRE_MINUTES))
              utcnow) now
         = Ok data
         ∧ TokenPayload.sub data = PStr (str (PInt (User.id user)))).
Proof.
  split; [|split].
  - intros form db utcnow user Hdb Hpw Hact.
    unfold endpoints.login, AuthService.authenticate.
    rewrite Hdb, Hpw. simpl. rewrite Hact. reflexivity.
  - intros form db utcnow user Hdb Hpw.
    unfold endpoints.login, AuthService.authenticate.
    rewrite Hdb, Hpw. reflexivity.
  - intros user utcnow now Hle.
    rewrite configured_access_token, token_data_issued, decide_False by lia.
    by eexists.
Qed.

(** A token that decodes, names an active user and so passes every check
    of [refresh_token] makes the endpoint fail at the construction of
    [Token]. *)
Lemma refresh_token_reaches_Token token db now payload uid user :
  jwt.decode token SECRET_KEY ["HS256"] now = Ok payload →
  endpoints.user_id_of payload = Ok uid →
  AsyncSession.get db (PInt uid) = Some user →
  User.is_active user = true →
  endpoints.refresh_token token db now
  = Raise (PydanticValidationError [("expires_in", "missing")]).
Proof.
  intros Hdec Huid Hdb Hact.
  unfold endpoints.refresh_token, endpoints.refresh_token_body.
  rewrite Hdec. simpl. rewrite Huid. simpl. rewrite Hdb, Hact. reflexivity.
Qed.

(** C10.  Both kinds of token carry the claims [exp] and [sub] and
    nothing else, so for the same subject, lifetime and clock the access
    token and the refresh token are the same token.  [refresh_token]
    asks only for a token that decodes and names an active user: an
    access token passes its checks as a refresh token does.  The endpoint
    then fails to answer, for the reason [login] fails. *)
Theorem refresh_token_accepts_access_token :
  (∀ subject expires_delta utcnow,
     ∃ expire expire',
       AuthService.create_access_token subject expires_delta utcnow
       = jwt.encode (issued_claims subject expire) SECRET_KEY "HS256"
       ∧ AuthService.create_refresh_token subject expires_delta utcnow
         = jwt.encode (issued_claims subject expire') SECRET_KEY "HS256"
       ∧ dom (issued_claims subject expire) = {["exp"; "sub"]}
       ∧ dom (issued_claims subject expire') = {["exp"; "sub"]})
  ∧ (∀ subject ttl utcnow,
       ttl ≠ 0 →
       AuthService.create_access_token subject (Some ttl) utcnow
       = AuthService.create_refresh_token subject (Some ttl) utcnow)
  ∧ (∀ user ttl utcnow now db,
       ttl ≠ 0 →
       now ≤ utcnow + ttl →
       py_int (str (PInt (User.id user))) = Some (User.id user) →
       AsyncSession.get db (PInt (User.id user)) = Some user →
       User.is_active user = true →
       endpoints.refresh_token
         (AuthService.create_access_token (PInt (User.id user)) (Some ttl) utcnow)
         db now
       = Raise (PydanticValidationError [("expires_in", "missing")])).
Proof.
  split; [|split].
  - intros subject expires_delta utcnow. eexists _, _.
    split; [reflexivity|]. split; [reflexivity|].
    by rewrite !issued_claims_dom.
  - intros subject ttl utcnow Httl.
    by rewrite create_access_token_eq, create_refresh_token_eq.
  - intros user ttl utcnow now db Httl Hnow Hint Hdb Hact.
    rewrite create_access_token_eq by done.
    eapply refresh_token_reaches_Token; [|  |exact Hdb|exact Hact].
    + rewrite decode_issued, decide_False by lia. reflexivity.
    + unfold endpoints.user_id_of. rewrite issued_claims_sub. simpl.
      unfold str in Hint. by rewrite Hint.
Qed.

End tokens.

(** ** Rate limiter: the counts *)
Section counts.

Implicit Types (prev times E : list Z) (t tl W : Z).

Lemma filter_above_above (a b : Z) (l : list Z) :
  b ≤ a →
  filter (λ x, a < x) (filter (λ x, b < x) l) = filter (λ x, a < x) l.
Proof.
  intros Hle. rewrite list_filter_filter. apply list_filter_iff.
  intros x. lia.
Qed.

Lemma filter_length_mono (P Q : Z → Prop) `{!∀ x, Decision (P x)}
    `{!∀ x, Decision (Q x)} (l : list Z) :
  (∀ x, P x → Q x) → (length (filter P l) ≤ length (filter Q l))%nat.
Proof.
  intros HPQ. induction l as [|x l IH]; [done|].
  rewrite !filter_cons. destruct (decide (P x)) as [HP|HP].
  - rewrite decide_True by auto. simpl. lia.
  - destruct (decide (Q x)); simpl; lia.
Qed.

Lemma counts_from_snoc W prev times t :
  counts_from W prev (times ++ [t])
  = counts_from W prev times
    ++ [Z.of_nat (length (filter (λ x, t - W < x) (prev ++ times))) + 1].
Proof.
  revert prev. induction times as [|x times IH]; intros prev; simpl.
  - by rewrite app_nil_r.
  - rewrite IH. by rewrite <- app_assoc.
Qed.

Lemma counts_from_length W prev times :
  length (counts_from W prev times) = length times.
Proof.
  revert prev. induction times as [|x times IH]; intros prev; simpl; [done|].
  by rewrite IH.
Qed.

Lemma verdicts_length limit counts : length (verdicts limit counts) = length counts.
Proof. unfold verdicts. by rewrite length_fmap. Qed.

(** The permitted calls of a slice are among the calls of the slice. *)
Lemma permitted_le_calls W t times (results : list (bool * Z)) :
  (permitted_in_slice W t times results
   ≤ length (filter (λ x, (t - W < x ≤ t)%Z) times))%nat.
Proof.
  unfold permitted_in_slice. revert results.
  induction times as [|x times IH]; intros [|r results]; simpl;
    rewrite ?filter_nil; simpl; try lia.
  specialize (IH results). rewrite !filter_cons. simpl.
    destruct (decide (r.1 = true ∧ t - W < x ≤ t)) as [[_ Hx]|Hn].
    + rewrite decide_True by done. simpl. lia.
    + destruct (decide (t - W < x ≤ t)); simpl; lia.
Qed.

Lemma permitted_in_slice_snoc W t times (results : list (bool * Z)) x r :
  length times = length results →
  permitted_in_slice W t (times ++ [x]) (results ++ [r])
  = (permitted_in_slice W t times results
     + if decide (r.1 = true ∧ (t - W < x ≤ t)%Z) then 1 else 0)%nat.
Proof.
  intros Hlen. unfold permitted_in_slice.
  rewrite zip_with_app by done. rewrite filter_app, length_app. f_equal.
  simpl. rewrite filter_cons, filter_nil. simpl.
  by destruct (decide _).
Qed.

(** The invariant of the specification: whatever the slice, the calls
    permitted in it are no more than the limit. *)
Lemma permitted_counts_bounded W limit t prev times :
  0 ≤ limit →
  Z.of_nat
    (permitted_in_slice W t times (verdicts limit (counts_from W prev times)))
  ≤ limit.
Proof.
  intros Hlimit. induction times as [|x times IH] using rev_ind.
  - simpl. unfold permitted_in_slice. simpl. lia.
  - rewrite counts_from_snoc. unfold verdicts in *. rewrite fmap_app. simpl.
    rewrite permitted_in_slice_snoc
      by (by rewrite length_fmap, counts_from_length).
    set (c := Z.of_nat (length (filter (λ y, x - W < y) (prev ++ times))) + 1).
    simpl.
    destruct (decide (bool_decide (c ≤ limit) = true ∧ t - W < x ≤ t))
      as [[Hc Hx]|Hn]; [|lia].
    apply bool_decide_eq_true_1 in Hc.
    pose proof (permitted_le_calls W t times
                  ((λ c, (bool_decide (c ≤ limit), c))
                   <$> counts_from W prev times)) as Hle.
    assert (length (filter (λ y, (t - W < y ≤ t)%Z) times)
            ≤ length (filter (λ y, (x - W < y)%Z) (prev ++ times)))%nat as Hle'.
    { rewrite filter_app, length_app.
      assert (length (filter (λ y, (t - W < y ≤ t)%Z) times)
              ≤ length (filter (λ y, (x - W < y)%Z) times))%nat
        by (apply filter_length_mono; intros; lia).
      lia. }
    subst c. lia.
Qed.

End counts.

(** ** Rate limiter: the in-memory store *)
Section limiter.
Variables (self : RateLimitingMiddleware.t) (key : string) (limit : Z).

Abbreviation W := (RateLimitingMiddleware.window_size self).

Lemma check_memory (t : Z) (w : World) :
  RateLimitingMiddleware.redis self = None →
  ∃ w',
    RateLimitingMiddleware._check_rate_limit self key limit t w
    = (Ok (bool_decide
             (Z.of_nat (length (filter (λ x, t - W < x) (mem_entries key w))) + 1
              ≤ limit),
           Z.of_nat (length (filter (λ x, t - W < x) (mem_entries key w))) + 1),
       w')
    ∧ mem_entries key w' = filter (λ x, t - W < x) (mem_entries key w) ++ [t]
    ∧ redis_keys w' = redis_keys w
    ∧ log w' = log w.
Proof.
  intros Hmem. unfold RateLimitingMiddleware._check_rate_limit. rewrite Hmem.
  set (requests := default ∅ (_requests w)).
  assert (default []
            (match requests !! key with
             | Some _ => requests
             | None => <[key:=[]]> requests
             end !! key) = mem_entries key w) as ->.
  { unfold mem_entries. fold requests.
    destruct (requests !! key) eqn:Hk; [by rewrite Hk|].
    by rewrite lookup_insert_eq. }
  rewrite length_app, Nat2Z.inj_add. simpl.
  eexists. split; [reflexivity|]. split; [|done].
  unfold mem_entries at 1. simpl. by rewrite lookup_insert_eq.
Qed.

Lemma tracks_step (prev E : list Z) (tl t : Z) :
  tracks prev E (tl - W) → tl ≤ t →
  filter (λ x, t - W < x) E = filter (λ x, t - W < x) prev
  ∧ tracks (prev ++ [t]) (filter (λ x, t - W < x) E ++ [t]) (t - W).
Proof.
  intros Htr Hle. split; [apply Htr; lia|].
  intros ws Hws. rewrite !filter_app. f_equal.
  rewrite filter_above_above by done. apply Htr. lia.
Qed.

(** A run of checks returns the verdicts of the specification, given an
    invariant that every single check keeps. *)
Lemma check_all_counts (I : list Z → World → Z → Prop) (ok : Z → Z → Prop) :
  (∀ prev w tl t,
     I prev w tl → ok tl t →
     ∃ w',
       RateLimitingMiddleware._check_rate_limit self key limit t w
       = (Ok (bool_decide
                (Z.of_nat (length (filter (λ x, t - W < x) prev)) + 1 ≤ limit),
              Z.of_nat (length (filter (λ x, t - W < x) prev)) + 1),
          w')
       ∧ I (prev ++ [t]) w' t) →
  ∀ times prev w tl,
    I prev w tl → chain ok tl times →
    ∃ w',
      check_all self key limit times w
      = (Ok (verdicts limit (counts_from W prev times)), w').
Proof.
  intros Hstep times. induction times as [|t times IH]; intros prev w tl HI Hch.
  - by eexists.
  - destruct Hch as [Hok Hch].
    destruct (Hstep prev w tl t HI Hok) as (w1 & Hcall & HI1).
    destruct (IH (prev ++ [t]) w1 t HI1 Hch) as (w2 & Hrest).
    exists w2. simpl. unfold mbind, M_bind. rewrite Hcall, Hrest. reflexivity.
Qed.

Lemma check_all_memory (times prev : list Z) (w : World) (tl : Z) :
  RateLimitingMiddleware.redis self = None →
  tracks prev (mem_entries key w) (tl - W) →
  chain Z.le tl times →
  ∃ w',
    check_all self key limit times w
    = (Ok (verdicts limit (counts_from W prev times)), w').
Proof.
  intros Hmem Htr Hch.
  apply (check_all_counts (λ prev w tl, tracks prev (mem_entries key w) (tl - W))
           Z.le) with (tl := tl); [|done|done].
  clear Htr Hch. intros prev' w' tl' t Htr Hle.
  rename prev' into prev0, w' into w0.
  destruct (check_memory t w0 Hmem) as (w1 & Hcall & Hent & _).
  destruct (tracks_step _ _ _ _ Htr Hle) as [Hkept Htr'].
  exists w1. split; [by rewrite Hcall, Hkept|]. by rewrite Hent.
Qed.

End limiter.

(** ** Rate limiter: the Redis store *)
Section redis.

Implicit Types (db : Redis.keyspace) (k : RedisKey) (key : string).

Lemma live_Some now db key k :
  Redis.live now db key = Some k ↔ db !! key = Some k ∧ alive now k.
Proof.
  unfold Redis.live, alive. destruct (db !! key) as [k0|];
    [|split; [done|by intros [? _]]].
  destruct (expire_at k0) as [d|] eqn:Hd.
  - destruct (decide (d ≤ now)); split.
    + done.
    + intros [[= ->] Hal]. by rewrite Hd in Hal.
    + intros [= ->]. by rewrite Hd.
    + by intros [[= ->] _].
  - split; [intros [= ->]; by rewrite Hd|by intros [[= ->] _]].
Qed.

Lemma live_insert now db key k :
  alive now k → Redis.live now (<[key := k]> db) key = Some k.
Proof. intros Hal. apply live_Some. by rewrite lookup_insert_eq. Qed.

Lemma live_delete now db key : Redis.live now (delete key db) key = None.
Proof. unfold Redis.live. by rewrite lookup_delete_eq. Qed.

Lemma zcard_expire key (W now : Z) db k :
  alive now k →
  Redis.zcard key now (<[key := k]> db)
  = (Z.of_nat (size (members k)), <[key := k]> db)
  ∧ Redis.expire key W now (<[key := k]> db)
    = (1,
       if decide (W ≤ 0) then delete key db
       else <[key := {| members := members k;
                        expire_at := Some (now + W) |}]> db).
Proof.
  intros Hal. unfold Redis.zcard, Redis.expire.
  rewrite live_insert by done. split; [done|].
  destruct (decide (W ≤ 0)); by rewrite ?delete_insert_eq, ?insert_insert_eq.
Qed.

(** The last three commands on a key that is absent. *)
Lemma pipeline_tail_absent key (W now : Z) db member :
  ∃ r2 r4 db2,
    Redis.zadd key member now now (delete key db) = (r2, db2)
    ∧ Redis.zcard key now db2
      = (Z.of_nat (size (<[member := now]> (∅ : gmap string Z))), db2)
    ∧ Redis.expire key W now db2
      = (r4,
         if decide (W ≤ 0) then delete key db
         else <[key := {| members := <[member := now]> ∅;
                          expire_at := Some (now + W) |}]> db).
Proof.
  unfold Redis.zadd. rewrite live_delete. eexists _, _, _.
  split; [reflexivity|].
  destruct (zcard_expire key W now (delete key db)
              {| members := {[member := now]}; expire_at := None |} I)
    as [Hcard Hexp].
  rewrite Hcard, Hexp. simpl. rewrite insert_empty. split; [done|].
  destruct (decide (W ≤ 0)); by rewrite ?delete_delete_eq, ?insert_delete_eq.
Qed.

(** What the transaction of the rate limiter computes: the members in
    the closed score range are dropped, the member of the current second
    is written, and the answer to [ZCARD] is the size of the result; the
    key is left with a fresh time to live, or deleted when the window is
    not positive. *)
Lemma pipeline_spec key (ws now W : Z) db :
  ∃ r1 r2 r4,
    RateLimitingMiddleware.pipeline_execute key ws now W db
    = ((r1, r2,
        Z.of_nat
          (size (<[str (PInt now) := now]>
                   (filter (λ ms : string * Z, ¬ (0 ≤ ms.2 ≤ ws))
                      (live_members now db key)))),
        r4),
       if decide (W ≤ 0) then delete key db
       else <[key := {| members :=
                          <[str (PInt now) := now]>
                            (filter (λ ms : string * Z, ¬ (0 ≤ ms.2 ≤ ws))
                               (live_members now db key));
                        expire_at := Some (now + W) |}]> db).
Proof.
  unfold RateLimitingMiddleware.pipeline_execute, live_members,
    Redis.zremrangebyscore.
  destruct (Redis.live now db key) as [k|] eqn:Hlive.
  - apply live_Some in Hlive as [Hdb Hal].
    set (kept := filter (λ ms : string * Z, ¬ (0 ≤ ms.2 ≤ ws)) (members k)).
    destruct (decide (kept = ∅)) as [Hk|Hk].
    + rewrite Hk.
      destruct (pipeline_tail_absent key W now db (str (PInt now)))
        as (r2 & r4 & db2 & Hadd & Hcard & Hexp).
      rewrite Hadd, Hcard, Hexp. by eexists _, _, _.
    + unfold Redis.zadd.
      rewrite live_insert by done. simpl.
      destruct (zcard_expire key W now
                  (<[key := {| members := kept; expire_at := expire_at k |}]> db)
                  {| members := <[pretty now := now]> kept;
                     expire_at := expire_at k |} Hal)
        as [Hcard Hexp].
      rewrite Hcard, Hexp. simpl. eexists _, _, _. f_equal.
      destruct (decide (W ≤ 0)); by rewrite ?delete_insert_eq, ?insert_insert_eq.
  - rewrite map_filter_empty.
    destruct (pipeline_tail_absent key W now db (str (PInt now)))
      as (r2 & r4 & db2 & Hadd & Hcard & Hexp).
    rewrite Hadd, Hcard, Hexp. by eexists _, _, _.
Qed.

Lemma zentry_keys (E : list Z) : (zentry <$> E).*1 = pretty <$> E.
Proof. rewrite <- list_fmap_compose. by apply list_fmap_ext. Qed.

Lemma zentry_key_fresh (x : Z) (E : list Z) :
  x ∉ E → pretty x ∉ (zentry <$> E).*1.
Proof.
  intros Hx. rewrite zentry_keys. intros (y & Heq & Hy)%list_elem_of_fmap.
  apply (inj pretty) in Heq. by subst.
Qed.

Lemma zentry_keys_NoDup (E : list Z) : NoDup E → NoDup (zentry <$> E).*1.
Proof. intros. rewrite zentry_keys. by apply NoDup_fmap_2; [apply _|]. Qed.

(** Dropping the closed score range from the sorted set of [E] leaves
    the sorted set of the entries of [E] above the range. *)
Lemma filter_zentries (ws : Z) (E : list Z) :
  Forall (λ x, 0 ≤ x) E → NoDup E →
  filter (λ ms : string * Z, ¬ (0 ≤ ms.2 ≤ ws))
    (list_to_map (zentry <$> E) : gmap string Z)
  = list_to_map (zentry <$> filter (λ x, ws < x) E).
Proof.
  induction E as [|x E IH]; intros Hpos Hnd.
  - rewrite filter_nil. apply map_filter_empty.
  - apply Forall_cons in Hpos as [Hx Hpos]. apply NoDup_cons in Hnd as [Hfresh Hnd].
    rewrite fmap_cons. change (zentry x) with (pretty x, x).
    rewrite list_to_map_cons, map_filter_insert. simpl.
    destruct (decide (¬ (0 ≤ x ≤ ws))) as [Hkeep|Hdrop].
    + rewrite filter_cons_True by lia. rewrite fmap_cons.
      change (zentry x) with (pretty x, x). rewrite list_to_map_cons.
      by rewrite IH.
    + rewrite filter_cons_False by lia.
      rewrite delete_id
        by (apply not_elem_of_list_to_map_1; by apply zentry_key_fresh).
      by apply IH.
Qed.

Lemma insert_zentries (t : Z) (K : list Z) :
  t ∉ K →
  <[pretty t := t]> (list_to_map (zentry <$> K) : gmap string Z)
  = list_to_map (zentry <$> (K ++ [t])).
Proof.
  intros Ht. rewrite fmap_app.
  change (zentry <$> [t]) with [(pretty t, t)].
  by rewrite list_to_map_snoc by (by apply zentry_key_fresh).
Qed.

Lemma size_zentries (E : list Z) :
  NoDup E → size (list_to_map (zentry <$> E) : gmap string Z) = length E.
Proof.
  intros Hnd. rewrite map_size_list_to_map by (by apply zentry_keys_NoDup).
  by rewrite length_fmap.
Qed.

End redis.

Section redis_limiter.
Variables (self : RateLimitingMiddleware.t) (key : string) (limit : Z).

Abbreviation W := (RateLimitingMiddleware.window_size self).

Lemma filter_above_all (ws : Z) (l : list Z) :
  Forall (λ x, x ≤ ws) l → filter (λ x, ws < x) l = [].
Proof.
  induction 1 as [|x l Hx _ IH]; [done|].
  by rewrite filter_cons_False by lia.
Qed.

(** The members a call at [t] finds, once the old ones are dropped. *)
Lemma redis_kept (prev : list Z) (w : World) (tl t : Z) :
  redis_tracks self key prev w tl → tl < t →
  ∃ K,
    filter (λ ms : string * Z, ¬ (0 ≤ ms.2 ≤ t - W))
      (live_members t (redis_keys w) key)
    = list_to_map (zentry <$> K)
    ∧ K = filter (λ x, t - W < x) prev
    ∧ NoDup K ∧ Forall (λ x, 0 ≤ x ≤ tl) K.
Proof.
  intros (Hprev & E & Htr & Hnd & Hbound & Hstate) Hlt.
  assert (filter (λ x, t - W < x) E = filter (λ x, t - W < x) prev) as HK
    by (apply Htr; lia).
  exists (filter (λ x, t - W < x) E). rewrite <- HK.
  split; [|split; [done|split]].
  - unfold live_members.
    destruct (Redis.live t (redis_keys w) key) as [k|] eqn:Hlive.
    + apply live_Some in Hlive as [Hdb Hal].
      destruct Hstate as [[Hnone _]|Hsome]; [by rewrite Hnone in Hdb|].
      rewrite Hsome in Hdb. injection Hdb as <-. simpl.
      apply filter_zentries; [|done].
      eapply Forall_impl; [exact Hbound|]. simpl. lia.
    + rewrite map_filter_empty.
      destruct Hstate as [[_ ->]|Hsome]; [by rewrite filter_nil|].
      assert (¬ alive t {| members := list_to_map (zentry <$> E);
                           expire_at := Some (tl + W) |}) as Hdead.
      { intros Hal. assert (Redis.live t (redis_keys w) key
                            = Some {| members := list_to_map (zentry <$> E);
                                      expire_at := Some (tl + W) |}) as Hl
          by (by apply live_Some).
        by rewrite Hl in Hlive. }
      unfold alive in Hdead. simpl in Hdead.
      rewrite filter_above_all; [done|].
      eapply Forall_impl; [exact Hbound|]. simpl. lia.
  - by apply NoDup_filter.
  - rewrite Forall_forall in Hbound |- *.
    intros x [_ Hx]%list_elem_of_filter. by apply Hbound.
Qed.

Lemma check_redis (prev : list Z) (w : World) (tl t : Z) :
  is_Some (RateLimitingMiddleware.redis self) →
  redis_tracks self key prev w tl → tl < t → 0 ≤ t →
  ∃ w',
    RateLimitingMiddleware._check_rate_limit self key limit t w
    = (Ok (bool_decide
             (Z.of_nat (length (filter (λ x, t - W < x) prev)) + 1 ≤ limit),
           Z.of_nat (length (filter (λ x, t - W < x) prev)) + 1),
       w')
    ∧ redis_tracks self key (prev ++ [t]) w' t.
Proof.
  intros [c Hredis] Hinv Hlt Hpos.
  destruct (redis_kept prev w tl t Hinv Hlt) as (K & Hkept & HK & HndK & HbK).
  destruct Hinv as (Hprev & E & Htr & Hnd & Hbound & Hstate).
  unfold RateLimitingMiddleware._check_rate_limit. rewrite Hredis.
  destruct (pipeline_spec key (t - W) t W (redis_keys w))
    as (r1 & r2 & r4 & Hpipe).
  rewrite Hpipe, Hkept. clear Hpipe.
  assert (t ∉ K) as HtK.
  { intros Hin. rewrite Forall_forall in HbK. specialize (HbK _ Hin). lia. }
  change (str (PInt t)) with (pretty t).
  rewrite insert_zentries by done.
  assert (NoDup (K ++ [t])) as HndK'.
  { apply NoDup_app. split; [done|]. split; [|apply NoDup_singleton].
    intros x Hx ->%list_elem_of_singleton. done. }
  rewrite size_zentries by done. rewrite length_app, Nat2Z.inj_add. simpl.
  rewrite <- HK. eexists. split; [reflexivity|].
  split.
  { apply Forall_app. split; [|by repeat constructor].
    eapply Forall_impl; [exact Hprev|]. simpl. lia. }
  destruct (decide (W ≤ 0)) as [HW|HW].
  - exists []. split; [|split; [constructor|split; [constructor|]]].
    + intros ws Hws. rewrite filter_nil. symmetry. apply filter_above_all.
      apply Forall_app. split; [|repeat constructor; lia].
      eapply Forall_impl; [exact Hprev|]. simpl. lia.
    + left. simpl. by rewrite lookup_delete_eq.
  - exists (K ++ [t]). split; [|split; [done|split]].
    + destruct (tracks_step self prev E tl t Htr) as [HKE Htr']; [lia|].
      by rewrite HK, <- HKE.
    + apply Forall_app. split; [|repeat constructor; lia].
      eapply Forall_impl; [exact HbK|]. simpl. lia.
    + right. simpl. by rewrite lookup_insert_eq.
Qed.

Lemma check_all_redis (times prev : list Z) (w : World) (tl : Z) :
  is_Some (RateLimitingMiddleware.redis self) →
  redis_tracks self key prev w tl →
  chain (λ a b, a < b ∧ 0 ≤ b) tl times →
  ∃ w',
    check_all self key limit times w
    = (Ok (verdicts limit (counts_from W prev times)), w').
Proof.
  intros Hredis Hinv Hch.
  apply (check_all_counts self key limit (redis_tracks self key) (λ a b, a < b ∧ 0 ≤ b))
    with (tl := tl); [|done|done].
  intros prev0 w0 tl0 t Hinv0 [Hlt Hpos]. by apply (check_redis prev0 w0 tl0 t).
Qed.

End redis_limiter.

(** ** Rate limiter: the claims *)
Section rate_limit_claims.

Lemma chain_le_sorted (tl : Z) (times : list Z) :
  StronglySorted Z.lt times → Forall (λ x, tl ≤ x) times → chain Z.le tl times.
Proof.
  intros Hs. revert tl. induction Hs as [|t times Hs IH Hall]; intros tl Hlo.
  - exact I.
  - apply Forall_cons in Hlo as [Ht _]. split; [done|]. apply IH.
    eapply Forall_impl; [exact Hall|]. simpl. lia.
Qed.

Lemma chain_lt_sorted (tl : Z) (times : list Z) :
  StronglySorted Z.lt times → Forall (λ x, tl < x ∧ 0 ≤ x) times →
  chain (λ a b, a < b ∧ 0 ≤ b) tl times.
Proof.
  intros Hs. revert tl. induction Hs as [|t times Hs IH Hall]; intros tl Hlo.
  - exact I.
  - apply Forall_cons in Hlo as [Ht Hlo]. split; [done|]. apply IH.
    rewrite Forall_forall in Hall, Hlo |- *. intros x Hx.
    split; [by apply Hall|by apply Hlo].
Qed.

(** From a fresh limiter, the checks at strictly increasing readings give
    the verdicts of the specification, with either store. *)
Lemma check_all_fresh (self : RateLimitingMiddleware.t) (key : string)
    (limit : Z) (times : list Z) :
  StronglySorted Z.lt times →
  (is_Some (RateLimitingMiddleware.redis self) → Forall (λ x, 0 ≤ x) times) →
  ∃ w,
    check_all self key limit times initial_world
    = (Ok (verdicts limit
             (counts_from (RateLimitingMiddleware.window_size self) [] times)),
       w).
Proof.
  intros Hs Hpos.
  destruct (RateLimitingMiddleware.redis self) as [c|] eqn:Hredis.
  - apply (check_all_redis self key limit times [] initial_world (-1)).
    + by rewrite Hredis.
    + split; [constructor|]. exists []. split; [done|].
      split; [constructor|]. split; [constructor|]. left. split; [|done].
      apply lookup_empty.
    + apply chain_lt_sorted; [done|].
      specialize (Hpos ltac:(done)). eapply Forall_impl; [exact Hpos|].
      simpl. lia.
  - destruct times as [|t times].
    + by eexists.
    + apply (check_all_memory self key limit (t :: times) [] initial_world t);
        [done|done|].
      apply chain_le_sorted; [done|].
      apply StronglySorted_inv in Hs as [_ Hall].
      constructor; [lia|]. eapply Forall_impl; [exact Hall|]. simpl. lia.
Qed.

(** C1.  The checks of one key with one limit, made on a fresh limiter at
    strictly increasing clock readings, all return, and in every trailing
    slice of [window_size] seconds the permitted calls are at most
    [limit].  The limit is a count, so not negative; with the Redis store
    the readings are seconds since the epoch, so not negative either. *)
Theorem permitted_calls_never_exceed_limit (self : RateLimitingMiddleware.t)
    (key : string) (limit : Z) (times : list Z) :
  StronglySorted Z.lt times →
  0 ≤ limit →
  (is_Some (RateLimitingMiddleware.redis self) → Forall (λ x, 0 ≤ x) times) →
  ∃ results w,
    check_all self key limit times initial_world = (Ok results, w)
    ∧ length results = length times
    ∧ ∀ t,
        Z.of_nat
          (permitted_in_slice (RateLimitingMiddleware.window_size self) t
             times results)
        ≤ limit.
Proof.
  intros Hs Hlimit Hpos.
  destruct (check_all_fresh self key limit times Hs Hpos) as (w & Hrun).
  eexists _, w. split; [exact Hrun|]. split.
  - by rewrite verdicts_length, counts_from_length.
  - intros t. by apply permitted_counts_bounded.
Qed.





End rate_limit_claims.

(** ** Rate limiter: the boundary with the in-memory store *)
Section memory_boundary.

Lemma filter_all (P : Z → Prop) `{!∀ x, Decision (P x)} (l : list Z) :
  Forall P l → filter P l = l.
Proof.
  induction 1 as [|x l Hx _ IH]; [done|].
  by rewrite filter_cons_True, IH.
Qed.

(** Calls that all lie within one window of each other count 1, 2, 3
    and so on. *)
Lemma counts_within_window (W : Z) (prev times : list Z) :
  (∀ x y, x ∈ prev ++ times → y ∈ times → y - W < x) →
  counts_from W prev times
  = (λ i : nat, Z.of_nat i) <$> seq (S (length prev)) (length times).
Proof.
  revert prev. induction times as [|t times IH]; intros prev Hwin; [done|].
  simpl. f_equal.
  - rewrite filter_all; [lia|]. apply Forall_forall. intros x Hx.
    apply Hwin; [apply elem_of_app; by left|by left].
  - rewrite IH.
    + by rewrite length_app, Nat.add_1_r.
    + intros x y Hx Hy. apply Hwin; [|by right].
      rewrite <- app_assoc in Hx. exact Hx.
Qed.

Lemma chain_le_nondecreasing (tl : Z) (times : list Z) :
  StronglySorted Z.le times → Forall (λ x, tl ≤ x) times → chain Z.le tl times.
Proof.
  intros Hs. revert tl. induction Hs as [|t times Hs IH Hall]; intros tl Hlo.
  - exact I.
  - apply Forall_cons in Hlo as [Ht _]. split; [done|]. by apply IH.
Qed.

(** (X2) The in-memory store at the boundary of the limit: on a fresh limiter,
    calls at non-decreasing readings that all lie within one window of
    each other see the counts 1, 2, 3, ...; so the call number [limit] is
    permitted and the call number [limit + 1] is rejected, also when
    calls share a second. *)
Theorem memory_limit_boundary (self : RateLimitingMiddleware.t) (key : string)
    (limit : Z) (times : list Z) :
  RateLimitingMiddleware.redis self = None →
  StronglySorted Z.le times →
  (∀ x y, x ∈ times → y ∈ times →
          y - RateLimitingMiddleware.window_size self < x) →
  ∃ w,
    check_all self key limit times initial_world
    = (Ok ((λ i : nat, (bool_decide (Z.of_nat i ≤ limit), Z.of_nat i))
           <$> seq 1 (length times)),
       w).
Proof.
  intros Hmem Hs Hwin.
  assert (∃ w,
    check_all self key limit times initial_world
    = (Ok (verdicts limit
             (counts_from (RateLimitingMiddleware.window_size self) [] times)),
       w)) as (w & Hrun).
  { destruct times as [|t times]; [by eexists|].
    apply (check_all_memory self key limit (t :: times) [] initial_world t);
      [done|done|].
    apply chain_le_nondecreasing; [done|].
    apply StronglySorted_inv in Hs as [_ Hall]. constructor; [lia|done]. }
  exists w. rewrite Hrun. do 2 f_equal. unfold verdicts.
  rewrite counts_within_window by done. simpl.
  by rewrite <- list_fmap_compose.
Qed.

(** (X3) A call the check does not permit is answered by the stage itself:
    status 429, a [Retry-After] header that holds the window size, one
    warning in the log, and no part for [call_next]. *)
Theorem rate_limit_rejection_response (self : RateLimitingMiddleware.t)
    (request : Request.t) (now count : Z) (w w1 : World) :
  Request.url_path request ∉ RateLimitingMiddleware.exclude_paths self →
  RateLimitingMiddleware._check_rate_limit self (rate_limit_key request)
    (RateLimitingMiddleware._get_rate_limit self (Request.url_path request))
    now w
  = (Ok (false, count), w1) →
  ∃ response record,
    (∀ call_next : CallNext,
       RateLimitingMiddleware.dispatch self request now call_next w
       = (Ok response,
          {| _requests := _requests w1;
             redis_keys := redis_keys w1;
             log := log w1 ++ [record] |}))
    ∧ Response.status_code response = 429
    ∧ Response.headers_get "Retry-After" response
      = Some (str (PInt (RateLimitingMiddleware.window_size self))).
Proof.
  intros Hpath Hcheck. eexists _, _. split; [|split].
  - intros call_next. unfold RateLimitingMiddleware.dispatch.
    rewrite decide_False by done.
    unfold rate_limit_key in Hcheck. unfold mbind, M_bind.
    rewrite Hcheck. simpl. unfold logger, mret, M_ret. reflexivity.
  - reflexivity.
  - reflexivity.
Qed.

End memory_boundary.

(** ** Rate limiter: the Redis store within one second *)
Section redis_one_second.
Variables (self : RateLimitingMiddleware.t) (key : string) (limit : Z).

Abbreviation W := (RateLimitingMiddleware.window_size self).

(** A check in Redis mode at time [t] that finds the key absent, or
    holding the member of [t] alone, answers with the count 1 and leaves
    the member of [t] alone. *)
Lemma check_redis_same_second (t : Z) (w : World) :
  is_Some (RateLimitingMiddleware.redis self) → 0 < W → 0 ≤ t →
  live_members t (redis_keys w) key = ∅
  ∨ live_members t (redis_keys w) key = {[pretty t := t]} →
  ∃ w',
    RateLimitingMiddleware._check_rate_limit self key limit t w
    = (Ok (bool_decide (1 ≤ limit), 1), w')
    ∧ live_members t (redis_keys w') key = {[pretty t := t]}.
Proof.
  intros [c Hredis] HW Ht Hlive.
  destruct (pipeline_spec key (t - W) t W (redis_keys w))
    as (r1 & r2 & r4 & Hpipe).
  rewrite decide_False in Hpipe by lia.
  assert (<[str (PInt t) := t]>
            (filter (λ ms : string * Z, ¬ (0 ≤ ms.2 ≤ t - W))
               (live_members t (redis_keys w) key))
          = ({[pretty t := t]} : gmap string Z)) as Hm2.
  { change (str (PInt t)) with (pretty t). destruct Hlive as [->| ->].
    - by rewrite map_filter_empty, insert_empty.
    - rewrite map_filter_singleton_True by (simpl; lia).
      by rewrite insert_singleton_eq. }
  rewrite Hm2, map_size_singleton in Hpipe.
  unfold RateLimitingMiddleware._check_rate_limit. rewrite Hredis, Hpipe.
  eexists. split; [reflexivity|]. simpl.
  unfold live_members. rewrite live_insert; [done|]. unfold alive. simpl. lia.
Qed.

(** (X4) With the Redis store, any number of calls for one key within
    one second all see the count 1: on a limiter with a positive window
    and a limit of at least one none of them is rejected. *)
Theorem redis_same_second_calls (t : Z) (n : nat) :
  is_Some (RateLimitingMiddleware.redis self) → 0 < W → 0 ≤ t →
  ∃ w,
    check_all self key limit (replicate n t) initial_world
    = (Ok (replicate n (bool_decide (1 ≤ limit), 1)), w).
Proof.
  intros Hredis HW Ht.
  assert (∀ w,
    live_members t (redis_keys w) key = ∅
    ∨ live_members t (redis_keys w) key = {[pretty t := t]} →
    ∃ w',
      check_all self key limit (replicate n t) w
      = (Ok (replicate n (bool_decide (1 ≤ limit), 1)), w')) as Hgen.
  { induction n as [|n IH]; intros w Hlive; [by eexists|].
    destruct (check_redis_same_second t w Hredis HW Ht Hlive)
      as (w1 & Hcall & Hlive1).
    destruct (IH w1 (or_intror Hlive1)) as (w2 & Hrest).
    exists w2. simpl. unfold mbind, M_bind. by rewrite Hcall, Hrest. }
  apply Hgen. left. reflexivity.
Qed.

End redis_one_second.

(** ** The Redis store and requests of one second *)

(** C6, requests of one second.  Two requests of one client to one path
    arrive in the same second at a limiter of one request per minute.
    With the in-memory store the checks count 1 and 2 and the second
    request is answered 429 with [Retry-After: 60].  With the Redis store
    both checks count 1 and the second request reaches the handler: the
    sorted set names a request by its second, so the two are one member. *)
Theorem redis_same_second_requests_pass :
  (check_all (demo_limiter (Some Redis.Client))
     "rate_limit:203.0.113.9:/api/users/me" 1 [100; 100] initial_world).1
  = Ok [(true, 1); (true, 1)]
  ∧ (check_all (demo_limiter None)
       "rate_limit:203.0.113.9:/api/users/me" 1 [100; 100] initial_world).1
    = Ok [(true, 1); (false, 2)]
  ∧ second_response (Some Redis.Client) = Ok (Response.__init__ "ok" 200 [])
  ∧ second_response None
    = Ok (Response.__init__ "Too Many Requests" 429 [("Retry-After", "60")])
  ∧ Response.headers_get "Retry-After"
      (Response.__init__ "Too Many Requests" 429 [("Retry-After", "60")])
    = Some "60".
Proof. repeat split; by vm_compute. Qed.

(** ** The boundary of the window and the entry of a second *)


(** ** Security headers: what the stage leaves on a response *)
Section headers_enforced.

Implicit Types (l : list (string * string)) (k v : string).

Lemma raw_get_cons k k0 v0 l :
  raw_get k ((k0, v0) :: l) = if decide (k0 = k) then Some v0 else raw_get k l.
Proof.
  unfold raw_get. simpl. destruct (decide (k0 = k)); [done|].
  by destruct (list_find _ l) as [[i kv]|].
Qed.

Lemma raw_get_setitem_eq k v l : raw_get k (Response.setitem_raw k v l) = Some v.
Proof.
  induction l as [|[k0 v0] l IH]; simpl.
  - by rewrite raw_get_cons, decide_True.
  - destruct (decide (k0 = k)) as [->|Hne].
    + by rewrite raw_get_cons, decide_True.
    + by rewrite raw_get_cons, decide_False.
Qed.

Lemma raw_get_filter_ne k k' l :
  k ≠ k' →
  raw_get k (filter (λ kv : string * string, kv.1 ≠ k') l) = raw_get k l.
Proof.
  intros Hne. induction l as [|[k0 v0] l IH]; [done|].
  destruct (decide (k0 = k')) as [->|Hk0].
  - rewrite filter_cons_False by (simpl; tauto).
    by rewrite raw_get_cons, decide_False by done.
  - rewrite filter_cons_True by done. rewrite !raw_get_cons, IH. done.
Qed.

Lemma raw_get_setitem_ne k k' v' l :
  k ≠ k' → raw_get k (Response.setitem_raw k' v' l) = raw_get k l.
Proof.
  intros Hne. induction l as [|[k0 v0] l IH]; simpl.
  - by rewrite raw_get_cons, decide_False.
  - destruct (decide (k0 = k')) as [->|Hk0].
    + rewrite !raw_get_cons, !decide_False by done.
      by apply raw_get_filter_ne.
    + by rewrite !raw_get_cons, IH.
Qed.

Lemma header_count_filter_eq k l :
  header_count k (filter (λ kv : string * string, kv.1 ≠ k) l) = 0%nat.
Proof.
  unfold header_count. rewrite list_filter_filter.
  induction l as [|[k0 v0] l IH]; [done|].
  rewrite filter_cons_False by (simpl; tauto). exact IH.
Qed.

Lemma header_count_filter_ne k k' l :
  k ≠ k' →
  header_count k (filter (λ kv : string * string, kv.1 ≠ k') l)
  = header_count k l.
Proof.
  intros Hne. unfold header_count. rewrite list_filter_filter.
  f_equal. apply list_filter_iff. intros [k0 v0]. simpl. split; [tauto|].
  intros ->. done.
Qed.

Lemma header_count_setitem_eq k v l :
  header_count k (Response.setitem_raw k v l) = 1%nat.
Proof.
  induction l as [|[k0 v0] l IH]; simpl.
  - unfold header_count. by rewrite filter_cons_True.
  - destruct (decide (k0 = k)) as [->|Hne].
    + pose proof (header_count_filter_eq k l) as Hz. unfold header_count in *.
      rewrite filter_cons_True by done. simpl. by rewrite Hz.
    + unfold header_count in *. by rewrite filter_cons_False.
Qed.

Lemma header_count_setitem_ne k k' v' l :
  k ≠ k' →
  header_count k (Response.setitem_raw k' v' l) = header_count k l.
Proof.
  intros Hne. induction l as [|[k0 v0] l IH]; simpl.
  - unfold header_count. by rewrite filter_cons_False by (simpl; congruence).
  - destruct (decide (k0 = k')) as [->|Hk0].
    + pose proof (header_count_filter_ne k k' l Hne) as Hf.
      unfold header_count in *.
      rewrite !filter_cons_False by (simpl; congruence). exact Hf.
    + unfold header_count in *. rewrite !filter_cons. simpl.
      destruct (decide (k0 = k)); simpl; by rewrite IH.
Qed.

Lemma other_headers_setitem names k v l :
  k ∈ names →
  other_headers names (Response.setitem_raw k v l) = other_headers names l.
Proof.
  intros Hin. unfold other_headers.
  induction l as [|[k0 v0] l IH]; simpl.
  - by rewrite filter_cons_False by (simpl; intros Hn; by apply Hn).
  - destruct (decide (k0 = k)) as [->|Hk0].
    + rewrite !filter_cons_False by (simpl; intros Hn; by apply Hn).
      rewrite list_filter_filter. apply list_filter_iff.
      intros [k1 v1]. simpl. split; [by intros [? ?]|]. intros Hk1.
      split; [done|]. intros ->. by apply Hk1.
    + rewrite !filter_cons. simpl. destruct (decide (k0 ∉ names)); by rewrite IH.
Qed.

Lemma set_all_get kvs l k v :
  NoDup kvs.*1 → (k, v) ∈ kvs → raw_get k (set_all kvs l) = Some v.
Proof.
  induction kvs as [|[k0 v0] kvs IH] using rev_ind; [by intros _ ?%elem_of_nil|].
  rewrite fmap_app, NoDup_app. simpl. intros (Hnd & Hfresh & _) Hin.
  rewrite set_all_snoc. apply elem_of_app in Hin as [Hin|Hin].
  - rewrite raw_get_setitem_ne; [by apply IH|].
    intros ->. apply (Hfresh k0); [|by apply list_elem_of_singleton].
    apply list_elem_of_fmap. by exists (k0, v).
  - apply list_elem_of_singleton in Hin as [= -> ->].
    apply raw_get_setitem_eq.
Qed.

Lemma set_all_count kvs l k :
  k ∈ kvs.*1 → header_count k (set_all kvs l) = 1%nat.
Proof.
  induction kvs as [|[k0 v0] kvs IH] using rev_ind; [by intros ?%elem_of_nil|].
  rewrite fmap_app. simpl. intros Hin. rewrite set_all_snoc.
  destruct (decide (k = k0)) as [->|Hne]; [apply header_count_setitem_eq|].
  rewrite header_count_setitem_ne by done. apply IH.
  apply elem_of_app in Hin as [Hin|Hin]; [done|].
  by apply list_elem_of_singleton in Hin.
Qed.

Lemma set_all_other kvs l :
  other_headers kvs.*1 (set_all kvs l) = other_headers kvs.*1 l.
Proof.
  assert (∀ names, (∀ k, k ∈ kvs.*1 → k ∈ names) →
            other_headers names (set_all kvs l) = other_headers names l) as Hgen.
  { induction kvs as [|[k0 v0] kvs IH] using rev_ind; [done|].
    intros names Hsub. rewrite set_all_snoc.
    rewrite other_headers_setitem.
    - apply IH. intros k Hk. apply Hsub. rewrite fmap_app.
      apply elem_of_app. by left.
    - apply Hsub. rewrite fmap_app. apply elem_of_app. right.
      by apply list_elem_of_singleton. }
  by apply Hgen.
Qed.

Lemma headers_get_raw key r :
  Response.headers_get key r = raw_get (lower key) (Response.raw_headers r).
Proof. reflexivity. Qed.

(** (X5) The response the security-headers stage hands on has the status
    and body the handler gave it; each of the seven headers is on it once,
    with the value of the stage, whatever the handler had put under that
    name, in whatever letter case the name is asked for; every other
    header entry is kept, in order.  An error of the handler passes
    through, so no response is stamped then. *)
Theorem security_headers_enforced (request : Request.t) (call_next : CallNext)
    (w : World) :
  match call_next request w with
  | (Ok r, w') =>
      ∃ r',
        SecurityHeadersMiddleware.dispatch request call_next w = (Ok r', w')
        ∧ Response.status_code r' = Response.status_code r
        ∧ Response.body r' = Response.body r
        ∧ (∀ name value,
             (lower name, value) ∈ security_headers →
             Response.headers_get name r' = Some value
             ∧ header_count (lower name) (Response.raw_headers r') = 1%nat)
        ∧ other_headers security_headers.*1 (Response.raw_headers r')
          = other_headers security_headers.*1 (Response.raw_headers r)
  | (Raise e, w') =>
      SecurityHeadersMiddleware.dispatch request call_next w = (Raise e, w')
  end.
Proof.
  rewrite dispatch_stamp.
  destruct (call_next request w) as [[r|e] w']; [|done].
  exists (stamp r). split; [done|]. split; [done|]. split; [done|]. split.
  - intros name value Hin. rewrite headers_get_raw. unfold stamp.
    cbn [Response.raw_headers]. split.
    + apply set_all_get; [apply security_headers_NoDup|done].
    + apply set_all_count. apply list_elem_of_fmap. by exists (lower name, value).
  - unfold stamp. cbn [Response.raw_headers]. apply set_all_other.
Qed.

End headers_enforced.

(** ** Injection screen: what the patterns can match *)
Section screen_alphabet.

Variable ok : ascii → bool.

Lemma all_chars_app (P : ascii → bool) (a b : string) :
  all_chars P (a +:+ b) = all_chars P a && all_chars P b.
Proof.
  induction a as [|x a IH]; [done|].
  change (String x a +:+ b) with (String x (a +:+ b)). simpl.
  by rewrite IH, andb_assoc.
Qed.

Lemma ascii_in_range (a : ascii) :
  In (nat_of_ascii a) (List.seq 0 256) ∧ ascii_of_nat (nat_of_ascii a) = a.
Proof.
  split; [|apply ascii_nat_embedding].
  apply in_seq. pose proof (nat_ascii_bounded a). lia.
Qed.

Lemma char_possible_sound ic c a :
  ok a = true → re.same_char ic c a = true → char_possible ok ic c = true.
Proof.
  intros Hok Hsame. apply existsb_exists. exists (nat_of_ascii a).
  destruct (ascii_in_range a) as [Hin ->]. split; [done|].
  by rewrite Hok, Hsame.
Qed.

Lemma cls_possible_sound c a :
  ok a = true → re.in_cls c a = true → cls_possible ok c = true.
Proof.
  intros Hok Hin. apply existsb_exists. exists (nat_of_ascii a).
  destruct (ascii_in_range a) as [Hrange ->]. split; [done|].
  by rewrite Hok, Hin.
Qed.

(** A continuation that fails on every text of the alphabet makes the
    match fail: the matcher hands on only what is left of its text. *)
Lemma match_lit_cont ic lit prev s k :
  all_chars ok s = true →
  (∀ p s', all_chars ok s' = true → k p s' = false) →
  re.match_lit ic lit prev s k = false.
Proof.
  revert prev s. induction lit as [|c lit IH]; intros prev s Hs Hk; simpl.
  - by apply Hk.
  - destruct s as [|a s]; [done|]. simpl in Hs.
    apply andb_true_iff in Hs as [_ Hs]. rewrite IH by done.
    apply andb_false_r.
Qed.

Lemma match_star_cont c prev s k :
  all_chars ok s = true →
  (∀ p s', all_chars ok s' = true → k p s' = false) →
  re.match_star c k prev s = false.
Proof.
  revert prev. induction s as [|a s IH]; intros prev Hs Hk; simpl.
  - rewrite Hk by done. done.
  - rewrite Hk by done. simpl in Hs. apply andb_true_iff in Hs as [_ Hs].
    rewrite IH by done. apply andb_false_r.
Qed.

Lemma matches_cont ic r prev s k :
  all_chars ok s = true →
  (∀ p s', all_chars ok s' = true → k p s' = false) →
  re.matches ic r prev s k = false.
Proof.
  revert prev s k.
  induction r as [lit|r1 IH1 r2 IH2|r1 IH1 r2 IH2|c|c|];
    intros prev s k Hs Hk; simpl.
  - by apply match_lit_cont.
  - by rewrite IH1, IH2.
  - apply IH1; [done|]. intros p s' Hs'. by apply IH2.
  - by apply match_star_cont.
  - destruct s as [|a s]; [done|]. simpl in Hs.
    apply andb_true_iff in Hs as [_ Hs].
    rewrite match_star_cont by done. apply andb_false_r.
  - rewrite Hk by done. apply andb_false_r.
Qed.

Lemma match_lit_impossible ic lit prev s k :
  lit_possible ok ic lit = false →
  all_chars ok s = true →
  re.match_lit ic lit prev s k = false.
Proof.
  revert prev s. induction lit as [|c lit IH]; intros prev s Hno Hs; [done|].
  simpl. destruct s as [|a s]; [done|]. simpl in Hs, Hno.
  apply andb_true_iff in Hs as [Ha Hs].
  destruct (re.same_char ic c a) eqn:Hsame; [|done].
  rewrite (char_possible_sound ic c a Ha Hsame) in Hno. simpl in Hno.
  by rewrite IH.
Qed.

(** An expression that cannot be read over the alphabet matches no text
    of the alphabet. *)
Lemma matches_impossible ic r prev s k :
  possible ok ic r = false →
  all_chars ok s = true →
  re.matches ic r prev s k = false.
Proof.
  revert prev s k.
  induction r as [lit|r1 IH1 r2 IH2|r1 IH1 r2 IH2|c|c|];
    intros prev s k Hno Hs; simpl in *.
  - by apply match_lit_impossible.
  - apply orb_false_iff in Hno as [Hno1 Hno2]. by rewrite IH1, IH2.
  - apply andb_false_iff in Hno as [Hno|Hno].
    + by apply IH1.
    + apply matches_cont; [done|]. intros p s' Hs'. by apply IH2.
  - done.
  - destruct s as [|a s]; [done|]. simpl in Hs.
    apply andb_true_iff in Hs as [Ha Hs].
    destruct (re.in_cls c a) eqn:Hin; [|done].
    by rewrite (cls_possible_sound c a Ha Hin) in Hno.
  - done.
Qed.

Lemma search_from_impossible (p : re.Pattern) prev s :
  possible ok (re.ignorecase p) (re.body p) = false →
  all_chars ok s = true →
  re.search_from p prev s = false.
Proof.
  intros Hno. revert prev. induction s as [|a s IH]; intros prev Hs; simpl.
  - by rewrite matches_impossible.
  - rewrite matches_impossible by done. simpl in Hs.
    apply andb_true_iff in Hs as [_ Hs]. by apply IH.
Qed.

End screen_alphabet.

Section query_screen.

Import SQLInjectionMiddleware.

Lemma quote_plus_chars (s : string) : all_chars query_char (quote_plus s) = true.
Proof.
  induction s as [|a s IH]; [done|].
  simpl. rewrite all_chars_app, IH, andb_true_r.
  destruct (unreserved a) eqn:Hun.
  - simpl. unfold query_char. by rewrite Hun.
  - destruct (decide (a = " "%char)) as [->|_]; [done|].
    clear. by destruct a as [[] [] [] [] [] [] [] []].
Qed.

Lemma urlencode_chars (query : list (string * string)) :
  all_chars query_char (urlencode query) = true.
Proof.
  induction query as [|[k v] query IH]; [done|].
  destruct query as [|kv query].
  - simpl. by rewrite !all_chars_app, !quote_plus_chars.
  - change (urlencode ((k, v) :: kv :: query))
      with (quote_plus k +:+ "=" +:+ quote_plus v +:+ "&" +:+ urlencode (kv :: query)).
    by rewrite !all_chars_app, !quote_plus_chars, IH.
Qed.

(** The first, second, sixth and seventh pattern need a semicolon, a
    white-space character, a quote or a parenthesis. *)
Lemma dead_patterns (i : nat) (p : re.Pattern) :
  patterns !! i = Some p → i ∈ [0; 1; 5; 6]%nat →
  possible query_char (re.ignorecase p) (re.body p) = false.
Proof.
  intros Hp Hi. repeat (apply elem_of_cons in Hi as [->|Hi]);
    [| | | |by apply elem_of_nil in Hi];
    injection Hp as <-; by vm_compute.
Qed.

Lemma search_dead (i : nat) (p : re.Pattern) (text : string) :
  patterns !! i = Some p → i ∈ [0; 1; 5; 6]%nat →
  all_chars query_char text = true →
  re.search p text = false.
Proof.
  intros Hp Hi Htext. apply search_from_impossible with (ok := query_char);
    [by eapply dead_patterns|done].
Qed.

Lemma check_query_text (self : t) (text : string) :
  all_chars query_char text = true →
  _check_sql_injection self text
  = existsb (λ p, re.search p text) (take 3 (drop 2 patterns)).
Proof.
  intros Htext. unfold _check_sql_injection.
  change patterns with (take 2 patterns ++ take 3 (drop 2 patterns) ++ drop 5 patterns).
  rewrite !existsb_app.
  assert (∀ l : list re.Pattern,
            (∀ p, In p l → ∃ i, patterns !! i = Some p ∧ i ∈ [0; 1; 5; 6]%nat) →
            existsb (λ p, re.search p text) l = false) as Hdead.
  { intros l Hl. apply not_true_is_false.
    intros (p & Hin & Hs)%existsb_exists.
    destruct (Hl p Hin) as (i & Hp & Hi).
    by rewrite (search_dead i p text Hp Hi Htext) in Hs. }
  rewrite (Hdead (take 2 patterns)), (Hdead (drop 5 patterns)).
  - by rewrite orb_false_r.
  - intros p [<-|[<-|[]]]; [exists 5%nat|exists 6%nat];
      (split; [done|apply (bool_decide_unpack _); by vm_compute]).
  - intros p [<-|[<-|[]]]; [exists 0%nat|exists 1%nat];
      (split; [done|apply (bool_decide_unpack _); by vm_compute]).
Qed.

Lemma same_char_dash (a : ascii) :
  re.same_char true "-" a = true → a = "-"%char.
Proof. destruct a as [[] [] [] [] [] [] [] []]; by vm_compute. Qed.

Lemma query_char_not_marker (a : ascii) :
  query_char a = true →
  re.same_char true "#" a = false
  ∧ re.same_char true "/" a = false
  ∧ re.same_char true "*" a = false.
Proof. destruct a as [[] [] [] [] [] [] [] []]; by vm_compute. Qed.

(** The comment-marker pattern, on a text of the query alphabet, finds
    two dashes or nothing: the other three markers are written as
    escapes. *)
Lemma comment_marker_dashes (text : string) (prev : option ascii) (p : re.Pattern) :
  patterns !! 2%nat = Some p →
  all_chars query_char text = true →
  re.search_from p prev text = true → contains "--" text.
Proof.
  intros [= <-]. revert prev.
  induction text as [|a text IH]; intros prev Htext; [done|].
  cbn [re.search_from]. intros [Hm|Hs]%orb_true_iff.
  - simpl in Htext. apply andb_true_iff in Htext as [Ha Htext].
    destruct (query_char_not_marker a Ha) as (H1 & H2 & H3).
    cbn [re.matches re.alts fold_left re.match_lit re.body re.ignorecase] in Hm.
    rewrite H1, H2, H3 in Hm. simpl in Hm.
    rewrite !orb_false_r in Hm.
    apply andb_true_iff in Hm as [Hda Hm]. apply same_char_dash in Hda as ->.
    destruct text as [|b text]; [done|].
    apply andb_true_iff in Hm as [Hdb _]. apply same_char_dash in Hdb as ->.
    by exists "", text.
  - simpl in Htext. apply andb_true_iff in Htext as [_ Htext].
    destruct (IH (Some a) Htext Hs) as (pre & post & ->).
    by exists (String a pre), post.
Qed.

(** (X6) On the text of the query parameters four of the seven patterns
    are dead: the first, second, sixth and seventh need a semicolon, a
    white-space character, a quote or a parenthesis, and [urlencode]
    writes each of these as an escape or a plus sign.  The screen flags
    a query string exactly when it holds two dashes or one of the
    keyword patterns fires; the tautology probe without a comment marker
    behind it is not flagged. *)
Theorem query_screen_patterns (self : t) (query : list (string * string)) :
  (∀ i p, patterns !! i = Some p → i ∈ [0; 1; 5; 6]%nat →
          re.search p (urlencode query) = false)
  ∧ (_check_sql_injection self (urlencode query) = true
     ↔ contains "--" (urlencode query)
       ∨ ∃ p, p ∈ take 2 (drop 3 patterns)
              ∧ re.search p (urlencode query) = true)
  ∧ _check_sql_injection self (urlencode [("q", "' OR 1=1")]) = false.
Proof.
  split; [|split].
  - intros i p Hp Hi. apply (search_dead i p); [done|done|].
    apply urlencode_chars.
  - split.
    + rewrite check_query_text by apply urlencode_chars.
      intros (p & Hin & Hs)%existsb_exists.
      destruct Hin as [<-|Hin].
      * left. by apply (comment_marker_dashes _ None _ eq_refl),
          Hs; apply urlencode_chars.
      * right. exists p. split; [|done]. by apply list_elem_of_In.
    + intros [Hd|(p & Hin & Hs)]; [by apply dashes_flagged|].
      apply screen_or_combined. exists p. split; [|done].
      apply list_elem_of_In. apply list_elem_of_In in Hin.
      unfold patterns. simpl in Hin |- *. tauto.
  - by vm_compute.
Qed.

(** A match right after the character [c] is found by the search of any
    text in which [c] and the matched text follow one another. *)
Lemma search_after_char (p : re.Pattern) (pre : string) (c : ascii)
    (rest : string) (prev : option ascii) :
  re.matches (re.ignorecase p) (re.body p) (Some c) rest (λ _ _, true) = true →
  re.search_from p prev (pre +:+ String c rest) = true.
Proof.
  intros Hm. revert prev. induction pre as [|x pre IH]; intros prev.
  - change ("" +:+ String c rest) with (String c rest).
    cbn [re.search_from]. apply orb_true_iff. right.
    destruct rest; cbn [re.search_from]; by rewrite Hm.
  - change (String x pre +:+ String c rest)
      with (String x (pre +:+ String c rest)).
    cbn [re.search_from]. rewrite IH. apply orb_true_r.
Qed.

Lemma str_app_nil_r (s : string) : s +:+ "" = s.
Proof.
  induction s as [|x s IH]; [done|].
  change (String x (s +:+ "") = String x s). by rewrite IH.
Qed.

(** Where the pair of a parameter stands in the query string. *)
Lemma urlencode_pair (query : list (string * string)) (k v : string) :
  (k, v) ∈ query →
  ∃ pre post,
    urlencode query = pre +:+ quote_plus k +:+ "=" +:+ quote_plus v +:+ post
    ∧ (pre = "" ∨ ∃ pre', pre = pre' +:+ "&")
    ∧ (post = "" ∨ ∃ post', post = "&" +:+ post').
Proof.
  intros Hin. induction query as [|[k0 v0] query IH];
    [by apply elem_of_nil in Hin|].
  apply elem_of_cons in Hin as [[= <- <-]|Hin].
  - exists "". destruct query as [|kv query].
    + exists "". split; [|by split; left].
      simpl. by rewrite str_app_nil_r.
    + exists ("&" +:+ urlencode (kv :: query)). split; [done|].
      split; [by left|right; by eexists].
  - destruct (IH Hin) as (pre & post & Heq & Hpre & Hpost).
    destruct query as [|kv query]; [by apply elem_of_nil in Hin|].
    exists (quote_plus k0 +:+ "=" +:+ quote_plus v0 +:+ "&" +:+ pre), post.
    split; [|split; [|done]].
    + change (urlencode ((k0, v0) :: kv :: query))
        with (quote_plus k0 +:+ "=" +:+ quote_plus v0 +:+ "&"
              +:+ urlencode (kv :: query)).
      rewrite Heq. by rewrite !str_app_assoc.
    + right. destruct Hpre as [->|(pre' & ->)].
      * exists (quote_plus k0 +:+ "=" +:+ quote_plus v0).
        by rewrite !str_app_assoc.
      * exists (quote_plus k0 +:+ "=" +:+ quote_plus v0 +:+ "&" +:+ pre').
        by rewrite !str_app_assoc.
Qed.

(** The keyword pattern that looks for the word. *)
Lemma sql_word_pattern (word : string) :
  word ∈ sql_words →
  ∃ p, p ∈ patterns
       ∧ (∀ prev rest,
            prev = None ∨ prev = Some "&"%char ∨ prev = Some "="%char →
            rest = "" ∨ (∃ rest', rest = "&" +:+ rest')
            ∨ (∃ rest', rest = "=" +:+ rest') →
            re.matches (re.ignorecase p) (re.body p) prev (word +:+ rest)
              (λ _ _, true) = true)
       ∧ quote_plus word = word.
Proof.
  intros Hw. unfold sql_words in Hw.
  repeat (apply elem_of_cons in Hw as [->|Hw]); [..|by apply elem_of_nil in Hw].
  1-2: exists {| re.ignorecase := true;
                 re.body := re.Alt (re.seq [re.Boundary; re.Lit "EXEC"; re.Boundary])
                              (re.seq [re.Boundary; re.Lit "LIKE"; re.Boundary]) |}.
  3-5: exists {| re.ignorecase := true;
                 re.body :=
                   re.Alt (re.Alt (re.seq [re.Boundary; re.Lit "SYSTEM"; re.Boundary])
                                  (re.seq [re.Boundary; re.Lit "USER"; re.Boundary]))
                          (re.seq [re.Boundary; re.Lit "DATABASE"; re.Boundary]) |}.
  all: (split; [apply list_elem_of_In; unfold patterns; simpl; tauto|]).
  all: (split; [|done]).
  all: intros prev rest [->|[->| ->]] [->|[[rest' ->]|[rest' ->]]]; reflexivity.
Qed.

Lemma search_from_here (p : re.Pattern) (prev : option ascii) (s : string) :
  re.matches (re.ignorecase p) (re.body p) prev s (λ _ _, true) = true →
  re.search_from p prev s = true.
Proof. intros Hm. destruct s; cbn [re.search_from]; by rewrite Hm. Qed.

Lemma keyword_flagged (self : t) (query : list (string * string)) (k v : string) :
  (k, v) ∈ query → k ∈ sql_words ∨ v ∈ sql_words →
  _check_sql_injection self (urlencode query) = true.
Proof.
  intros Hin Hword.
  destruct (urlencode_pair query k v Hin) as (pre & post & -> & Hpre & Hpost).
  apply screen_or_combined. destruct Hword as [Hk|Hv].
  - destruct (sql_word_pattern k Hk) as (p & Hp & Hm & ->).
    exists p. split; [done|]. unfold re.search.
    destruct Hpre as [->|(pre' & ->)].
    + apply search_from_here, Hm; [by left|]. right; right. by eexists.
    + rewrite str_app_assoc. apply search_after_char, Hm; [right; by left|].
      right; right. by eexists.
  - destruct (sql_word_pattern v Hv) as (p & Hp & Hm & ->).
    exists p. split; [done|]. unfold re.search.
    rewrite <- (str_app_assoc pre (quote_plus k)).
    apply search_after_char, Hm; [by right; right|].
    destruct Hpost as [->|Hpost]; [by left|right; by left].
Qed.

(** (X7) A request that has a query parameter whose name or value is one
    of the words [exec], [like], [system], [user] and [database] is
    flagged by a keyword pattern; with blocking on, and the client
    address present, the stage answers 400 after one warning and
    [call_next] has no part in the outcome. *)
Theorem keyword_parameter_blocked (self : t) (request : Request.t) (w : World)
    (host : string) (port : Z) (k v : string) :
  (k, v) ∈ Request.query_params request →
  k ∈ sql_words ∨ v ∈ sql_words →
  block_suspicious self = true →
  Request.client request = Some (host, port) →
  _check_sql_injection self (urlencode (Request.query_params request)) = true
  ∧ ∃ record,
      levelname record = WARNING
      ∧ ∀ call_next : CallNext,
          dispatch self request call_next w
          = (Ok (Response.__init__ "Invalid request" 400 []),
             {| _requests := _requests w;
                redis_keys := redis_keys w;
                log := log w ++ [record] |}).
Proof.
  intros Hin Hword Hblock Hclient.
  pose proof (keyword_flagged self _ _ _ Hin Hword) as Hflag.
  split; [exact Hflag|]. eexists. split; [|intros call_next].
  2:{ unfold dispatch, _get_request_data. simpl. rewrite Hflag, Hclient.
      unfold mbind, M_bind, logger, mret, M_ret. rewrite Hblock. reflexivity. }
  reflexivity.
Qed.

(** The loop of the screen when it does not block: every flagged text
    leaves one warning, and the handler is called after the last. *)
Lemma scan_log_only (self : t) (request : Request.t) (call_next : CallNext)
    (host : string) (port : Z) (data : list (string * string)) (w : World) :
  block_suspicious self = false →
  Request.client request = Some (host, port) →
  ∃ records,
    scan self request data call_next w
    = call_next request
        {| _requests := _requests w;
           redis_keys := redis_keys w;
           log := log w ++ records |}
    ∧ length records
      = length (filter (λ kv : string * string,
                          _check_sql_injection self kv.2 = true) data)
    ∧ Forall (λ r, levelname r = WARNING) records.
Proof.
  intros Hblock Hclient. revert w.
  induction data as [|[key value] data IH]; intros w.
  - exists []. simpl. rewrite app_nil_r. by destruct w.
  - cbn [scan]. rewrite filter_cons. cbn [snd].
    destruct (_check_sql_injection self value) eqn:Hflag.
    + rewrite decide_True by done. rewrite Hclient.
      unfold mbind, M_bind, logger. rewrite Hblock.
      destruct (IH {| _requests := _requests w;
                      redis_keys := redis_keys w;
                      log := log w ++
                        [{| levelname := WARNING;
                            message := "Potential SQL injection detected";
                            extra := [("client_ip", host);
                                      ("path", Request.url_path request);
                                      ("method", Request.method request);
                                      ("suspicious_data", key +:+ ": " +:+ value)] |}] |})
        as (records & Hscan & Hlen & Hall).
      eexists (_ :: records). split; [|split].
      * rewrite Hscan. cbn [_requests redis_keys log].
        by rewrite <- app_assoc.
      * simpl. by rewrite Hlen.
      * by constructor.
    + rewrite decide_False by done. apply IH.
Qed.

(** (X8) The screen lets a request through in two cases.  When none of
    its texts is flagged the stage is [call_next] and nothing else,
    whether or not the request has a client address and whatever
    [block_suspicious] is.  When blocking is off (and the client address
    is there to be logged) the handler is called whatever was flagged:
    the stage only adds one warning for each flagged text to the log
    before it. *)
Theorem injection_screen_pass_through (self : t) (request : Request.t)
    (call_next : CallNext) (w : World) :
  (flagged_fields self request = [] →
   dispatch self request call_next w = call_next request w)
  ∧ (block_suspicious self = false →
     is_Some (Request.client request) →
     ∃ records,
       dispatch self request call_next w
       = call_next request
           {| _requests := _requests w;
              redis_keys := redis_keys w;
              log := log w ++ records |}
       ∧ length records = length (flagged_fields self request)
       ∧ Forall (λ r, levelname r = WARNING) records).
Proof.
  split.
  - unfold flagged_fields, dispatch.
    generalize (_get_request_data self request). intros data.
    induction data as [|[key value] data IH]; [done|].
    rewrite filter_cons. cbn [snd scan].
    destruct (_check_sql_injection self value); [by rewrite decide_True|].
    by rewrite decide_False.
  - intros Hblock [[host port] Hclient].
    by apply (scan_log_only self request call_next host port).
Qed.

End query_screen.

(** ** Rate limiter: keys do not interfere *)
Section isolation.
Variables (self : RateLimitingMiddleware.t) (limit : Z).

Abbreviation W := (RateLimitingMiddleware.window_size self).

Lemma live_members_lookup (now : Z) (db1 db2 : Redis.keyspace) (key : string) :
  db1 !! key = db2 !! key →
  live_members now db1 key = live_members now db2 key.
Proof. intros Heq. unfold live_members, Redis.live. by rewrite Heq. Qed.

Lemma mem_entries_redis_keys (key : string) (w : World) (db : Redis.keyspace) :
  mem_entries key
    {| _requests := _requests w; redis_keys := db; log := log w |}
  = mem_entries key w.
Proof. reflexivity. Qed.

(** A check returns, and what it returns and leaves for its key depends
    on the record of that key alone. *)
Lemma check_agree (key : string) (t : Z) (w1 w2 : World) :
  agree key w1 w2 →
  ∃ r w1' w2',
    RateLimitingMiddleware._check_rate_limit self key limit t w1 = (Ok r, w1')
    ∧ RateLimitingMiddleware._check_rate_limit self key limit t w2 = (Ok r, w2')
    ∧ agree key w1' w2'.
Proof.
  intros [Hmem Hdb].
  destruct (RateLimitingMiddleware.redis self) as [c|] eqn:Hredis.
  - unfold RateLimitingMiddleware._check_rate_limit. rewrite Hredis.
    destruct (pipeline_spec key (t - W) t W (redis_keys w1))
      as (r1 & r2 & r4 & ->).
    destruct (pipeline_spec key (t - W) t W (redis_keys w2))
      as (r1' & r2' & r4' & ->).
    rewrite (live_members_lookup t _ _ key Hdb).
    eexists _, _, _. split; [reflexivity|]. split; [reflexivity|].
    split; [done|]. simpl.
    destruct (decide (W ≤ 0)); by rewrite ?lookup_delete_eq, ?lookup_insert_eq.
  - destruct (check_memory self key limit t w1 Hredis)
      as (w1' & Hc1 & He1 & Hr1 & _).
    destruct (check_memory self key limit t w2 Hredis)
      as (w2' & Hc2 & He2 & Hr2 & _).
    rewrite Hmem in Hc1. eexists _, w1', w2'.
    split; [exact Hc1|]. split; [exact Hc2|]. split.
    + by rewrite He1, He2, Hmem.
    + by rewrite Hr1, Hr2.
Qed.

(** A check for one key leaves the record of every other key as it
    was. *)
Lemma check_other (key key' : string) (t : Z) (w : World) :
  key' ≠ key →
  ∃ r w',
    RateLimitingMiddleware._check_rate_limit self key' limit t w = (Ok r, w')
    ∧ agree key w' w.
Proof.
  intros Hne.
  destruct (RateLimitingMiddleware.redis self) as [c|] eqn:Hredis.
  - unfold RateLimitingMiddleware._check_rate_limit. rewrite Hredis.
    destruct (pipeline_spec key' (t - W) t W (redis_keys w))
      as (r1 & r2 & r4 & ->).
    eexists _, _. split; [reflexivity|]. split; [done|]. simpl.
    destruct (decide (W ≤ 0)); by rewrite ?lookup_delete_ne, ?lookup_insert_ne.
  - unfold RateLimitingMiddleware._check_rate_limit. rewrite Hredis.
    eexists _, _. split; [reflexivity|]. split; [|done].
    unfold mem_entries. simpl. rewrite lookup_insert_ne by done.
    destruct (default ∅ (_requests w) !! key') eqn:Hk; [done|].
    by rewrite lookup_insert_ne.
Qed.

Lemma agree_trans (key : string) (w1 w2 w3 : World) :
  agree key w1 w2 → agree key w2 w3 → agree key w1 w3.
Proof. intros [H1 H2] [H3 H4]. split; congruence. Qed.

Lemma check_events_agree (key : string) (events : list (string * Z))
    (w1 w2 : World) :
  agree key w1 w2 →
  ∃ results w1' alone w2',
    check_events self limit events w1 = (Ok results, w1')
    ∧ check_all self key limit (times_of key events) w2 = (Ok alone, w2')
    ∧ length results = length events
    ∧ results_of key events results = alone.
Proof.
  revert w1 w2. induction events as [|[key' t] events IH]; intros w1 w2 Hag.
  - by exists [], w1, [], w2.
  - unfold times_of, results_of. cbn [check_events].
    destruct (decide (key' = key)) as [->|Hne].
    + rewrite filter_cons_True by done. cbn [fmap list_fmap snd check_all].
      destruct (check_agree key t w1 w2 Hag) as (r & w1' & w2' & Hc1 & Hc2 & Hag').
      destruct (IH w1' w2' Hag') as (results & w1'' & alone & w2'' & He & Ha & Hlen & Hres).
      exists (r :: results), w1'', (r :: alone), w2''.
      unfold mbind, M_bind. rewrite Hc1, Hc2.
      fold (times_of key events). rewrite He, Ha.
      split; [done|]. split; [done|]. split; [simpl; by rewrite Hlen|].
      cbn [zip zip_with]. rewrite filter_cons_True by done.
      cbn [fmap list_fmap snd]. f_equal. exact Hres.
    + rewrite filter_cons_False by done.
      destruct (check_other key key' t w1 Hne) as (r & w1' & Hc1 & Hag').
      destruct (IH w1' w2 (agree_trans _ _ _ _ Hag' Hag))
        as (results & w1'' & alone & w2'' & He & Ha & Hlen & Hres).
      exists (r :: results), w1'', alone, w2''.
      unfold mbind, M_bind. rewrite Hc1, He.
      split; [done|]. split; [exact Ha|]. split; [simpl; by rewrite Hlen|].
      cbn [zip zip_with]. rewrite filter_cons_False by done. exact Hres.
Qed.

(** (X9) Keys do not interfere.  In a run of checks for any keys, from
    any state and with either store, every check returns, and the
    verdicts and counts that the checks of one key get are those the key
    gets when its checks are run alone at the same clock readings. *)
Theorem rate_limit_keys_isolated (key : string) (events : list (string * Z))
    (w : World) :
  ∃ results w' alone w'',
    check_events self limit events w = (Ok results, w')
    ∧ check_all self key limit (times_of key events) w = (Ok alone, w'')
    ∧ length results = length events
    ∧ results_of key events results = alone.
Proof. by apply check_events_agree. Qed.

End isolation.

(** ** Rate limiter: what the count of a call is made of *)
Section counting.

Lemma counts_from_lookup (W : Z) (prev times : list Z) (i : nat) (t : Z) :
  times !! i = Some t →
  counts_from W prev times !! i
  = Some (Z.of_nat (length (filter (λ x, t - W < x) (prev ++ take i times))) + 1).
Proof.
  revert prev i. induction times as [|x times IH]; intros prev i Ht; [done|].
  destruct i as [|i]; simpl in *.
  - injection Ht as ->. by rewrite app_nil_r.
  - rewrite (IH _ _ Ht). by rewrite <- app_assoc.
Qed.

Lemma sorted_drop_lower (times : list Z) (i : nat) (tj : Z) :
  StronglySorted Z.lt times → times !! i = Some tj →
  Forall (λ x, tj ≤ x) (drop i times).
Proof.
  intros Hs. revert i. induction Hs as [|t times Hs IH Hall]; intros i Hi; [done|].
  destruct i as [|i]; simpl in *.
  - injection Hi as ->. constructor; [lia|].
    eapply Forall_impl; [exact Hall|]. simpl. lia.
  - by apply IH.
Qed.

(** (X10) A quiet window resets the count.  On a fresh limiter with
    either store, a call that comes when every earlier call of the key
    is a window old or older sees the count 1, however many calls went
    before and whatever their verdicts were. *)
Theorem quiet_window_resets (self : RateLimitingMiddleware.t) (key : string)
    (limit : Z) (times : list Z) (t : Z) :
  StronglySorted Z.lt (times ++ [t]) →
  (is_Some (RateLimitingMiddleware.redis self) →
   Forall (λ x, 0 ≤ x) (times ++ [t])) →
  Forall (λ x, x ≤ t - RateLimitingMiddleware.window_size self) times →
  ∃ results w,
    check_all self key limit (times ++ [t]) initial_world
    = (Ok (results ++ [(bool_decide (1 ≤ limit), 1)]), w)
    ∧ length results = length times.
Proof.
  intros Hs Hpos Hold.
  destruct (check_all_fresh self key limit (times ++ [t]) Hs Hpos) as (w & Hrun).
  rewrite counts_from_snoc in Hrun. unfold verdicts in Hrun.
  rewrite fmap_app in Hrun. simpl in Hrun.
  rewrite filter_above_all in Hrun by done. simpl in Hrun.
  eexists _, w. split; [exact Hrun|].
  by rewrite length_fmap, counts_from_length.
Qed.

(** (X11) Rejected calls count.  On a fresh limiter with either store and
    a limit of [L] calls, a call is rejected whenever the call [L] places
    before it, permitted or not, is less than a window old: a client that
    keeps calling is not let in again by the passing of time alone. *)
Theorem retrying_client_stays_rejected (self : RateLimitingMiddleware.t)
    (key : string) (L : nat) (times : list Z) (i : nat) (tj ti : Z) :
  StronglySorted Z.lt times →
  (is_Some (RateLimitingMiddleware.redis self) → Forall (λ x, 0 ≤ x) times) →
  times !! i = Some tj →
  times !! (i + L)%nat = Some ti →
  ti - RateLimitingMiddleware.window_size self < tj →
  ∃ results w count,
    check_all self key (Z.of_nat L) times initial_world = (Ok results, w)
    ∧ results !! (i + L)%nat = Some (false, count)
    ∧ Z.of_nat L < count.
Proof.
  intros Hs Hpos Hj Hi Hnear.
  destruct (check_all_fresh self key (Z.of_nat L) times Hs Hpos) as (w & Hrun).
  set (W := RateLimitingMiddleware.window_size self) in *.
  set (n := length (filter (λ x, ti - W < x) (take (i + L) times))).
  assert (L ≤ n)%nat as Hn.
  { subst n. rewrite <- take_take_drop, filter_app, length_app.
    assert (filter (λ x, ti - W < x) (take L (drop i times))
            = take L (drop i times)) as ->.
    { apply filter_all. apply Forall_take.
      eapply Forall_impl; [by apply (sorted_drop_lower times i tj)|].
      simpl. lia. }
    rewrite length_take, length_drop. apply lookup_lt_Some in Hi. lia. }
  exists (verdicts (Z.of_nat L) (counts_from W [] times)), w,
    (Z.of_nat n + 1).
  split; [exact Hrun|]. split; [|lia].
  unfold verdicts. rewrite list_lookup_fmap.
  rewrite (counts_from_lookup W [] times (i + L) ti Hi). simpl.
  fold n. by rewrite bool_decide_eq_false_2 by lia.
Qed.

End counting.

(** ** Rate limiter: the keys of requests *)
Section keys.

Lemma host_path_split (h1 h2 p1 p2 : string) :
  ¬ contains "/" h1 → ¬ contains "/" h2 →
  starts_with "/" p1 → starts_with "/" p2 →
  h1 +:+ ":" +:+ p1 = h2 +:+ ":" +:+ p2 →
  h1 = h2 ∧ p1 = p2.
Proof.
  assert (∀ h p p', ¬ contains "/" h → starts_with "/" p →
            ":" +:+ p = h +:+ ":" +:+ p' → h = "" ∧ p = p') as Hbase.
  { intros h p p' Hh [rest ->] Heq. destruct h as [|a h].
    - simpl in Heq. by simplify_eq.
    - exfalso. destruct h as [|b h]; simpl in Heq; [by simplify_eq|].
      simplify_eq. apply Hh. by exists ":", h. }
  revert h2. induction h1 as [|a h1 IH]; intros h2 Hh1 Hh2 Hp1 Hp2 Heq.
  - destruct (Hbase h2 p1 p2 Hh2 Hp1 Heq) as [-> ->]. done.
  - destruct h2 as [|b h2].
    + symmetry in Heq. by destruct (Hbase _ p2 p1 Hh1 Hp2 Heq).
    + injection Heq as -> Heq.
      destruct (IH h2) as [-> ->]; [| |done|done|done|done].
      * intros (pre & post & ->). apply Hh1. by exists (String b pre), post.
      * intros (pre & post & ->). apply Hh2. by exists (String b pre), post.
Qed.

(** (X29) The key of a request tells its client and its path.  The
    limiter files a request under its client host, or under [unknown]
    when it has no client address, and its path.  For hosts without a
    slash and paths that begin with one, two requests have the same key
    only when host and path are the same, so distinct clients and
    distinct paths are counted apart; requests without a client address
    share the key of a client called [unknown]. *)
Theorem rate_limit_key_injective (r1 r2 : Request.t) :
  ¬ contains "/" (client_ip r1) → ¬ contains "/" (client_ip r2) →
  starts_with "/" (Request.url_path r1) →
  starts_with "/" (Request.url_path r2) →
  (rate_limit_key r1 = rate_limit_key r2
   ↔ client_ip r1 = client_ip r2 ∧ Request.url_path r1 = Request.url_path r2)
  ∧ (Request.client r1 = None →
     rate_limit_key r1 = "rate_limit:unknown:" +:+ Request.url_path r1).
Proof.
  intros Hh1 Hh2 Hp1 Hp2.
  assert (∀ r, rate_limit_key r
               = "rate_limit:" +:+ client_ip r +:+ ":" +:+ Request.url_path r)
    as Hkey by done.
  split.
  - rewrite !Hkey. split.
    + intros Heq. apply (host_path_split _ _ _ _ Hh1 Hh2 Hp1 Hp2).
      by simplify_eq/=.
    + by intros [-> ->].
  - intros Hnone. rewrite Hkey. unfold client_ip. by rewrite Hnone.
Qed.

End keys.
(** ** Error translation: which errors are answered *)
Section error_containment.
Context `{Settings} `{Libraries} `{Formatting} `{Json}.

(** The handler of application errors: one log call, then the response,
    whose rendering fails on details without an encoding. *)
Lemma handle_app_exception_plain (request : Request.t) (w1 : World)
    (code status : Z) (detail : string) (details : option Details) :
  brace_free detail = true →
  ExceptionHandlerMiddleware._handle_app_exception code detail status details
    request w1
  = (Response.render_json status
       {| ErrorResponse.error_code := code;
          ErrorResponse.message := detail;
          ErrorResponse.details := details;
          ErrorResponse.trace_id := Request.state_request_id request |},
     logged w1
       {| levelname := ERROR;
          message := "Application error: " +:+ detail;
          extra := [("error_code", str (PInt code));
                    ("path", Request.url_path request);
                    ("method", Request.method request)] |}).
Proof.
  intros Hb.
  unfold ExceptionHandlerMiddleware._handle_app_exception, mbind, M_bind.
  rewrite logger_format_plain by (by rewrite brace_free_app, Hb).
  reflexivity.
Qed.

Lemma render_json_encodable (status : Z) (content : ErrorResponse.t) :
  encodable (ErrorResponse.details content) →
  Response.render_json status content
  = Ok (Response.JSONResponse status content).
Proof.
  unfold Response.render_json, encodable.
  destruct (ErrorResponse.details content) as [[|errors| |[|[]]]|];
    try done.
  by intros ->.
Qed.

Lemma render_json_cases (status : Z) (content : ErrorResponse.t) :
  Response.render_json status content
  = Ok (Response.JSONResponse status content)
  ∨ (∃ e', Response.render_json status content = Raise e')
    ∧ ¬ encodable (ErrorResponse.details content).
Proof.
  unfold Response.render_json, encodable.
  destruct (ErrorResponse.details content) as [[|errors| |[|[]]]|];
    try (by left).
  - destruct (dumps_errors errors) as [[name text]|]; [|by left].
    right. split; [by eexists|]. done.
  - right. split; [by eexists|]. by intros [].
Qed.

Lemma dispatch_app_exception (request : Request.t) (call_next : CallNext)
    (w w1 : World) (code status : Z) (detail : string) (details : option Details) :
  call_next request w = (Raise (AppException code detail status details), w1) →
  brace_free detail = true →
  encodable details →
  ExceptionHandlerMiddleware.dispatch request call_next w
  = (Ok (Response.JSONResponse status
           {| ErrorResponse.error_code := code;
              ErrorResponse.message := detail;
              ErrorResponse.details := details;
              ErrorResponse.trace_id := Request.state_request_id request |}),
     logged w1
       {| levelname := ERROR;
          message := "Application error: " +:+ detail;
          extra := [("error_code", str (PInt code));
                    ("path", Request.url_path request);
                    ("method", Request.method request)] |}).
Proof.
  intros Hcall Hb Hd. unfold ExceptionHandlerMiddleware.dispatch.
  rewrite Hcall, handle_app_exception_plain by done.
  by rewrite render_json_encodable.
Qed.

(** The outcome of the stage on an error of [call_next]: an envelope
    with the request id of the request state after one record, or an
    error of its own, of the log call (nothing is logged then, and the
    text of the error has a brace) or of the rendering (after the
    record, on details without an encoding). *)
Lemma dispatch_error_cases (request : Request.t) (call_next : CallNext)
    (w w1 : World) (e : PyException) :
  call_next request w = (Raise e, w1) →
  (∃ status envelope record,
     ExceptionHandlerMiddleware.dispatch request call_next w
     = (Ok (Response.JSONResponse status envelope), logged w1 record)
     ∧ ErrorResponse.trace_id envelope = Request.state_request_id request
     ∧ (status = 400 ∨ status = 500 ∨ ∃ code msg, app_error e status code msg))
  ∨ (∃ e',
       ExceptionHandlerMiddleware.dispatch request call_next w = (Raise e', w1)
       ∧ brace_free (logged_text e) = false)
  ∨ (∃ e' record,
       ExceptionHandlerMiddleware.dispatch request call_next w
       = (Raise e', logged w1 record)
       ∧ ¬ encodable (details_of e)).
Proof.
  intros Hcall.
  destruct (unhandled_cases e) as [Hun|Hun].
  - rewrite (dispatch_unhandled _ _ _ _ _ Hcall Hun).
    destruct (handle_unknown_error_cases e request w1)
      as [(text & -> & _)|(e' & -> & Hb)].
    + left. eexists _, _, _. split; [reflexivity|]. split; [done|].
      right. by left.
    + right. left. exists e'. split; [done|]. by destruct e.
  - unfold ExceptionHandlerMiddleware.dispatch. rewrite Hcall.
    destruct e as [code detail status details| |errors|text| | | | |];
      try (by exfalso; apply Hun).
    + unfold ExceptionHandlerMiddleware._handle_app_exception, mbind, M_bind.
      match goal with
      | |- context [logger_format ?lvl ?msg ?ex ?more w1] =>
          destruct (logger_format_cases lvl msg ex more w1)
            as [(text & ->)|(e' & -> & Hb)]
      end.
      * unfold ExceptionHandlerMiddleware.json_response.
        match goal with
        | |- context [Response.render_json ?s ?c] =>
            destruct (render_json_cases s c) as [->|[[e' ->] Hd]]
        end.
        -- left. eexists _, _, _. split; [reflexivity|]. split; [done|].
           right. right. eexists _, _, _. reflexivity.
        -- right. right. by eexists _, _.
      * right. left. exists e'. split; [done|].
        rewrite brace_free_app in Hb. exact Hb.
    + unfold ExceptionHandlerMiddleware._handle_validation_error, mbind, M_bind,
        logger, ExceptionHandlerMiddleware.json_response.
      match goal with
      | |- context [Response.render_json ?s ?c] =>
          destruct (render_json_cases s c) as [->|[[e' ->] Hd]]
      end.
      * left. eexists _, _, _. split; [reflexivity|]. split; [done|]. by left.
      * right. right. by eexists _, _.
    + unfold ExceptionHandlerMiddleware._handle_database_error, mbind, M_bind.
      match goal with
      | |- context [logger_format ?lvl ?msg ?ex ?more w1] =>
          destruct (logger_format_cases lvl msg ex more w1)
            as [(text' & ->)|(e' & -> & Hb)]
      end.
      * left. unfold ExceptionHandlerMiddleware.json_response.
        rewrite render_json_encodable by (simpl; by destruct DEBUG).
        eexists _, _, _. split; [reflexivity|]. split; [done|]. right. by left.
      * right. left. exists e'. split; [done|].
        rewrite brace_free_app in Hb. exact Hb.
Qed.

(** (X12) What the stage contains.  A response of [call_next] is handed
    on as it is, with the state [call_next] left.  An error of
    [call_next], an [Exception] of whatever class, becomes one JSON
    envelope that carries the request id of the request state as trace
    id, with a status of 400, 500 or the one of the application error,
    after exactly one record in the log, provided the text of the error
    that goes into the log message has no brace and the details of an
    application error have a JSON encoding.  The stage raises an error of
    its own in no other case: with nothing logged when the text has a
    brace, after its record when the details have no encoding. *)
Theorem exception_handler_contains_errors (request : Request.t)
    (call_next : CallNext) (w : World) :
  match call_next request w with
  | (Ok r, w1) =>
      ExceptionHandlerMiddleware.dispatch request call_next w = (Ok r, w1)
  | (Raise e, w1) =>
      (brace_free (logged_text e) = true →
       encodable (details_of e) →
       ∃ status envelope record,
         ExceptionHandlerMiddleware.dispatch request call_next w
         = (Ok (Response.JSONResponse status envelope), logged w1 record)
         ∧ ErrorResponse.trace_id envelope = Request.state_request_id request
         ∧ (status = 400 ∨ status = 500
            ∨ ∃ code msg, app_error e status code msg))
      ∧ (∀ e' w',
           ExceptionHandlerMiddleware.dispatch request call_next w
           = (Raise e', w') →
           (brace_free (logged_text e) = false ∧ w' = w1)
           ∨ (¬ encodable (details_of e) ∧ ∃ record, w' = logged w1 record))
  end.
Proof.
  destruct (call_next request w) as [[r|e] w1] eqn:Hcall.
  { unfold ExceptionHandlerMiddleware.dispatch. by rewrite Hcall. }
  destruct (dispatch_error_cases request call_next w w1 e Hcall)
    as [(status & envelope & record & Hd & Htrace & Hstatus)
       |[(e1 & Hd & Hb)|(e1 & record & Hd & Henc)]];
    rewrite Hd.
  - split; [|by intros ? ? [=]]. intros _ _. by eexists _, _, _.
  - split; [by rewrite Hb|]. intros e' w' [= <- <-]. by left.
  - split; [by intros _ ?|]. intros e' w' [= <- <-]. right.
    split; [done|]. by eexists.
Qed.

(** (X13) The three classes the stage knows, for an error whose logged
    text has no brace and whose details have a JSON encoding.  An
    application error is answered with its own status, code, message and
    details, the details whether or not [DEBUG] is set.  A validation
    error of pydantic is answered 400 with code 4000 and the list of its
    errors.  A database error is answered 500 with code 5000 and a fixed
    message; its text is in the details only when [DEBUG] is set. *)
Theorem handled_error_envelopes (request : Request.t) (call_next : CallNext)
    (w w1 : World) (e : PyException) :
  call_next request w = (Raise e, w1) →
  brace_free (logged_text e) = true →
  encodable (details_of e) →
  ∃ response record,
    ExceptionHandlerMiddleware.dispatch request call_next w
    = (Ok response, logged w1 record)
    ∧ (∀ code detail status details,
         e = AppException code detail status details →
         response
         = Response.JSONResponse status
             {| ErrorResponse.error_code := code;
                ErrorResponse.message := detail;
                ErrorResponse.details := details;
                ErrorResponse.trace_id := Request.state_request_id request |}
         ∧ levelname record = ERROR
         ∧ message record = "Application error: " +:+ detail)
    ∧ (∀ errors,
         e = PydanticValidationError errors →
         response
         = Response.JSONResponse 400
             {| ErrorResponse.error_code := 4000;
                ErrorResponse.message := "Validation error";
                ErrorResponse.details := Some (DetailErrors errors);
                ErrorResponse.trace_id := Request.state_request_id request |}
         ∧ levelname record = WARNING
         ∧ message record = "Validation error")
    ∧ (∀ text,
         e = SQLAlchemyError text →
         response
         = Response.JSONResponse 500
             {| ErrorResponse.error_code := 5000;
                ErrorResponse.message := "Database error occurred";
                ErrorResponse.details :=
                  if DEBUG then Some (DetailText (exc_str e)) else None;
                ErrorResponse.trace_id := Request.state_request_id request |}
         ∧ levelname record = ERROR
         ∧ message record = "Database error: " +:+ exc_str e).
Proof.
  intros Hcall Hb Hd.
  destruct (unhandled_cases e) as [Hun|Hun].
  - rewrite (dispatch_unhandled _ _ _ _ _ Hcall Hun).
    destruct (handle_unknown_error_cases e request w1)
      as [(text & -> & _)|(e' & _ & Hb')].
    + eexists _, _. split; [reflexivity|].
      by destruct e; (split; [|split]); intros; simplify_eq.
    + destruct e; simpl in *; try done; congruence.
  - destruct e as [code detail status details| |errors|text| | | | |];
      try (by exfalso; apply Hun).
    + rewrite (dispatch_app_exception _ _ _ _ _ _ _ _ Hcall Hb Hd).
      eexists _, _. split; [reflexivity|].
      (split; [|split]); intros; by simplify_eq.
    + unfold ExceptionHandlerMiddleware.dispatch. rewrite Hcall.
      unfold ExceptionHandlerMiddleware._handle_validation_error, mbind, M_bind,
        logger, ExceptionHandlerMiddleware.json_response.
      rewrite render_json_encodable by exact Hd.
      eexists _, _. split; [reflexivity|].
      (split; [|split]); intros; by simplify_eq.
    + unfold ExceptionHandlerMiddleware.dispatch. rewrite Hcall.
      unfold ExceptionHandlerMiddleware._handle_database_error, mbind, M_bind.
      simpl in Hb.
      rewrite logger_format_plain by (by rewrite brace_free_app, Hb).
      unfold ExceptionHandlerMiddleware.json_response.
      rewrite render_json_encodable by (simpl; by destruct DEBUG).
      eexists _, _. split; [reflexivity|].
      (split; [|split]); intros; by simplify_eq.
Qed.

(** (X14) The classes of [exceptions/base.py] and the answers they get.
    Each class fixes the status of its errors and, unless the caller of
    [BusinessError] gives another, their error code, whose thousands are
    the hundreds of the status; the message is the one given or the
    default of the class.  No default has a brace; when the message
    that is given has none either and the details have a JSON encoding,
    the stage answers an error of the class with that status and an
    envelope of that code and message, the details as they were given. *)
Theorem app_exception_classes (request : Request.t) (call_next : CallNext)
    (w w1 : World) (message : option string) (text : string)
    (details : option Details) (e : PyException) (status code : Z)
    (msg : string) :
  (e, status, code, msg)
  ∈ [ (exceptions.DatabaseError message details, 500, 5000,
       default "数据库操作失败" message);
      (exceptions.ValidationError message details, 400, 4000,
       default "数据验证失败" message);
      (exceptions.AuthenticationError message details, 401, 4001,
       default "身份验证失败" message);
      (exceptions.AuthorizationError message details, 403, 4003,
       default "权限不足" message);
      (exceptions.NotFoundError message details, 404, 4004,
       default "未找到请求的资源" message);
      (exceptions.BusinessError text None details, 400, 4100, text) ] →
  call_next request w = (Raise e, w1) →
  (∀ given, message = Some given → brace_free given = true) →
  brace_free text = true →
  encodable details →
  code / 1000 = status / 100
  ∧ brace_free msg = true
  ∧ ∃ record,
      ExceptionHandlerMiddleware.dispatch request call_next w
      = (Ok (Response.JSONResponse status
               {| ErrorResponse.error_code := code;
                  ErrorResponse.message := msg;
                  ErrorResponse.details := details;
                  ErrorResponse.trace_id := Request.state_request_id request |}),
         logged w1 record).
Proof.
  intros Hin Hcall Hgiven Htext Hd.
  assert (brace_free msg = true) as Hb.
  { repeat (apply elem_of_cons in Hin as [[= -> -> -> ->]|Hin]);
      [..|by apply elem_of_nil in Hin]; try done;
      (destruct message as [given|]; [by apply Hgiven|by vm_compute]). }
  repeat (apply elem_of_cons in Hin as [[= -> -> -> ->]|Hin]);
    [..|by apply elem_of_nil in Hin];
    (split; [done|]); (split; [done|]);
    eexists; by rewrite (dispatch_app_exception _ _ _ _ _ _ _ _ Hcall Hb Hd).
Qed.

End error_containment.

(** ** Error alerts *)
Section alerts.

Import ErrorLoggingMiddleware.

Lemma on_error_spec (self : t) (now : Z) :
  on_error self now
  = if decide (alert_threshold self ≤ error_count self + 1
               ∧ alert_interval self < now - last_alert_time self)
    then (true,
          {| alert_threshold := alert_threshold self;
             alert_interval := alert_interval self;
             error_count := 0;
             last_alert_time := now |})
    else (false,
          {| alert_threshold := alert_threshold self;
             alert_interval := alert_interval self;
             error_count := error_count self + 1;
             last_alert_time := last_alert_time self |}).
Proof.
  unfold on_error, _should_send_alert. simpl.
  destruct (decide _) as [[Hth Hint]|Hno].
  - by rewrite !bool_decide_eq_true_2 by lia.
  - destruct (bool_decide (error_count self + 1 >= alert_threshold self)) eqn:H1;
      [|done].
    destruct (bool_decide (now - last_alert_time self > alert_interval self))
      eqn:H2; [|done].
    apply bool_decide_eq_true_1 in H1, H2. exfalso. apply Hno. lia.
Qed.

(** (X15) The stage hands on what [call_next] gives: a response as it
    is, with the counters untouched, and an error raised again as the
    same error, after it has been counted.  When the count has reached
    the threshold and more than [alert_interval] seconds have passed
    since the last alert, one critical record is logged; the count is set
    back before the record is written, so the record always reports an
    error count of 0. *)
Theorem error_logging_dispatch (self : t) (request : Request.t) (now : Z)
    (call_next : CallNext) (w : World) :
  match call_next request w with
  | (Ok response, w1) => dispatch self request now call_next w = (Ok response, self, w1)
  | (Raise e, w1) =>
      ∃ sent self',
        on_error self now = (sent, self')
        ∧ dispatch self request now call_next w
          = (Raise e, self',
             if sent
             then logged w1
                    {| levelname := CRITICAL;
                       message := "Error alert triggered";
                       extra := [("error_count", "0");
                                 ("threshold",
                                  str (PInt (alert_threshold self)))] |}
             else w1)
        ∧ (sent = true ↔
           alert_threshold self ≤ error_count self + 1
           ∧ alert_interval self < now - last_alert_time self)
  end.
Proof.
  unfold dispatch.
  destruct (call_next request w) as [[response|e] w1]; [done|].
  fold (on_error self now). rewrite on_error_spec.
  destruct (decide _) as [Hyes|Hno].
  - eexists _, _. split; [reflexivity|]. split; [reflexivity|]. done.
  - eexists _, _. split; [reflexivity|]. split; [reflexivity|]. done.
Qed.

(** (X16) Failed requests one after the other.  Every alert uses up at
    least [alert_threshold] counted errors, so the alerts times the
    threshold, with the errors still counted, are no more than the errors
    there were; the count is never negative; and every alert comes more
    than [alert_interval] seconds after the alert before it (the first,
    after the time 0 a new stage starts with), whatever the order of the
    clock readings. *)
Theorem alerts_earned_and_spaced (self : t) (times : list Z) :
  ∃ flags self',
    on_errors self times = (flags, self')
    ∧ length flags = length times
    ∧ alert_threshold self' = alert_threshold self
    ∧ alert_interval self' = alert_interval self
    ∧ Z.of_nat (length (alert_times times flags)) * alert_threshold self
      + error_count self'
      ≤ error_count self + Z.of_nat (length times)
    ∧ (0 ≤ error_count self → 0 ≤ error_count self')
    ∧ chain (λ a b, alert_interval self < b - a) (last_alert_time self)
        (alert_times times flags).
Proof.
  revert self. induction times as [|now times IH]; intros self.
  - exists [], self. simpl. repeat split; try done; lia.
  - cbn [on_errors]. rewrite on_error_spec.
    destruct (decide _) as [[Hth Hint]|Hno].
    + destruct (IH {| alert_threshold := alert_threshold self;
                      alert_interval := alert_interval self;
                      error_count := 0;
                      last_alert_time := now |})
        as (flags & self' & -> & Hlen & Hth' & Hint' & Hsum & Hpos & Hch).
      simpl in *. exists (true :: flags), self'.
      unfold alert_times in *. cbn [zip zip_with].
      rewrite filter_cons_True by done. cbn [fmap list_fmap fst length chain].
      split; [done|]. split; [by rewrite Hlen|]. split; [done|].
      split; [done|]. split; [lia|]. split; [intros _; by apply Hpos|].
      split; [done|]. exact Hch.
    + destruct (IH {| alert_threshold := alert_threshold self;
                      alert_interval := alert_interval self;
                      error_count := error_count self + 1;
                      last_alert_time := last_alert_time self |})
        as (flags & self' & -> & Hlen & Hth' & Hint' & Hsum & Hpos & Hch).
      simpl in *. exists (false :: flags), self'.
      unfold alert_times in *. cbn [zip zip_with].
      rewrite filter_cons_False by done. cbn [length].
      split; [done|]. split; [by rewrite Hlen|]. split; [done|].
      split; [done|]. split; [lia|]. split; [intros ?; apply Hpos; lia|].
      exact Hch.
Qed.

End alerts.

(** ** The response stage *)
Section response_stage.
Context `{Settings} `{Libraries} `{Floats} `{Formatting} `{Json}.

Import ResponseMiddleware.

(** (X17) What the response stage does with the outcome of [call_next],
    which it calls with the new request id in the request state.  A
    response comes back with the same status and body and with the two
    headers of the stage: the request id and the process time, each
    once, replacing what the handler had put under that name; the other
    header entries are kept; one info record is logged.  On an error
    the stage raises: the error as it came, after one error record,
    when its text has no brace; for a text with braces either that or,
    with nothing logged, the error of the log call, which is [KeyError]
    for every text whose first brace opens a field [{name}], as
    [{oops}].  The two header names must differ, or the process time
    takes the place of the request id. *)
Theorem response_stage_outcome (self : t) (request : Request.t)
    (request_id : string) (start_time end_time : float) (call_next : CallNext)
    (w : World) :
  lower (request_id_header self) ≠ lower (process_time_header self) →
  match call_next (set_request_id request request_id) w with
  | (Ok r, w1) =>
      ∃ r' record,
        dispatch self request request_id start_time end_time call_next w
        = (Ok r', logged w1 record)
        ∧ levelname record = INFO
        ∧ Response.status_code r' = Response.status_code r
        ∧ Response.body r' = Response.body r
        ∧ Response.headers_get (request_id_header self) r' = Some request_id
        ∧ header_count (lower (request_id_header self)) (Response.raw_headers r')
          = 1%nat
        ∧ Response.headers_get (process_time_header self) r'
          = Some (float_str (float_sub end_time start_time))
        ∧ header_count (lower (process_time_header self))
            (Response.raw_headers r')
          = 1%nat
        ∧ other_headers
            [lower (request_id_header self); lower (process_time_header self)]
            (Response.raw_headers r')
          = other_headers
              [lower (request_id_header self); lower (process_time_header self)]
              (Response.raw_headers r)
  | (Raise e, w1) =>
      (brace_free (exc_str e) = true →
       ∃ record,
         dispatch self request request_id start_time end_time call_next w
         = (Raise e, logged w1 record)
         ∧ levelname record = ERROR
         ∧ message record = "Request failed: " +:+ exc_str e)
      ∧ ((∃ record,
            dispatch self request request_id start_time end_time call_next w
            = (Raise e, logged w1 record)
            ∧ levelname record = ERROR)
         ∨ (∃ e',
              dispatch self request request_id start_time end_time call_next w
              = (Raise e', w1)
              ∧ brace_free (exc_str e) = false))
      ∧ (∀ pre name post,
           exc_str e = pre +:+ "{" +:+ name +:+ "}" +:+ post →
           brace_free pre = true →
           identifier name = true →
           name ≠ "extra" →
           dispatch self request request_id start_time end_time call_next w
           = (Raise (KeyError name), w1))
  end.
Proof.
  intros Hne. unfold dispatch.
  destruct (call_next (set_request_id request request_id) w) as [[r|e] w1].
  - eexists _, _. split; [reflexivity|]. split; [done|].
    split; [done|]. split; [done|].
    rewrite !headers_get_raw. cbn [Response.headers_setitem Response.raw_headers].
    split; [|split; [|split; [|split]]].
    + rewrite raw_get_setitem_ne by done. apply raw_get_setitem_eq.
    + rewrite header_count_setitem_ne by done. apply header_count_setitem_eq.
    + apply raw_get_setitem_eq.
    + apply header_count_setitem_eq.
    + rewrite !other_headers_setitem; [done|..].
      * apply elem_of_cons. by left.
      * apply elem_of_cons. right. apply elem_of_cons. by left.
  - unfold mbind, M_bind. split; [|split].
    + intros Hb.
      rewrite logger_format_plain by (by rewrite brace_free_app, Hb).
      by eexists.
    + match goal with
      | |- context [logger_format ?lvl ?msg ?ex ?more w1] =>
          destruct (logger_format_cases lvl msg ex more w1)
            as [(text & ->)|(e' & -> & Hb)]
      end.
      * left. by eexists.
      * right. exists e'. split; [done|].
        rewrite brace_free_app in Hb. exact Hb.
    + intros pre name post Hstr Hpre Hid Hextra.
      rewrite Hstr, logger_format_unknown_field; [done..|].
      cbn [fmt.lookup_kwarg]. by rewrite !bool_decide_eq_false_2.
Qed.

(** An error of the handler whose logged text has no brace and whose
    details have a JSON encoding leaves the error stage as an envelope
    with the request id of the request state. *)
Lemma error_stage_envelope (request : Request.t) (handler : CallNext)
    (w w1 : World) (e : PyException) :
  handler request w = (Raise e, w1) →
  brace_free (logged_text e) = true →
  encodable (details_of e) →
  ∃ status envelope w2,
    ExceptionHandlerMiddleware.dispatch request handler w
    = (Ok (Response.JSONResponse status envelope), w2)
    ∧ ErrorResponse.trace_id envelope = Request.state_request_id request.
Proof.
  intros Hh Hb Hd.
  destruct (dispatch_error_cases request handler w w1 e Hh)
    as [(status & envelope & record & Hdisp & Htrace & _)
       |[(e1 & _ & Hb')|(e1 & record & _ & Henc)]].
  - by eexists _, _, _.
  - congruence.
  - done.
Qed.

(** (X18) The response stage around the error stage.  When the
    handler returns a response, or raises an error whose logged text has
    no brace and whose details have a JSON encoding, the two stages
    together return a response; it carries the request id in the header
    of the response stage, and when the handler raised, the body is the
    error envelope whose trace id is that same id: the client can quote
    the header to find the error in the log. *)
Theorem trace_id_matches_request_id_header (self : t) (request : Request.t)
    (request_id : string) (start_time end_time : float) (handler : CallNext)
    (w : World) :
  lower (request_id_header self) ≠ lower (process_time_header self) →
  match handler (set_request_id request request_id) w with
  | (Ok r, _) =>
      ∃ response w',
        dispatch self request request_id start_time end_time
          (λ request', ExceptionHandlerMiddleware.dispatch request' handler) w
        = (Ok response, w')
        ∧ Response.headers_get (request_id_header self) response
          = Some request_id
        ∧ Response.status_code response = Response.status_code r
        ∧ Response.body response = Response.body r
  | (Raise e, _) =>
      brace_free (logged_text e) = true →
      encodable (details_of e) →
      ∃ response w' envelope,
        dispatch self request request_id start_time end_time
          (λ request', ExceptionHandlerMiddleware.dispatch request' handler) w
        = (Ok response, w')
        ∧ Response.headers_get (request_id_header self) response
          = Some request_id
        ∧ Response.body response = Response.JSON envelope
        ∧ ErrorResponse.trace_id envelope = Some request_id
  end.
Proof.
  intros Hne. unfold dispatch.
  destruct (handler (set_request_id request request_id) w) as [[r|e] w1] eqn:Hh.
  - assert (ExceptionHandlerMiddleware.dispatch (set_request_id request request_id)
              handler w = (Ok r, w1)) as ->.
    { unfold ExceptionHandlerMiddleware.dispatch. by rewrite Hh. }
    eexists _, _. split; [reflexivity|]. split; [|done].
    rewrite headers_get_raw. cbn [Response.headers_setitem Response.raw_headers].
    rewrite raw_get_setitem_ne by done. apply raw_get_setitem_eq.
  - intros Hb Hd.
    destruct (error_stage_envelope (set_request_id request request_id) handler
                w w1 e Hh Hb Hd) as (status & envelope & w2 & -> & Htrace).
    eexists _, _, envelope. split; [reflexivity|]. split.
    + rewrite headers_get_raw. cbn [Response.headers_setitem Response.raw_headers].
      rewrite raw_get_setitem_ne by done. apply raw_get_setitem_eq.
    + split; [done|]. exact Htrace.
Qed.

End response_stage.

(** ** The request validation stage *)
Section request_validation.
Context `{Libraries}.

Import RequestValidationMiddleware.

Lemma before_semicolon_app (ct rest : string) :
  ¬ contains ";" ct → before_semicolon (ct +:+ ";" +:+ rest) = ct.
Proof.
  intros Hno. induction ct as [|a ct IH]; [done|].
  change (String a ct +:+ ";" +:+ rest) with (String a (ct +:+ ";" +:+ rest)).
  simpl. destruct (decide (a = ";"%char)) as [->|Hne].
  - exfalso. apply Hno. by exists "", ct.
  - f_equal. apply IH. intros (pre & post & ->). apply Hno.
    by exists (String a pre), post.
Qed.

Lemma before_semicolon_whole (ct : string) :
  ¬ contains ";" ct → before_semicolon ct = ct.
Proof.
  intros Hno. induction ct as [|a ct IH]; [done|].
  simpl. destruct (decide (a = ";"%char)) as [->|Hne].
  - exfalso. apply Hno. by exists "", ct.
  - f_equal. apply IH. intros (pre & post & ->). apply Hno.
    by exists (String a pre), post.
Qed.

(** A text whose characters are all other than [c] does not contain
    it. *)
Lemma not_contains_char (c : ascii) (text : string) :
  all_chars (λ a, negb (bool_decide (a = c))) text = true →
  ¬ contains (String c "") text.
Proof.
  intros Hall (pre & post & ->). rewrite !all_chars_app in Hall. simpl in Hall.
  rewrite bool_decide_eq_true_2 in Hall by done. simpl in Hall.
  by rewrite andb_false_r in Hall.
Qed.

(** (X19) The outcomes of the validation stage, for a request whose
    content type is [ct], alone or followed by a semicolon and
    parameters, which are not looked at ([ct] is empty when the header is
    missing).  A type that is not empty and not among the allowed ones,
    compared letter for letter, is answered 415 whatever else the request
    holds.  Otherwise a missing or empty content length passes the
    request on, a length above the maximum is answered 413, another
    number passes it on, and a length that is no number raises
    [ValueError].  An answer of the stage itself does not involve
    [call_next].  An empty set of allowed types given to the constructor
    is replaced by the three default types. *)
Theorem request_validation_outcomes (self : t) (request : Request.t)
    (headers : Headers.t) (call_next : CallNext) (w : World)
    (ct params : string) :
  ¬ contains ";" ct →
  Headers.get headers "content-type" = Some ct
  ∨ Headers.get headers "content-type" = Some (ct +:+ ";" +:+ params)
  ∨ (Headers.get headers "content-type" = None ∧ ct = "") →
  (ct ≠ "" → ct ∉ allowed_content_types self →
   dispatch self request headers call_next w
   = (Ok (Response.__init__ "Unsupported Media Type" 415 []), w))
  ∧ (ct = "" ∨ ct ∈ allowed_content_types self →
     (Headers.get headers "content-length" = None
      ∨ Headers.get headers "content-length" = Some "" →
      dispatch self request headers call_next w = call_next request w)
     ∧ (∀ content_length n,
          Headers.get headers "content-length" = Some content_length →
          content_length ≠ "" →
          py_int content_length = Some n →
          dispatch self request headers call_next w
          = if decide (max_content_length self < n)
            then (Ok (Response.__init__ "Request Entity Too Large" 413 []), w)
            else call_next request w)
     ∧ (∀ content_length,
          Headers.get headers "content-length" = Some content_length →
          content_length ≠ "" →
          py_int content_length = None →
          dispatch self request headers call_next w
          = (Raise (ValueError "invalid literal for int() with base 10"), w)))
  ∧ allowed_content_types (__init__ (max_content_length self) (Some ∅))
    = {["application/json"; "application/x-www-form-urlencoded";
        "multipart/form-data"]}.
Proof.
  intros Hno Hct.
  assert (before_semicolon (default "" (Headers.get headers "content-type")) = ct)
    as Hmedia.
  { destruct Hct as [->|[->|[-> ->]]]; simpl; [|by apply before_semicolon_app|done].
    by apply before_semicolon_whole. }
  split; [|split; [|done]].
  - intros Hne Hout. unfold dispatch. rewrite Hmedia.
    by rewrite !bool_decide_eq_false_2 by done.
  - intros Hok.
    assert (negb (bool_decide (ct = ""))
            && negb (bool_decide (ct ∈ allowed_content_types self)) = false)
      as Hpass.
    { destruct Hok as [->|Hin]; [done|].
      rewrite (bool_decide_eq_true_2 (ct ∈ _)) by done. apply andb_false_r. }
    unfold dispatch. rewrite Hmedia, Hpass. split; [|split].
    + by intros [->| ->].
    + intros cl n -> Hcl ->. rewrite bool_decide_eq_false_2 by done.
      destruct (decide (max_content_length self < n)).
      * by rewrite bool_decide_eq_true_2 by lia.
      * by rewrite bool_decide_eq_false_2 by lia.
    + intros cl -> Hcl ->. by rewrite bool_decide_eq_false_2 by done.
Qed.

End request_validation.

(** ** The logging stages *)
Section logging_stages.
Context `{Settings} `{Libraries} `{Floats} `{Formatting}.

Lemma ascii_lower_idemp (a : ascii) : ascii_lower (ascii_lower a) = ascii_lower a.
Proof. destruct a as [[] [] [] [] [] [] [] []]; by vm_compute. Qed.

Lemma lower_idemp (s : string) : lower (lower s) = lower s.
Proof.
  induction s as [|a s IH]; [done|]. simpl. by rewrite ascii_lower_idemp, IH.
Qed.

(** (X20) Masking of header values.  Every header keeps its name; the
    value of a header whose name, in lower case, is in
    [sensitive_headers] becomes three stars and every other value stays.
    Masking twice is masking once.  The names of the set are compared as
    they are: when each of them has an upper-case letter, nothing is
    masked. *)
Theorem mask_sensitive_headers_spec (self : RequestLoggingMiddleware.t)
    (headers : gmap string string) :
  (∀ k,
     RequestLoggingMiddleware._mask_sensitive_headers self headers !! k
     = (λ v, if decide (lower k ∈ RequestLoggingMiddleware.sensitive_headers self)
             then "***" else v) <$> headers !! k)
  ∧ RequestLoggingMiddleware._mask_sensitive_headers self
      (RequestLoggingMiddleware._mask_sensitive_headers self headers)
    = RequestLoggingMiddleware._mask_sensitive_headers self headers
  ∧ ((∀ name, name ∈ RequestLoggingMiddleware.sensitive_headers self →
              lower name ≠ name) →
     RequestLoggingMiddleware._mask_sensitive_headers self headers = headers).
Proof.
  assert (∀ h k,
            RequestLoggingMiddleware._mask_sensitive_headers self h !! k
            = (λ v, if decide (lower k ∈ RequestLoggingMiddleware.sensitive_headers self)
                    then "***" else v) <$> h !! k) as Hlookup.
  { intros h k. unfold RequestLoggingMiddleware._mask_sensitive_headers.
    rewrite map_lookup_imap. by destruct (h !! k). }
  split; [apply Hlookup|]. split.
  - apply map_eq. intros k. rewrite !Hlookup.
    destruct (headers !! k) as [v|]; [|done]. simpl.
    by destruct (decide _).
  - intros Hupper. apply map_eq. intros k. rewrite Hlookup.
    destruct (headers !! k) as [v|]; [|done]. simpl.
    destruct (decide _) as [Hin|]; [|done].
    exfalso. apply (Hupper _ Hin). apply lower_idemp.
Qed.

(** (X21) The request logging stage and the outcome of a request.  For
    an excluded path, or a request state without a request id (or with an
    empty one), the stage is [call_next] and nothing else.  Otherwise the
    stage first logs the method and the path in a message that loguru
    formats: when that raises, the stage raises the same error with the
    state as it was and [call_next] is not called; it raises [KeyError]
    for every path whose first brace opens a field [{name}], as
    [/api/items/{id}].  When neither has a
    brace, one info record is logged, [call_next] is called, and its
    response comes back with the same status and body and the header
    [X-Process-Time] set, after a second info record; on its error the
    stage raises, the error as it came after an error record when its
    text has no brace, and otherwise either that or the error of the log
    call. *)
Theorem request_logging_outcome (self : RequestLoggingMiddleware.t)
    (request : Request.t) (start_time end_time : float) (call_next : CallNext)
    (w : World) :
  (Request.url_path request ∈ RequestLoggingMiddleware.exclude_paths self
   ∨ Request.state_request_id request = None
   ∨ Request.state_request_id request = Some "" →
   RequestLoggingMiddleware.dispatch self request start_time end_time call_next w
   = call_next request w)
  ∧ (∀ request_id,
       Request.url_path request ∉ RequestLoggingMiddleware.exclude_paths self →
       Request.state_request_id request = Some request_id →
       request_id ≠ "" →
       (∀ e' w',
          RequestLoggingMiddleware.log_request self request request_id w
          = (Raise e', w') →
          RequestLoggingMiddleware.dispatch self request start_time end_time
            call_next w
          = (Raise e', w))
       ∧ (∀ pre name post,
            Request.url_path request = pre +:+ "{" +:+ name +:+ "}" +:+ post →
            brace_free (Request.method request) = true →
            brace_free pre = true →
            identifier name = true →
            name ≠ "extra" →
            RequestLoggingMiddleware.dispatch self request start_time end_time
              call_next w
            = (Raise (KeyError name), w))
       ∧ (brace_free (Request.method request) = true →
          brace_free (Request.url_path request) = true →
          ∃ received,
            levelname received = INFO
            ∧ message received
              = "Request received: " +:+ Request.method request +:+ " "
                +:+ Request.url_path request
            ∧ match call_next request (logged w received) with
              | (Ok r, w1) =>
                  ∃ completed,
                    RequestLoggingMiddleware.dispatch self request start_time
                      end_time call_next w
                    = (Ok (Response.headers_setitem "X-Process-Time"
                             (float_format3 (float_sub end_time start_time)
                              +:+ "s")
                             r),
                       logged w1 completed)
                    ∧ levelname completed = INFO
              | (Raise e, w1) =>
                  (brace_free (exc_str e) = true →
                   ∃ failed,
                     RequestLoggingMiddleware.dispatch self request start_time
                       end_time call_next w
                     = (Raise e, logged w1 failed)
                     ∧ levelname failed = ERROR)
                  ∧ ((∃ failed,
                        RequestLoggingMiddleware.dispatch self request
                          start_time end_time call_next w
                        = (Raise e, logged w1 failed)
                        ∧ levelname failed = ERROR)
                     ∨ (∃ e',
                          RequestLoggingMiddleware.dispatch self request
                            start_time end_time call_next w
                          = (Raise e', w1)
                          ∧ brace_free (exc_str e) = false))
              end)).
Proof.
  split.
  - unfold RequestLoggingMiddleware.dispatch.
    intros [Hex|[-> | ->]].
    + by rewrite decide_True.
    + by destruct (decide _).
    + by destruct (decide _).
  - intros request_id Hex Hid Hne. unfold RequestLoggingMiddleware.dispatch.
    rewrite decide_False by done. rewrite Hid.
    rewrite bool_decide_eq_false_2 by done.
    unfold mbind, M_bind.
    split; [|split].
    + intros e' w' Hlog. rewrite Hlog.
      unfold RequestLoggingMiddleware.log_request in Hlog.
      match type of Hlog with
      | logger_format ?lvl ?msg ?ex ?more w = _ =>
          destruct (logger_format_cases lvl msg ex more w)
            as [(text & Heq)|(e1 & Heq & _)]
      end; rewrite Heq in Hlog; by simplify_eq.
    + intros pre name post Hpath Hm Hpre Hname Hextra.
      unfold RequestLoggingMiddleware.log_request.
      rewrite Hpath.
      assert (∀ rest,
                Request.method request +:+ " " +:+ pre +:+ rest
                = (Request.method request +:+ " " +:+ pre) +:+ rest) as ->
        by (intros rest; by rewrite !str_app_assoc).
      rewrite logger_format_unknown_field; [done|done| |done|].
      * by rewrite !brace_free_app, Hm, Hpre.
      * cbn [fmt.lookup_kwarg]. by rewrite !bool_decide_eq_false_2.
    + intros Hbm Hbp.
      unfold RequestLoggingMiddleware.log_request.
      rewrite logger_format_plain
        by (by rewrite !brace_free_app, Hbm, Hbp).
      cbv beta iota.
      match goal with
      | |- context [call_next request (logged w ?record)] => exists record
      end.
      split; [reflexivity|]. split; [reflexivity|].
      destruct (call_next request _) as [[r|e] w1].
      * eexists. split; [reflexivity|]. done.
      * split.
        -- intros Hb.
           rewrite logger_format_plain by (by rewrite brace_free_app, Hb).
           by eexists.
        -- match goal with
           | |- context [logger_format ?lvl ?msg ?ex ?more w1] =>
               destruct (logger_format_cases lvl msg ex more w1)
                 as [(text & ->)|(e' & -> & Hb)]
           end.
           ++ left. by eexists.
           ++ right. exists e'. split; [done|].
              rewrite brace_free_app in Hb. exact Hb.
Qed.

(** (X22) The performance stage returns what [call_next] returns, a
    response or an error, and changes nothing but the log: for an
    excluded path or an error it logs nothing; for a response it logs a
    warning exactly when the duration is above the threshold, and a debug
    record exactly when [DEBUG] is set. *)
Theorem performance_logging_outcome (self : PerformanceLoggingMiddleware.t)
    (request : Request.t) (start_time end_time : float) (call_next : CallNext)
    (w : World) :
  ∃ records,
    PerformanceLoggingMiddleware.dispatch self request start_time end_time
      call_next w
    = ((call_next request w).1, logged_all (call_next request w).2 records)
    ∧ levelname <$> records
      = match (call_next request w).1 with
        | Ok _ =>
            if decide (Request.url_path request
                       ∈ PerformanceLoggingMiddleware.exclude_paths self)
            then []
            else
              (if float_gt (float_sub end_time start_time)
                    (PerformanceLoggingMiddleware.slow_request_threshold self)
               then [WARNING] else [])
              ++ (if DEBUG then [DEBUG_] else [])
        | Raise _ => []
        end.
Proof.
  assert (∀ w0 : World, logged_all w0 [] = w0) as Hnil.
  { intros [? ? ?]. unfold logged_all. simpl. by rewrite app_nil_r. }
  unfold PerformanceLoggingMiddleware.dispatch.
  destruct (decide _) as [Hex|Hex].
  - exists []. rewrite Hnil. split; [by destruct (call_next request w)|].
    by destruct (call_next request w).1.
  - unfold mbind, M_bind.
    destruct (call_next request w) as [[r|e] w1]; simpl.
    2:{ exists []. by rewrite Hnil. }
    destruct (float_gt _ _); destruct DEBUG; simpl;
      first [ exists []; rewrite Hnil; split; reflexivity
            | unfold logger, mret, M_ret, logged_all; simpl;
              eexists; split; [rewrite <- ?app_assoc; reflexivity|reflexivity] ].
Qed.

End logging_stages.

(** ** Tokens: lifetimes and rejections *)
Section tokens_more.
Context `{Settings} `{Libraries}.

Lemma create_access_token_default subject expires_delta utcnow :
  expires_delta = None ∨ expires_delta = Some 0 →
  AuthService.create_access_token subject expires_delta utcnow
  = jwt.encode
      (issued_claims subject
         (utcnow + AuthService.timedelta_minutes ACCESS_TOKEN_EXPIRE_MINUTES))
      SECRET_KEY "HS256".
Proof. by intros [->| ->]. Qed.

Lemma create_refresh_token_default subject expires_delta utcnow :
  expires_delta = None ∨ expires_delta = Some 0 →
  AuthService.create_refresh_token subject expires_delta utcnow
  = jwt.encode
      (issued_claims subject
         (utcnow + AuthService.timedelta_minutes REFRESH_TOKEN_EXPIRE_MINUTES))
      SECRET_KEY "HS256".
Proof. by intros [->| ->]. Qed.

(** (X23) The lifetime of an issued token.  A lifetime that is left out
    or is zero gives the configured lifetime, of the access token or of
    the refresh token; any other lifetime is added to the clock as it
    is.  So no token expires in the second it is issued by asking for a
    zero lifetime, while a negative lifetime gives a token that
    [get_current_user] rejects from the second of issue on. *)
Theorem token_lifetime_defaults (subject : pyval) (utcnow : Z) :
  (∀ expires_delta,
     expires_delta = None ∨ expires_delta = Some 0 →
     expires_at (AuthService.create_access_token subject expires_delta utcnow)
     = Some (utcnow + ACCESS_TOKEN_EXPIRE_MINUTES * 60)
     ∧ expires_at (AuthService.create_refresh_token subject expires_delta utcnow)
       = Some (utcnow + REFRESH_TOKEN_EXPIRE_MINUTES * 60))
  ∧ (∀ ttl,
       ttl ≠ 0 →
       expires_at (AuthService.create_access_token subject (Some ttl) utcnow)
       = Some (utcnow + ttl)
       ∧ expires_at (AuthService.create_refresh_token subject (Some ttl) utcnow)
         = Some (utcnow + ttl))
  ∧ (∀ ttl db now,
       ttl < 0 → utcnow ≤ now →
       deps.get_current_user
         (AuthService.create_access_token subject (Some ttl) utcnow) db now
       = Raise deps.credentials_exception).
Proof.
  assert (∀ expire,
            expires_at (jwt.encode (issued_claims subject expire) SECRET_KEY "HS256")
            = Some expire) as Hexp.
  { intros expire.
    change (issued_claims subject expire !! "exp" ≫= jwt.to_int = Some expire).
    by rewrite issued_claims_exp. }
  split; [|split].
  - intros expires_delta Hd.
    rewrite create_access_token_default, create_refresh_token_default by done.
    by rewrite !Hexp.
  - intros ttl Httl.
    rewrite create_access_token_eq, create_refresh_token_eq by done.
    by rewrite !Hexp.
  - intros ttl db now Httl Hnow. rewrite create_access_token_eq by lia.
    apply get_current_user_expired. lia.
Qed.

(** (X24) [create_token] of [utils/security.py] and the token service.
    With the configured secret and the default algorithm, [create_token]
    gives the token [create_access_token] gives for the same subject and
    lifetime, unless the lifetime is zero: then the token of
    [create_token] expires in the second of issue, and the one of the
    service after the configured lifetime. *)
Theorem create_token_agrees_with_service (subject : pyval) (ttl utcnow : Z) :
  (ttl ≠ 0 →
   security.create_token subject ttl SECRET_KEY None utcnow
   = AuthService.create_access_token subject (Some ttl) utcnow)
  ∧ expires_at (security.create_token subject 0 SECRET_KEY None utcnow)
    = Some utcnow
  ∧ expires_at (AuthService.create_access_token subject (Some 0) utcnow)
    = Some (utcnow + ACCESS_TOKEN_EXPIRE_MINUTES * 60).
Proof.
  assert (∀ d, security.create_token subject d SECRET_KEY None utcnow
               = jwt.encode (issued_claims subject (utcnow + d)) SECRET_KEY "HS256")
    as Hct.
  { intros d. unfold security.create_token, issued_claims. by destruct subject. }
  split; [|split].
  - intros Httl. by rewrite Hct, create_access_token_eq.
  - rewrite Hct.
    change (issued_claims subject (utcnow + 0) !! "exp" ≫= jwt.to_int = Some utcnow).
    rewrite issued_claims_exp. simpl. f_equal. lia.
  - rewrite create_access_token_default by (by right).
    change (issued_claims subject
              (utcnow + AuthService.timedelta_minutes ACCESS_TOKEN_EXPIRE_MINUTES)
              !! "exp" ≫= jwt.to_int
            = Some (utcnow + ACCESS_TOKEN_EXPIRE_MINUTES * 60)).
    by rewrite issued_claims_exp.
Qed.

(** Every failure of [jwt.decode] is a [JWTError]. *)
Lemma bind_raises_JWTError {A B} (r : Result A) (f : A → Result B) :
  (∀ e, r = Raise e → ∃ msg, e = JWTError msg) →
  (∀ a e, f a = Raise e → ∃ msg, e = JWTError msg) →
  ∀ e, r ≫= f = Raise e → ∃ msg, e = JWTError msg.
Proof.
  intros Hr Hf e. destruct r as [a|e0]; simpl.
  - apply Hf.
  - intros [= <-]. by apply Hr.
Qed.

Lemma validate_claims_raises_JWTError (claims : gmap string pyval) (now : Z)
    (e : PyException) :
  jwt._validate_claims claims now = Raise e → ∃ msg, e = JWTError msg.
Proof.
  unfold jwt._validate_claims. revert e.
  repeat (apply bind_raises_JWTError; [|intros _]).
  - unfold jwt._validate_iat. intros e.
    destruct (claims !! "iat") as [v|]; [|done].
    destruct (jwt.to_int v); [done|]. intros [= <-]. by eexists.
  - unfold jwt._validate_nbf. intros e.
    destruct (claims !! "nbf") as [v|]; [|done].
    destruct (jwt.to_int v); [|intros [= <-]; by eexists].
    destruct (decide _); [|done]. intros [= <-]. by eexists.
  - unfold jwt._validate_exp. intros e.
    destruct (claims !! "exp") as [v|]; [|done].
    destruct (jwt.to_int v); [|intros [= <-]; by eexists].
    destruct (decide _); [|done]. intros [= <-]. by eexists.
  - unfold jwt._validate_aud. intros e.
    destruct (claims !! "aud") as [[?|?]|]; [..|done]; intros [= <-]; by eexists.
  - unfold jwt._validate_sub. intros e.
    destruct (claims !! "sub") as [[?|?]|]; [|done..]. intros [= <-]. by eexists.
  - unfold jwt._validate_jti. intros e.
    destruct (claims !! "jti") as [[?|?]|]; [|done..]. intros [= <-]. by eexists.
  - unfold jwt._validate_at_hash. intros e.
    destruct (claims !! "at_hash"); [|done]. intros [= <-]. by eexists.
Qed.

Lemma decode_raises_JWTError (token : JWT) (key : string)
    (algorithms : list string) (now : Z) (e : PyException) :
  jwt.decode token key algorithms now = Raise e → ∃ msg, e = JWTError msg.
Proof.
  unfold jwt.decode. destruct token as [alg payload signature|raw];
    [|intros [= <-]; by eexists].
  destruct (negb _); [intros [= <-]; by eexists|].
  destruct (negb _); [intros [= <-]; by eexists|].
  destruct payload as [claims|raw]; [|intros [= <-]; by eexists].
  destruct (jwt._validate_claims claims now) as [[]|e0] eqn:Hval; [done|].
  simpl. intros [= <-]. by eapply validate_claims_raises_JWTError.
Qed.

(** What a successful [jwt.decode] says about the token. *)
Lemma decode_Ok (token : JWT) (now : Z) (claims : gmap string pyval) :
  jwt.decode token SECRET_KEY ["HS256"] now = Ok claims →
  signature_valid token = true
  ∧ expired now token = false
  ∧ ∃ signature, token = Compact "HS256" (Object claims) signature.
Proof.
  unfold jwt.decode, signature_valid, expired, expires_at.
  destruct token as [alg payload signature|raw]; [|done].
  destruct (bool_decide (alg ∈ ["HS256"])) eqn:Halg; [|done]. simpl.
  apply bool_decide_eq_true_1, list_elem_of_singleton in Halg as ->.
  destruct (bool_decide (signature = _)) eqn:Hsig; [|done]. simpl.
  destruct payload as [claims'|raw]; [|done].
  destruct (jwt._validate_claims claims' now) as [[]|e0] eqn:Hval; [|done].
  simpl. intros [= ->]. split; [done|]. split; [|by eexists].
  unfold jwt._validate_claims, jwt._validate_exp in Hval.
  destruct (jwt._validate_iat claims) as [[]|]; [|done]. simpl in Hval.
  destruct (jwt._validate_nbf claims now) as [[]|]; [|done]. simpl in Hval.
  destruct (claims !! "exp") as [v|]; [|done]. simpl.
  destruct (jwt.to_int v) as [e|]; [|done].
  destruct (decide (e < now)); [done|]. by apply bool_decide_eq_false_2.
Qed.

(** (X25) [get_current_user] is sound.  It returns a user only for a
    token that is signed with the configured secret under HS256 and is
    not expired, and the user is the one the session finds under the
    subject claim of the token.  When the token does not decode, for an
    algorithm, a signature, a payload or a registered claim that is
    wrong, or because it has expired, the error is the 401 credentials
    error, as it is when the session finds no user. *)
Theorem get_current_user_sound (token : JWT) (db : AsyncSession.t) (now : Z) :
  (∀ user,
     deps.get_current_user token db now = Ok user →
     signature_valid token = true
     ∧ expired now token = false
     ∧ ∃ claims signature sub,
         token = Compact "HS256" (Object claims) signature
         ∧ claims !! "sub" = Some sub
         ∧ AsyncSession.get db sub = Some user)
  ∧ (∀ e,
       jwt.decode token SECRET_KEY ["HS256"] now = Raise e →
       deps.get_current_user token db now = Raise deps.credentials_exception)
  ∧ (∀ data,
       deps.token_data token now = Ok data →
       AsyncSession.get db (TokenPayload.sub data) = None →
       deps.get_current_user token db now = Raise deps.credentials_exception).
Proof.
  split; [|split].
  - intros user. unfold deps.get_current_user, deps.token_data.
    destruct (jwt.decode token SECRET_KEY ["HS256"] now) as [claims|e] eqn:Hdec.
    2:{ destruct (decode_raises_JWTError _ _ _ _ _ Hdec) as [msg ->]. done. }
    simpl. destruct (decode_Ok token now claims Hdec) as (Hsig & Hexp & sg & ->).
    destruct (TokenPayload.__init__ claims) as [data|e] eqn:Hdata;
      [|by destruct e].
    destruct (AsyncSession.get db (TokenPayload.sub data)) as [u|] eqn:Hget;
      [|done].
    intros [= ->]. split; [done|]. split; [done|].
    exists claims, sg, (TokenPayload.sub data). split; [done|]. split; [|done].
    unfold TokenPayload.__init__, TokenPayload.required in Hdata.
    destruct (claims !! "sub") as [s|]; [|by destruct (claims !! "exp")].
    repeat match type of Hdata with
           | context [match ?x with _ => _ end] => destruct x; try done
           end;
      by injection Hdata as <-.
  - intros e Hdec. unfold deps.get_current_user, deps.token_data.
    rewrite Hdec. destruct (decode_raises_JWTError _ _ _ _ _ Hdec) as [msg ->].
    done.
  - intros data Hdata Hget. unfold deps.get_current_user.
    by rewrite Hdata, Hget.
Qed.

(** (X26) The failures of the refresh endpoint.  A token that does not
    decode (malformed, wrong algorithm or signature, expired) is answered
    with the 401 error; so is a token whose subject names no user or a
    user that is not active.  A decoded token without a subject raises
    [KeyError], and one whose subject is no number raises [ValueError]:
    neither is caught.  No input makes the endpoint return a token
    pair. *)
Theorem refresh_token_failures (token : JWT) (db : AsyncSession.t) (now : Z) :
  (∀ e,
     jwt.decode token SECRET_KEY ["HS256"] now = Raise e →
     endpoints.refresh_token token db now
     = Raise (HTTPException 401 "Invalid refresh token" []))
  ∧ (∀ claims,
       jwt.decode token SECRET_KEY ["HS256"] now = Ok claims →
       (claims !! "sub" = None →
        endpoints.refresh_token token db now = Raise (KeyError "sub"))
       ∧ (∀ v,
            claims !! "sub" = Some v → jwt.to_int v = None →
            ∃ msg, endpoints.refresh_token token db now = Raise (ValueError msg))
       ∧ (∀ v user_id,
            claims !! "sub" = Some v → jwt.to_int v = Some user_id →
            AsyncSession.get db (PInt user_id) = None
            ∨ (∃ user, AsyncSession.get db (PInt user_id) = Some user
                       ∧ User.is_active user = false) →
            endpoints.refresh_token token db now
            = Raise (HTTPException 401 "Invalid refresh token" [])))
  ∧ (∀ pair, endpoints.refresh_token token db now ≠ Ok pair).
Proof.
  unfold endpoints.refresh_token, endpoints.refresh_token_body,
    endpoints.user_id_of.
  split; [|split].
  - intros e Hdec. rewrite Hdec.
    by destruct (decode_raises_JWTError _ _ _ _ _ Hdec) as [msg ->].
  - intros claims ->. simpl. split; [|split].
    + by intros ->.
    + intros v -> ->. by eexists.
    + intros v user_id -> ->. simpl. intros [->|(user & -> & ->)]; done.
  - intros pair.
    destruct (jwt.decode token SECRET_KEY ["HS256"] now) as [claims|e] eqn:Hdec.
    2:{ by destruct (decode_raises_JWTError _ _ _ _ _ Hdec) as [msg ->]. }
    simpl. destruct (claims !! "sub") as [v|]; [|done].
    destruct (jwt.to_int v) as [user_id|]; [|done]. simpl.
    destruct (AsyncSession.get db (PInt user_id)) as [user|]; [|done].
    by destruct (User.is_active user).
Qed.

(** (X27) The failures of [login].  [authenticate] returns a user only
    when the session finds one under the e-mail address and the password
    verifies against the stored hash.  An unknown address is answered
    with the same 401 error as a wrong password; a user that is not
    active is answered 400 when the password is right, and 401 when it is
    wrong.  No input makes the endpoint return a token pair. *)
Theorem login_failures (form : endpoints.OAuth2PasswordRequestForm)
    (db : AsyncSession.t) (utcnow : Z) :
  (∀ user,
     AuthService.authenticate (endpoints.username form) (endpoints.password form) db
     = Some user →
     AsyncSession.scalar_by_email db (endpoints.username form) = Some user
     ∧ pwd_verify (endpoints.password form) (User.hashed_password user) = true)
  ∧ (AsyncSession.scalar_by_email db (endpoints.username form) = None →
     endpoints.login form db utcnow
     = Raise (HTTPException 401 "Incorrect email or password"
                [("WWW-Authenticate", "Bearer")]))
  ∧ (∀ user,
       AsyncSession.scalar_by_email db (endpoints.username form) = Some user →
       User.is_active user = false →
       endpoints.login form db utcnow
       = if pwd_verify (endpoints.password form) (User.hashed_password user)
         then Raise (HTTPException 400 "Inactive user" [])
         else Raise (HTTPException 401 "Incorrect email or password"
                       [("WWW-Authenticate", "Bearer")]))
  ∧ (∀ pair, endpoints.login form db utcnow ≠ Ok pair).
Proof.
  unfold endpoints.login, AuthService.authenticate.
  split; [|split; [|split]].
  - intros user.
    destruct (AsyncSession.scalar_by_email db _) as [u|]; [|done].
    destruct (pwd_verify _ _) eqn:Hpw; [|done]. simpl. by intros [= ->].
  - by intros ->.
  - intros user -> Hact. destruct (pwd_verify _ _); [|done]. simpl.
    by rewrite Hact.
  - intros pair.
    destruct (AsyncSession.scalar_by_email db _) as [u|]; [|done].
    destruct (pwd_verify _ _); [|done]. simpl.
    by destruct (User.is_active u).
Qed.

End tokens_more.

(** ** Settings: the list of origins *)
Section cors.

Import config.

Lemma split_comma_nonempty (s : string) : split_comma s ≠ [].
Proof.
  destruct s as [|a s]; [done|]. simpl.
  destruct (decide _); [done|]. by destruct (split_comma s).
Qed.

Lemma split_comma_item (x rest : string) :
  ¬ contains "," x →
  split_comma (x +:+ "," +:+ rest) = x :: split_comma rest.
Proof.
  intros Hno. induction x as [|a x IH]; [done|].
  change (String a x +:+ "," +:+ rest) with (String a (x +:+ "," +:+ rest)).
  simpl. destruct (decide (a = ","%char)) as [->|Hne].
  - exfalso. apply Hno. by exists "", x.
  - rewrite IH; [done|]. intros (pre & post & ->). apply Hno.
    by exists (String a pre), post.
Qed.

Lemma split_comma_last (x : string) :
  ¬ contains "," x → split_comma x = [x].
Proof.
  intros Hno. induction x as [|a x IH]; [done|].
  simpl. destruct (decide (a = ","%char)) as [->|Hne].
  - exfalso. apply Hno. by exists "", x.
  - rewrite IH; [done|]. intros (pre & post & ->). apply Hno.
    by exists (String a pre), post.
Qed.

Lemma split_comma_join (items : list string) :
  items ≠ [] → Forall (λ x, ¬ contains "," x) items →
  split_comma (join "," items) = items.
Proof.
  intros Hne Hall. induction Hall as [|x items Hx Hall IH]; [done|].
  destruct items as [|y items].
  - simpl. by apply split_comma_last.
  - change (join "," (x :: y :: items)) with (x +:+ "," +:+ join "," (y :: items)).
    rewrite split_comma_item by done. by rewrite IH.
Qed.

Lemma split_comma_join_space (items : list string) (x : string) :
  Forall (λ x, ¬ contains "," x) (x :: items) →
  split_comma (join ", " (x :: items)) = x :: (String " " <$> items).
Proof.
  revert x. induction items as [|y items IH]; intros x Hall.
  - simpl. apply split_comma_last. by apply Forall_inv in Hall.
  - change (join ", " (x :: y :: items))
      with (x +:+ "," +:+ String " " (join ", " (y :: items))).
    apply Forall_cons in Hall as [Hx Hall].
    rewrite split_comma_item by done. f_equal.
    assert (∀ s, split_comma (String " " s)
                 = match split_comma s with
                   | piece :: pieces => String " " piece :: pieces
                   | [] => [String " " ""]
                   end) as Hsp by done.
    rewrite Hsp, IH by done. done.
Qed.

Lemma strip_space (x : string) : strip (String " " x) = strip x.
Proof. reflexivity. Qed.

(** (X28) The validator of the origins.  A string that does not begin
    with a bracket is cut at its commas, and each piece is stripped of the
    white space around it: origins written with a comma, or a comma and a
    space, between them come back as the list they were.  The empty
    string gives the list of one empty origin, not the empty list.  A
    string that begins with a bracket and a list are returned as they
    are; anything else raises [ValueError]. *)
Theorem assemble_cors_origins_spec :
  (∀ items,
     items ≠ [] → Forall plain_item items →
     startswith_bracket (join "," items) = false →
     assemble_cors_origins (CorsStr (join "," items)) = Ok (CorsList items)
     ∧ assemble_cors_origins (CorsStr (join ", " items)) = Ok (CorsList items))
  ∧ (∀ s, startswith_bracket s = false →
          ∃ items,
            assemble_cors_origins (CorsStr s) = Ok (CorsList items)
            ∧ items ≠ []
            ∧ join "," (split_comma s) = s)
  ∧ assemble_cors_origins (CorsStr "") = Ok (CorsList [""])
  ∧ (∀ s, startswith_bracket s = true →
          assemble_cors_origins (CorsStr s) = Ok (CorsStr s))
  ∧ (∀ l, assemble_cors_origins (CorsList l) = Ok (CorsList l))
  ∧ (∃ e, assemble_cors_origins CorsOther = Raise e).
Proof.
  split; [|split; [|split; [done|split; [|split; [done|by eexists]]]]].
  - intros items Hne Hall Hbr.
    assert (Forall (λ x, ¬ contains "," x) items) as Hcomma
      by (eapply Forall_impl; [exact Hall|]; by intros x [? _]).
    assert (strip <$> items = items) as Hstrip.
    { clear Hne Hbr Hcomma. induction Hall as [|x items [_ Hx] _ IH]; [done|].
      by rewrite fmap_cons, Hx, IH. }
    split.
    + unfold assemble_cors_origins. rewrite Hbr. cbn [negb].
      by rewrite split_comma_join, Hstrip.
    + destruct items as [|x items]; [done|].
      assert (startswith_bracket (join ", " (x :: items)) = false) as Hbr'.
      { destruct items as [|y items]; [done|]. by destruct x. }
      unfold assemble_cors_origins. rewrite Hbr'. cbn [negb].
      rewrite split_comma_join_space by done. do 2 f_equal.
      rewrite fmap_cons in Hstrip. injection Hstrip as Hx Hrest.
      rewrite fmap_cons, Hx. f_equal.
      rewrite <- list_fmap_compose.
      rewrite <- Hrest at 2. apply list_fmap_ext. intros i y _. simpl.
      apply strip_space.
  - intros s Hbr. eexists. unfold assemble_cors_origins. rewrite Hbr. simpl.
    split; [reflexivity|]. split.
    + intros Hnil%fmap_nil_inv. by apply split_comma_nonempty in Hnil.
    + clear Hbr. induction s as [|a s IH]; [done|]. simpl.
      destruct (decide (a = ","%char)) as [->|Hne].
      * destruct (split_comma s) as [|piece pieces] eqn:Hs;
          [by apply split_comma_nonempty in Hs|].
        change (join "," ("" :: piece :: pieces))
          with (String "," (join "," (piece :: pieces))).
        by rewrite IH.
      * destruct (split_comma s) as [|piece pieces] eqn:Hs;
          [by apply split_comma_nonempty in Hs|].
        rewrite <- IH. by destruct pieces.
  - intros s Hbr. unfold assemble_cors_origins. by rewrite Hbr.
Qed.

End cors.

(** ** The theorems at concrete inputs *)

Lemma permitted_calls_never_exceed_limit_witness :
  StronglySorted Z.lt [100; 130; 175]
  ∧ ∃ results w,
      check_all (demo_limiter (Some Redis.Client)) "rate_limit:203.0.113.9:/api"
        1 [100; 130; 175] initial_world
      = (Ok results, w)
      ∧ length results = length [100; 130; 175]
      ∧ ∀ t,
          Z.of_nat
            (permitted_in_slice
               (RateLimitingMiddleware.window_size (demo_limiter (Some Redis.Client)))
               t [100; 130; 175] results)
          ≤ 1.
Proof.
  assert (StronglySorted Z.lt [100; 130; 175]) as Hs
    by (repeat constructor; lia).
  split; [exact Hs|].
  apply (permitted_calls_never_exceed_limit (demo_limiter (Some Redis.Client))
           "rate_limit:203.0.113.9:/api" 1 [100; 130; 175] Hs).
  - lia.
  - intros _. repeat constructor; lia.
Defined.



(** C4, the claim as stated refuted: issued at second 1000 for 60
    seconds, the token expires at 1060, and in that very second
    [get_current_user] still returns the user. *)
Lemma verification_at_expiry_succeeds :
  @expires_at demo_libraries
    (@AuthService.create_access_token demo_settings demo_libraries
       (PInt 7) (Some 60) 1000)
  = Some 1060
  ∧ @deps.get_current_user demo_settings demo_libraries
      (@AuthService.create_access_token demo_settings demo_libraries
         (PInt 7) (Some 60) 1000)
      demo_db 1060
    = Ok demo_user.
Proof. split; by vm_compute. Qed.

Lemma token_expiry_boundary_witness :
  60 ≠ 0
  ∧ (∃ data,
       @deps.token_data demo_settings demo_libraries
         (@AuthService.create_access_token demo_settings demo_libraries
            (PInt 7) (Some 60) 1000) 1060
       = Ok data)
  ∧ @deps.get_current_user demo_settings demo_libraries
      (@AuthService.create_access_token demo_settings demo_libraries
         (PInt 7) (Some 60) 1000)
      demo_db 1061
    = Raise (@deps.credentials_exception).
Proof.
  assert (60 ≠ 0) as Hne by lia.
  split; [exact Hne|].
  destruct (proj1 (@token_expiry_boundary demo_settings demo_libraries)
              (PInt 7) 60 1000 1060 demo_db Hne) as (_ & Hok & _).
  destruct (proj1 (@token_expiry_boundary demo_settings demo_libraries)
              (PInt 7) 60 1000 1061 demo_db Hne) as (_ & _ & Hexp).
  split; [apply Hok; lia|apply Hexp; lia].
Defined.

(** C5 at a concrete input: the right password of the active user. *)
Lemma login_outcomes_witness :
  @endpoints.login demo_settings demo_libraries
    {| endpoints.username := "ann@example.com"; endpoints.password := "pw" |}
    demo_db 1000
  = Raise (PydanticValidationError [("expires_in", "missing")]).
Proof.
  apply (proj1 (@login_outcomes demo_settings demo_libraries)
           {| endpoints.username := "ann@example.com"; endpoints.password := "pw" |}
           demo_db 1000 demo_user); reflexivity.
Defined.

(** C10 at a concrete input: the access token of the active user, sent
    to the refresh endpoint within its lifetime. *)
Lemma refresh_token_accepts_access_token_witness :
  @endpoints.refresh_token demo_settings demo_libraries
    (@AuthService.create_access_token demo_settings demo_libraries
       (PInt (User.id demo_user)) (Some 60) 1000)
    demo_db 1030
  = Raise (PydanticValidationError [("expires_in", "missing")]).
Proof.
  apply (proj2 (proj2 (@refresh_token_accepts_access_token demo_settings
                         demo_libraries))
           demo_user 60 1000 1030 demo_db); [lia|lia|reflexivity..].
Defined.

(** C8 at two inputs, [DEBUG] being off: a division by zero in the
    handler is answered with the envelope, its details null; a
    [ValueError] with the text [{oops}] makes the catch-all raise
    [KeyError]. *)
Lemma unknown_error_outcome_witness :
  (∃ record,
     @ExceptionHandlerMiddleware.dispatch production_settings message_libraries
       plain_formatting plain_json (demo_request None)
       (failing_handler (OtherException "ZeroDivisionError" "division by zero"))
       initial_world
     = (Ok (Response.JSONResponse 500
              {| ErrorResponse.error_code := 5001;
                 ErrorResponse.message := "Internal server error";
                 ErrorResponse.details := None;
                 ErrorResponse.trace_id := Some "req-1" |}),
        logged initial_world record)
     ∧ levelname record = ERROR
     ∧ message record = "Unhandled error: division by zero")
  ∧ @ExceptionHandlerMiddleware.dispatch production_settings message_libraries
      plain_formatting plain_json (demo_request None)
      (failing_handler (ValueError "{oops}")) initial_world
    = (Raise (KeyError "oops"), initial_world).
Proof.
  split.
  - destruct (proj1 (@unknown_error_outcome production_settings
                       message_libraries plain_formatting plain_json (demo_request None)
                       (failing_handler
                          (OtherException "ZeroDivisionError" "division by zero"))
                       initial_world initial_world
                       (OtherException "ZeroDivisionError" "division by zero")
                       eq_refl I)
                eq_refl)
      as (envelope & record & Hcall & Hcode & Hmsg & Htrace & Hoff & _
          & Hlevel & Htext).
    exists record. split; [|by split].
    rewrite Hcall. do 2 f_equal.
    destruct envelope as [code msg details trace]. simpl in *.
    by rewrite Hcode, Hmsg, Htrace, (Hoff eq_refl).
  - apply (proj2 (proj2 (@unknown_error_outcome production_settings
                           message_libraries plain_formatting plain_json
                           (demo_request None)
                           (failing_handler (ValueError "{oops}"))
                           initial_world initial_world (ValueError "{oops}")
                           eq_refl I))
             "" "oops" ""); done.
Defined.

Lemma injection_probe_blocked_witness :
  ∃ record,
    ∀ call_next : CallNext,
      SQLInjectionMiddleware.dispatch
        {| SQLInjectionMiddleware.block_suspicious := true |}
        (demo_request (Some ("203.0.113.9", 40000))) call_next initial_world
      = (Ok (Response.__init__ "Invalid request" 400 []),
         {| _requests := None; redis_keys := ∅; log := [] ++ [record] |}).
Proof.
  destruct (injection_probe_blocked
              {| SQLInjectionMiddleware.block_suspicious := true |}
              (demo_request (Some ("203.0.113.9", 40000))) initial_world
              "203.0.113.9" 40000 "q" probe)
    as (_ & _ & Hblock).
  - by apply list_elem_of_singleton.
  - right. exists "", "". reflexivity.
  - reflexivity.
  - reflexivity.
  - exact Hblock.
Defined.

Lemma memory_limit_boundary_witness :
  ∃ w,
    check_all (demo_limiter None) "rate_limit:203.0.113.9:/api" 2
      [100; 100; 101] initial_world
    = (Ok [(true, 1); (true, 2); (false, 3)], w).
Proof.
  destruct (memory_limit_boundary (demo_limiter None)
              "rate_limit:203.0.113.9:/api" 2 [100; 100; 101])
    as (w & Hrun).
  - reflexivity.
  - repeat constructor; lia.
  - intros x y Hx Hy. simpl.
    repeat (apply elem_of_cons in Hx as [->|Hx]);
      repeat (apply elem_of_cons in Hy as [->|Hy]);
      try lia; by apply elem_of_nil in Hx || by apply elem_of_nil in Hy.
  - exists w. exact Hrun.
Defined.

Lemma rate_limit_rejection_response_witness :
  ∃ response record,
    (∀ call_next : CallNext,
       RateLimitingMiddleware.dispatch (demo_limiter None)
         (demo_request (Some ("203.0.113.9", 40000))) 100 call_next
         (RateLimitingMiddleware.dispatch (demo_limiter None)
            (demo_request (Some ("203.0.113.9", 40000))) 100 ok_handler
            initial_world).2
       = (Ok response,
          {| _requests :=
               Some {[ "rate_limit:203.0.113.9:/api/users/me" := [100; 100] ]};
             redis_keys := ∅;
             log := [] ++ [record] |}))
    ∧ Response.status_code response = 429
    ∧ Response.headers_get "Retry-After" response = Some "60".
Proof.
  destruct (rate_limit_rejection_response (demo_limiter None)
              (demo_request (Some ("203.0.113.9", 40000))) 100 2
              (RateLimitingMiddleware.dispatch (demo_limiter None)
                 (demo_request (Some ("203.0.113.9", 40000))) 100 ok_handler
                 initial_world).2
              {| _requests :=
                   Some {[ "rate_limit:203.0.113.9:/api/users/me" := [100; 100] ]};
                 redis_keys := ∅;
                 log := [] |})
    as (response & record & Hcall & Hstatus & Hheader).
  - apply (bool_decide_unpack _). by vm_compute.
  - by vm_compute.
  - exists response, record. split; [exact Hcall|]. split; [exact Hstatus|].
    exact Hheader.
Defined.

Lemma redis_same_second_calls_witness :
  ∃ w,
    check_all (demo_limiter (Some Redis.Client))
      "rate_limit:203.0.113.9:/api/users/me" 1 (replicate 5 100) initial_world
    = (Ok (replicate 5 (bool_decide (1 ≤ 1), 1)), w).
Proof.
  apply (redis_same_second_calls (demo_limiter (Some Redis.Client))
           "rate_limit:203.0.113.9:/api/users/me" 1 100 5).
  - by eexists.
  - simpl. lia.
  - lia.
Defined.

(** ** The further theorems at concrete inputs *)

Lemma keyword_parameter_blocked_witness :
  SQLInjectionMiddleware._check_sql_injection
    {| SQLInjectionMiddleware.block_suspicious := true |}
    (urlencode (Request.query_params demo_lookup)) = true
  ∧ ∃ record,
      levelname record = WARNING
      ∧ ∀ call_next : CallNext,
          SQLInjectionMiddleware.dispatch
            {| SQLInjectionMiddleware.block_suspicious := true |}
            demo_lookup call_next initial_world
          = (Ok (Response.__init__ "Invalid request" 400 []),
             {| _requests := None; redis_keys := ∅; log := [] ++ [record] |}).
Proof.
  apply (keyword_parameter_blocked
           {| SQLInjectionMiddleware.block_suspicious := true |}
           demo_lookup initial_world "203.0.113.9" 40000 "user" "alice").
  - apply (bool_decide_unpack _). by vm_compute.
  - left. apply (bool_decide_unpack _). by vm_compute.
  - reflexivity.
  - reflexivity.
Defined.

Lemma injection_screen_pass_through_witness :
  SQLInjectionMiddleware.dispatch
    {| SQLInjectionMiddleware.block_suspicious := true |}
    {| Request.method := "GET";
       Request.url_path := "/api/items";
       Request.client := None;
       Request.query_params := [("page", "2")];
       Request.path_params := "{}";
       Request.json := None;
       Request.state_request_id := None |}
    ok_handler initial_world
  = (Ok (Response.__init__ "ok" 200 []), initial_world)
  ∧ ∃ records,
      SQLInjectionMiddleware.dispatch
        {| SQLInjectionMiddleware.block_suspicious := false |}
        demo_lookup ok_handler initial_world
      = ok_handler demo_lookup
          {| _requests := None; redis_keys := ∅; log := [] ++ records |}
      ∧ length records = 1%nat.
Proof.
  split.
  - apply (proj1 (injection_screen_pass_through
                    {| SQLInjectionMiddleware.block_suspicious := true |}
                    {| Request.method := "GET";
                       Request.url_path := "/api/items";
                       Request.client := None;
                       Request.query_params := [("page", "2")];
                       Request.path_params := "{}";
                       Request.json := None;
                       Request.state_request_id := None |}
                    ok_handler initial_world)).
    by vm_compute.
  - destruct (proj2 (injection_screen_pass_through
                       {| SQLInjectionMiddleware.block_suspicious := false |}
                       demo_lookup ok_handler initial_world) eq_refl)
      as (records & Hrun & Hlen & _).
    + by eexists.
    + exists records. split; [exact Hrun|]. rewrite Hlen. by vm_compute.
Defined.

Lemma quiet_window_resets_witness :
  ∃ results w,
    check_all (demo_limiter (Some Redis.Client)) "rate_limit:203.0.113.9:/api"
      1 ([100; 101; 102] ++ [162]) initial_world
    = (Ok (results ++ [(bool_decide (1 ≤ 1), 1)]), w)
    ∧ length results = length [100; 101; 102].
Proof.
  apply (quiet_window_resets (demo_limiter (Some Redis.Client))
           "rate_limit:203.0.113.9:/api" 1 [100; 101; 102] 162).
  - repeat constructor; lia.
  - intros _. repeat constructor; lia.
  - repeat constructor; simpl; lia.
Defined.

Lemma retrying_client_stays_rejected_witness :
  ∃ results w count,
    check_all (demo_limiter None) "rate_limit:203.0.113.9:/api"
      (Z.of_nat 1) [100; 130; 160; 190] initial_world
    = (Ok results, w)
    ∧ results !! (2 + 1)%nat = Some (false, count)
    ∧ Z.of_nat 1 < count.
Proof.
  apply (retrying_client_stays_rejected (demo_limiter None)
           "rate_limit:203.0.113.9:/api" 1 [100; 130; 160; 190] 2 160 190).
  - repeat constructor; lia.
  - intros [c Hc]. discriminate Hc.
  - reflexivity.
  - reflexivity.
  - simpl. lia.
Defined.

Lemma handled_error_envelopes_witness :
  brace_free
    (@logged_text message_libraries (SQLAlchemyError "connection refused"))
  = true
  ∧ ∃ response record,
      @ExceptionHandlerMiddleware.dispatch (default_settings "s3cret")
        message_libraries plain_formatting plain_json (demo_request None)
        (failing_handler (SQLAlchemyError "connection refused")) initial_world
      = (Ok response, logged initial_world record)
      ∧ response
        = Response.JSONResponse 500
            {| ErrorResponse.error_code := 5000;
               ErrorResponse.message := "Database error occurred";
               ErrorResponse.details := Some (DetailText "connection refused");
               ErrorResponse.trace_id := Some "req-1" |}
      ∧ message record = "Database error: connection refused".
Proof.
  split; [reflexivity|].
  destruct (@handled_error_envelopes (default_settings "s3cret")
              message_libraries plain_formatting plain_json (demo_request None)
              (failing_handler (SQLAlchemyError "connection refused"))
              initial_world initial_world
              (SQLAlchemyError "connection refused") eq_refl eq_refl I)
    as (response & record & Hrun & _ & _ & Hdb).
  exists response, record. split; [exact Hrun|].
  destruct (Hdb "connection refused" eq_refl) as (Hresp & _ & Hmsg).
  by split.
Defined.

Lemma app_exception_classes_witness :
  4004 / 1000 = 404 / 100
  ∧ brace_free (default "未找到请求的资源" (Some "no such user")) = true
  ∧ ∃ record,
      @ExceptionHandlerMiddleware.dispatch (default_settings "s3cret")
        demo_libraries plain_formatting plain_json (demo_request None)
        (failing_handler (exceptions.NotFoundError (Some "no such user") None))
        initial_world
      = (Ok (Response.JSONResponse 404
               {| ErrorResponse.error_code := 4004;
                  ErrorResponse.message := default "未找到请求的资源" (Some "no such user");
                  ErrorResponse.details := None;
                  ErrorResponse.trace_id := Some "req-1" |}),
         logged initial_world record).
Proof.
  apply (@app_exception_classes (default_settings "s3cret") demo_libraries
           plain_formatting plain_json (demo_request None)
           (failing_handler (exceptions.NotFoundError (Some "no such user") None))
           initial_world initial_world (Some "no such user") "" None
           (exceptions.NotFoundError (Some "no such user") None) 404 4004).
  - do 4 apply list_elem_of_further. apply list_elem_of_here.
  - reflexivity.
  - intros given [= <-]. reflexivity.
  - reflexivity.
  - exact I.
Defined.

Lemma response_stage_outcome_witness :
  (∃ r' record,
     @ResponseMiddleware.dispatch message_libraries demo_floats
       plain_formatting demo_response_stage
       (demo_request None) "5f0c" 1000 1012 ok_handler initial_world
     = (Ok r', logged initial_world record)
     ∧ Response.status_code r' = 200
     ∧ Response.headers_get "x-request-id" r' = Some "5f0c"
     ∧ Response.headers_get "x-process-time" r' = Some "12")
  ∧ (∃ record,
       @ResponseMiddleware.dispatch message_libraries demo_floats
         plain_formatting demo_response_stage
         (demo_request None) "5f0c" 1000 1012
         (failing_handler (ValueError "bad page number")) initial_world
       = (Raise (ValueError "bad page number"), logged initial_world record)
       ∧ message record = "Request failed: bad page number")
  ∧ @ResponseMiddleware.dispatch message_libraries demo_floats
      plain_formatting demo_response_stage
      (demo_request None) "5f0c" 1000 1012
      (failing_handler (ValueError "{oops}")) initial_world
    = (Raise (KeyError "oops"), initial_world).
Proof.
  assert (lower (ResponseMiddleware.request_id_header demo_response_stage)
          ≠ lower (ResponseMiddleware.process_time_header demo_response_stage))
    as Hne by (by vm_compute).
  split; [|split].
  - destruct (@response_stage_outcome message_libraries demo_floats
                plain_formatting demo_response_stage (demo_request None) "5f0c"
                1000 1012 ok_handler initial_world Hne)
      as (r' & record & Hrun & _ & Hst & _ & Hid & _ & Htime & _).
    exists r', record. split; [exact Hrun|]. split; [exact Hst|].
    split; [exact Hid|]. exact Htime.
  - destruct (proj1 (@response_stage_outcome message_libraries demo_floats
                       plain_formatting demo_response_stage (demo_request None)
                       "5f0c" 1000 1012
                       (failing_handler (ValueError "bad page number"))
                       initial_world Hne)
                eq_refl)
      as (record & Hrun & _ & Hmsg).
    exists record. by split.
  - apply (proj2 (proj2 (@response_stage_outcome message_libraries demo_floats
                           plain_formatting demo_response_stage
                           (demo_request None) "5f0c" 1000 1012
                           (failing_handler (ValueError "{oops}"))
                           initial_world Hne))
             "" "oops" ""); done.
Defined.

Lemma trace_id_matches_request_id_header_witness :
  ∃ response w' envelope,
    @ResponseMiddleware.dispatch message_libraries demo_floats plain_formatting
      demo_response_stage (demo_request None) "5f0c" 1000 1012
      (λ request',
         @ExceptionHandlerMiddleware.dispatch (default_settings "s3cret")
           message_libraries plain_formatting plain_json request'
           (failing_handler (ValueError "bad page number")))
      initial_world
    = (Ok response, w')
    ∧ Response.headers_get "X-Request-ID" response = Some "5f0c"
    ∧ Response.body response = Response.JSON envelope
    ∧ ErrorResponse.trace_id envelope = Some "5f0c".
Proof.
  assert (lower (ResponseMiddleware.request_id_header demo_response_stage)
          ≠ lower (ResponseMiddleware.process_time_header demo_response_stage))
    as Hne by (by vm_compute).
  exact (@trace_id_matches_request_id_header (default_settings "s3cret")
           message_libraries demo_floats plain_formatting plain_json demo_response_stage
           (demo_request None) "5f0c" 1000 1012
           (failing_handler (ValueError "bad page number")) initial_world
           Hne eq_refl I).
Defined.

Lemma request_validation_outcomes_witness :
  @RequestValidationMiddleware.dispatch demo_libraries
    (RequestValidationMiddleware.__init__ 1048576 None) (demo_request None)
    [("host", "example.com");
     ("content-type", "application/json; charset=utf-8")]
    ok_handler initial_world
  = ok_handler (demo_request None) initial_world
  ∧ @RequestValidationMiddleware.dispatch demo_libraries
      (RequestValidationMiddleware.__init__ 1048576 None) (demo_request None)
      [("content-type", "Application/JSON")] ok_handler initial_world
    = (Ok (Response.__init__ "Unsupported Media Type" 415 []), initial_world).
Proof.
  split.
  - destruct (@request_validation_outcomes demo_libraries
                (RequestValidationMiddleware.__init__ 1048576 None)
                (demo_request None)
                [("host", "example.com");
                 ("content-type", "application/json; charset=utf-8")]
                ok_handler initial_world "application/json" " charset=utf-8")
      as (_ & Hpass & _).
    + by apply not_contains_char.
    + right. by left.
    + apply Hpass; [right; apply (bool_decide_unpack _); by vm_compute|].
      by left.
  - destruct (@request_validation_outcomes demo_libraries
                (RequestValidationMiddleware.__init__ 1048576 None)
                (demo_request None)
                [("content-type", "Application/JSON")]
                ok_handler initial_world "Application/JSON" "")
      as (Hreject & _).
    + by apply not_contains_char.
    + by left.
    + apply Hreject; [done|]. apply (bool_decide_unpack _). by vm_compute.
Defined.

Lemma rate_limit_key_injective_witness :
  rate_limit_key (demo_request (Some ("203.0.113.9", 40000)))
  ≠ rate_limit_key (demo_request (Some ("203.0.113.10", 40000)))
  ∧ rate_limit_key (demo_request None) = "rate_limit:unknown:/api/users/me".
Proof.
  assert (∀ h, all_chars (λ a, negb (bool_decide (a = "/"%char))) h = true →
               ¬ contains "/" h) as Hno.
  { intros h Hall (pre & post & ->). rewrite !all_chars_app in Hall.
    simpl in Hall. by rewrite andb_false_r in Hall. }
  split.
  - intros Heq.
    destruct (rate_limit_key_injective
                (demo_request (Some ("203.0.113.9", 40000)))
                (demo_request (Some ("203.0.113.10", 40000))))
      as [[Hsame _] _]; [by apply Hno|by apply Hno|by eexists|by eexists|].
    by destruct (Hsame Heq).
  - destruct (rate_limit_key_injective (demo_request None) (demo_request None))
      as [_ Hunknown]; [by apply Hno|by apply Hno|by eexists|by eexists|].
    by apply Hunknown.
Defined.

Lemma request_logging_outcome_witness :
  (∃ received completed,
     @RequestLoggingMiddleware.dispatch demo_settings demo_libraries demo_floats
       plain_formatting (RequestLoggingMiddleware.__init__ None None false)
       (demo_request None) 1000 1012 ok_handler initial_world
     = (Ok (Response.headers_setitem "X-Process-Time" "12s"
              (Response.__init__ "ok" 200 [])),
        logged (logged initial_world received) completed)
     ∧ message received = "Request received: GET /api/users/me")
  ∧ @RequestLoggingMiddleware.dispatch demo_settings demo_libraries demo_floats
      plain_formatting (RequestLoggingMiddleware.__init__ None None false)
      brace_request 1000 1012 ok_handler initial_world
    = (Raise (KeyError "id"), initial_world).
Proof.
  split.
  - destruct (proj2 (@request_logging_outcome demo_settings demo_libraries
                       demo_floats plain_formatting
                       (RequestLoggingMiddleware.__init__ None None false)
                       (demo_request None) 1000 1012 ok_handler initial_world)
                "req-1")
      as (_ & _ & Hplain).
    + apply (bool_decide_unpack _). by vm_compute.
    + reflexivity.
    + done.
    + destruct (Hplain eq_refl eq_refl)
        as (received & _ & Hmsg & completed & Hrun & _).
      exists received, completed. by split.
  - destruct (proj2 (@request_logging_outcome demo_settings demo_libraries
                       demo_floats plain_formatting
                       (RequestLoggingMiddleware.__init__ None None false)
                       brace_request 1000 1012 ok_handler initial_world)
                "req-1")
      as (_ & Hbrace & _).
    + apply (bool_decide_unpack _). by vm_compute.
    + reflexivity.
    + done.
    + apply (Hbrace "/api/items/" "id" ""); done.
Defined.

Lemma token_lifetime_defaults_witness :
  @expires_at demo_libraries
    (@AuthService.create_access_token demo_settings demo_libraries
       (PInt 7) (Some 0) 1000)
  = Some (1000 + 60 * 24 * 8 * 60)
  ∧ @deps.get_current_user demo_settings demo_libraries
      (@AuthService.create_access_token demo_settings demo_libraries
         (PInt 7) (Some (-5)) 1000) demo_db 1000
    = Raise (@deps.credentials_exception).
Proof.
  destruct (@token_lifetime_defaults demo_settings demo_libraries (PInt 7) 1000)
    as (Hdefault & _ & Hnegative).
  split.
  - destruct (Hdefault (Some 0)) as [Haccess _]; [by right|]. exact Haccess.
  - apply Hnegative; lia.
Defined.

Lemma get_current_user_sound_witness :
  @deps.get_current_user demo_settings demo_libraries
    (@AuthService.create_access_token demo_settings demo_libraries
       (PInt 7) (Some 60) 1000) demo_db 1030
  = Ok demo_user
  ∧ @signature_valid demo_settings demo_libraries
      (@AuthService.create_access_token demo_settings demo_libraries
         (PInt 7) (Some 60) 1000)
    = true
  ∧ @deps.get_current_user demo_settings demo_libraries
      (Compact "none" (Object ∅) "") demo_db 1030
    = Raise (@deps.credentials_exception).
Proof.
  assert (@deps.get_current_user demo_settings demo_libraries
            (@AuthService.create_access_token demo_settings demo_libraries
               (PInt 7) (Some 60) 1000) demo_db 1030
          = Ok demo_user) as Hok by (by vm_compute).
  split; [exact Hok|].
  destruct (@get_current_user_sound demo_settings demo_libraries
              (@AuthService.create_access_token demo_settings demo_libraries
                 (PInt 7) (Some 60) 1000) demo_db 1030)
    as (Hsound & _).
  destruct (Hsound demo_user Hok) as (Hsig & _).
  split; [exact Hsig|].
  destruct (@get_current_user_sound demo_settings demo_libraries
              (Compact "none" (Object ∅) "") demo_db 1030)
    as (_ & Hreject & _).
  by eapply Hreject.
Defined.

Lemma refresh_token_failures_witness :
  @endpoints.refresh_token demo_settings demo_libraries
    (@AuthService.create_refresh_token demo_settings demo_libraries
       (PInt 7) (Some 60) 1000) demo_db 1061
  = Raise (HTTPException 401 "Invalid refresh token" []).
Proof.
  destruct (@refresh_token_failures demo_settings demo_libraries
              (@AuthService.create_refresh_token demo_settings demo_libraries
                 (PInt 7) (Some 60) 1000) demo_db 1061)
    as (Hdecode & _).
  by eapply Hdecode.
Defined.

Lemma login_failures_witness :
  @endpoints.login demo_settings demo_libraries
    {| endpoints.username := "bob@example.com"; endpoints.password := "pw" |}
    demo_db 1000
  = Raise (HTTPException 401 "Incorrect email or password"
             [("WWW-Authenticate", "Bearer")]).
Proof.
  destruct (@login_failures demo_settings demo_libraries
              {| endpoints.username := "bob@example.com";
                 endpoints.password := "pw" |} demo_db 1000)
    as (_ & Hunknown & _).
  by apply Hunknown.
Defined.

Lemma assemble_cors_origins_spec_witness :
  config.assemble_cors_origins
    (config.CorsStr "http://localhost:3000, https://app.example.com")
  = Ok (config.CorsList ["http://localhost:3000"; "https://app.example.com"]).
Proof.
  destruct assemble_cors_origins_spec as (Hjoin & _).
  destruct (Hjoin ["http://localhost:3000"; "https://app.example.com"])
    as [_ Hspace]; [done| |done|exact Hspace].
  repeat constructor; try done; by apply not_contains_char.
Defined.
